(** * Pix2seq / Deformable-DETR transformer utilities

    A shallow embedding of the numerical helpers and control flow of
    [mmdet/models/utils/transformer_old.py]:

    - [inverse_sigmoid] and the sigmoid it inverts;
    - the reference-point refinement of
      [DeformableDetrTransformerDecoder.forward];
    - [DeformableDetrTransformer.gen_encoder_output_proposals];
    - [top_k_top_p_filtering];
    - the evaluation-mode decoding loop of [Pix2seqTransformer.forward]
      (identical in [Pix2seqTransformerPro.forward]);
    - [VectorQuantizer.forward].

    Tensor entries are idealised: finite entries are real numbers (no
    rounding), and where the code relies on IEEE special values (division
    by zero, [float("inf")], NaN comparisons) entries are extended reals
    [ereal] with the IEEE rules for those values.  Python exceptions are
    values of [exn] carried by the [result] monad.  Learned sub-modules
    (decoder layers, regression branches, classifier, embeddings) are
    functions on tensors supplied by the caller; [torch.multinomial] is a
    draw supplied per step; autograd is a [requires_grad] flag.  The
    training branch of [Pix2seqTransformer.forward] and the encoders are
    outside this development. *)

From Stdlib Require Import Reals Lra Lia List Bool Arith ZArith Permutation.
Import ListNotations.

Set Implicit Arguments.

(* ------------------------------------------------------------------ *)
(** ** Exceptions *)

Inductive exn : Type :=
| AssertionError
| IndexError
| RuntimeError.

Inductive result (A : Type) : Type :=
| Ok (a : A)
| Raise (e : exn).

Arguments Ok {A} a.
Arguments Raise {A} e.

Definition bind {A B : Type} (m : result A) (k : A -> result B) : result B :=
  match m with
  | Ok a => k a
  | Raise e => Raise e
  end.

Notation "x <- m ;; k" := (bind m (fun x => k))
  (at level 61, m at next level, right associativity).
Notation "' pat <- m ;; k" := (bind m (fun x => match x with pat => k end))
  (at level 61, pat pattern, m at next level, right associativity).

Fixpoint mapM {A B : Type} (f : A -> result B) (l : list A) : result (list B) :=
  match l with
  | [] => Ok []
  | x :: xs => y <- f x ;; ys <- mapM f xs ;; Ok (y :: ys)
  end.

(** Broadcasting of two equal-rank tensors along one dimension: sizes must
    agree, or one of them is 1. *)
Definition broadcast2 {A B C : Type} (f : A -> B -> result C)
    (xs : list A) (ys : list B) : result (list C) :=
  if length xs =? length ys then
    mapM (fun p => f (fst p) (snd p)) (combine xs ys)
  else
    match xs, ys with
    | [x], _ => mapM (f x) ys
    | _, [y] => mapM (fun x => f x y) xs
    | _, _ => Raise RuntimeError
    end.

(** Broadcasting of a right-hand side into an existing left-hand side (an
    in-place assignment): only the right operand may be stretched. *)
Definition broadcast_into {A B C : Type} (f : A -> B -> result C)
    (xs : list A) (ys : list B) : result (list C) :=
  if length xs =? length ys then
    mapM (fun p => f (fst p) (snd p)) (combine xs ys)
  else
    match ys with
    | [y] => mapM (fun x => f x y) xs
    | _ => Raise RuntimeError
    end.

(** [l[i] = v] on a Python list / 1-D tensor with [i] in range. *)
Fixpoint list_set {A : Type} (l : list A) (i : nat) (v : A) : list A :=
  match l, i with
  | [], _ => []
  | _ :: xs, O => v :: xs
  | x :: xs, S j => x :: list_set xs j v
  end.

(** Rows of length [n] of a flat buffer ([view(-1, n)]). *)
Fixpoint chunks_fuel {A : Type} (fuel n : nat) (l : list A) : list (list A) :=
  match fuel with
  | O => []
  | S fuel' =>
      match l with
      | [] => []
      | _ => firstn n l :: chunks_fuel fuel' n (skipn n l)
      end
  end.

Definition chunks {A : Type} (n : nat) (l : list A) : list (list A) :=
  chunks_fuel (length l) n l.

(** Transposition of the two outer dimensions ([permute(1, 0, 2)]). *)
Fixpoint zip_cons {A : Type} (r : list A) (cols : list (list A)) : list (list A) :=
  match r, cols with
  | x :: r', c :: cols' => (x :: c) :: zip_cons r' cols'
  | _, _ => []
  end.

Fixpoint transpose {A : Type} (l : list (list A)) : list (list A) :=
  match l with
  | [] => []
  | [r] => map (fun x => [x]) r
  | r :: rs => zip_cons r (transpose rs)
  end.

(* ------------------------------------------------------------------ *)
(** ** Scalars: sigmoid and [inverse_sigmoid] *)

Definition sigmoid (x : R) : R := (1 / (1 + exp (- x)))%R.

(** [x.clamp(min=lo)] and [x.clamp(min=lo, max=hi)]. *)
Definition clamp_min (lo x : R) : R := Rmax x lo.
Definition clamp (lo hi x : R) : R := Rmin (Rmax x lo) hi.

(** The two clamped operands of the quotient in [inverse_sigmoid]. *)
Definition inverse_sigmoid_x1 (x eps : R) : R :=
  let x := clamp 0 1 x in
  clamp_min eps x.

Definition inverse_sigmoid_x2 (x eps : R) : R :=
  let x := clamp 0 1 x in
  clamp_min eps (1 - x)%R.

Definition inverse_sigmoid (x eps : R) : R :=
  let x1 := inverse_sigmoid_x1 x eps in
  let x2 := inverse_sigmoid_x2 x eps in
  ln (x1 / x2)%R.

(** Default [eps=1e-5]. *)
Definition default_eps : R := (1 / 100000)%R.

(* ------------------------------------------------------------------ *)
(** ** DeformableDetrTransformerDecoder.forward *)

Definition tensor3 := list (list (list R)).
Definition tensor4 := list (list (list (list R))).

(** A [bs x num_query x coords] tensor together with its autograd flag. *)
Record points : Type := Points {
  coords : nat;             (* shape[-1] *)
  pts : tensor3;
  requires_grad : bool
}.

Definition detach (p : points) : points :=
  Points (coords p) (pts p) false.

Definition t3_map (f : R -> R) (t : tensor3) : tensor3 :=
  map (map (map f)) t.

Definition permute102 (t : tensor3) : tensor3 := transpose t.

Definition radd (a b : R) : result R := Ok (a + b)%R.
Definition rmul (a b : R) : result R := Ok (a * b)%R.

(** [reference_points[:, :, None] * ratios[:, None]] with [ratios] of shape
    [bs x num_levels x k]. *)
Definition mul_ratios (ref ratios : tensor3) : result tensor4 :=
  broadcast2
    (fun rq vl => mapM (fun r => mapM (fun v => broadcast2 rmul r v) vl) rq)
    ref ratios.

(** [torch.cat([valid_ratios, valid_ratios], -1)]. *)
Definition cat_ratios (valid_ratios : tensor3) : tensor3 :=
  map (map (fun v => v ++ v)) valid_ratios.

Definition reference_points_input (reference_points : points)
    (valid_ratios : tensor3) : result tensor4 :=
  if coords reference_points =? 4 then
    mul_ratios (pts reference_points) (cat_ratios valid_ratios)
  else if coords reference_points =? 2 then
    mul_ratios (pts reference_points) valid_ratios
  else Raise AssertionError.

(** The refinement performed when [reg_branches is not None]; [tmp] is
    [reg_branches[lid](output)]. *)
Definition refine4 (tmp reference_points : points) : result points :=
  if (coords tmp =? 4) || (coords tmp =? 1) then
    s <- broadcast2 (broadcast2 (broadcast2 radd)) (pts tmp)
           (t3_map (fun x => inverse_sigmoid x default_eps) (pts reference_points)) ;;
    Ok (Points 4 (t3_map sigmoid s)
          (requires_grad tmp || requires_grad reference_points))
  else Raise RuntimeError.

Definition refine2 (tmp reference_points : points) : result points :=
  if 2 <=? coords tmp then
    s <- broadcast_into (broadcast_into
           (fun t r =>
              h <- broadcast2 radd (firstn 2 t)
                     (map (fun x => inverse_sigmoid x default_eps) r) ;;
              Ok (h ++ skipn 2 t)))
           (pts tmp) (pts reference_points) ;;
    Ok (Points (coords tmp) (t3_map sigmoid s)
          (requires_grad tmp || requires_grad reference_points))
  else Raise RuntimeError.

Definition new_reference_points (tmp reference_points : points) : result points :=
  if coords reference_points =? 4 then refine4 tmp reference_points
  else if coords reference_points =? 2 then refine2 tmp reference_points
  else Raise AssertionError.

Record decoder_state : Type := DecoderState {
  output : tensor3;
  reference_points : points;
  intermediate : list tensor3;
  intermediate_reference_points : list points
}.

Record DeformableDetrTransformerDecoder : Type := {
  layers : list (tensor3 -> tensor4 -> tensor3);
  return_intermediate : bool
}.

(** One iteration of [for lid, layer in enumerate(self.layers)]. *)
Definition decoder_layer_step (self : DeformableDetrTransformerDecoder)
    (valid_ratios : tensor3)
    (reg_branches : option (list (tensor3 -> points)))
    (lid : nat) (layer : tensor3 -> tensor4 -> tensor3)
    (st : decoder_state) : result decoder_state :=
  rpi <- reference_points_input (reference_points st) valid_ratios ;;
  let out := layer (output st) rpi in
  let out := permute102 out in
  ref <- match reg_branches with
         | Some branches =>
             match nth_error branches lid with
             | Some branch =>
                 let tmp := branch out in
                 new <- new_reference_points tmp (reference_points st) ;;
                 Ok (detach new)
             | None => Raise IndexError
             end
         | None => Ok (reference_points st)
         end ;;
  let out := permute102 out in
  if return_intermediate self then
    Ok (DecoderState out ref (intermediate st ++ [out])
          (intermediate_reference_points st ++ [ref]))
  else
    Ok (DecoderState out ref (intermediate st) (intermediate_reference_points st)).

Fixpoint decoder_layers_loop (self : DeformableDetrTransformerDecoder)
    (valid_ratios : tensor3)
    (reg_branches : option (list (tensor3 -> points)))
    (lid : nat) (ls : list (tensor3 -> tensor4 -> tensor3))
    (st : decoder_state) : result decoder_state :=
  match ls with
  | [] => Ok st
  | layer :: ls' =>
      st' <- decoder_layer_step self valid_ratios reg_branches lid layer st ;;
      decoder_layers_loop self valid_ratios reg_branches (S lid) ls' st'
  end.

Inductive decoder_output : Type :=
| Stacked (inter : list tensor3) (inter_refs : list points)
| Last (out : tensor3) (ref : points).

(** [torch.stack] needs equally shaped entries (the layer outputs keep
    the shape of the query). *)
Definition stackable (l : list points) : bool :=
  match l with
  | [] => false
  | p :: ps => forallb (fun q => coords q =? coords p) ps
  end.

Definition decoder_forward (self : DeformableDetrTransformerDecoder)
    (query : tensor3) (reference_points0 : points) (valid_ratios : tensor3)
    (reg_branches : option (list (tensor3 -> points))) : result decoder_output :=
  st <- decoder_layers_loop self valid_ratios reg_branches 0 (layers self)
          (DecoderState query reference_points0 [] []) ;;
  if return_intermediate self then
    if stackable (intermediate_reference_points st) then
      Ok (Stacked (intermediate st) (intermediate_reference_points st))
    else Raise RuntimeError
  else Ok (Last (output st) (reference_points st)).

(** Elementwise combination of two equally shaped lists, and the shape
    predicates used to state the refinement. *)
Definition zip_with {A B C : Type} (f : A -> B -> C) (xs : list A) (ys : list B)
  : list C :=
  map (fun p : A * B => f (fst p) (snd p)) (combine xs ys).



(* ------------------------------------------------------------------ *)
(** ** Extended reals: float entries with IEEE special values *)

Inductive ereal : Type :=
| Fin (r : R)
| PInf
| NInf
| NaN.

Definition Rltb (a b : R) : bool := if Rlt_dec a b then true else false.
Definition Reqb (a b : R) : bool := if Req_dec_T a b then true else false.

(** IEEE [<] and [>]: false as soon as one operand is NaN. *)
Definition eltb (a b : ereal) : bool :=
  match a, b with
  | NaN, _ | _, NaN => false
  | Fin x, Fin y => Rltb x y
  | NInf, NInf => false
  | NInf, _ => true
  | _, PInf => match a with PInf => false | _ => true end
  | _, _ => false
  end.

Definition egtb (a b : ereal) : bool := eltb b a.

Definition eneg (a : ereal) : ereal :=
  match a with
  | Fin x => Fin (- x)
  | PInf => NInf
  | NInf => PInf
  | NaN => NaN
  end.

Definition eadd (a b : ereal) : ereal :=
  match a, b with
  | NaN, _ | _, NaN => NaN
  | Fin x, Fin y => Fin (x + y)
  | PInf, NInf | NInf, PInf => NaN
  | PInf, _ | _, PInf => PInf
  | NInf, _ | _, NInf => NInf
  end.

Definition esub (a b : ereal) : ereal := eadd a (eneg b).

(** Division; a zero divisor is [+0.0]. *)
Definition ediv (a b : ereal) : ereal :=
  match a, b with
  | NaN, _ | _, NaN => NaN
  | Fin x, Fin y =>
      if Reqb y 0 then
        if Rltb 0 x then PInf else if Rltb x 0 then NInf else NaN
      else Fin (x / y)
  | Fin _, _ => Fin 0
  | PInf, Fin y => if Rltb y 0 then NInf else PInf
  | NInf, Fin y => if Rltb y 0 then PInf else NInf
  | _, _ => NaN
  end.

Definition elog (a : ereal) : ereal :=
  match a with
  | Fin x => if Rltb 0 x then Fin (ln x) else if Reqb x 0 then NInf else NaN
  | PInf => PInf
  | NInf => NaN
  | NaN => NaN
  end.

Definition eexp (a : ereal) : ereal :=
  match a with
  | Fin x => Fin (exp x)
  | PInf => PInf
  | NInf => Fin 0
  | NaN => NaN
  end.

(** The order used by [argmax], [sort] and [topk]: NaN is the greatest. *)
Definition sort_ltb (a b : ereal) : bool :=
  match a, b with
  | NaN, _ => false
  | _, NaN => true
  | _, _ => eltb a b
  end.

(* ------------------------------------------------------------------ *)
(** ** DeformableDetrTransformer.gen_encoder_output_proposals *)

Definition etensor3 := list (list (list ereal)).

(** [torch.sum(~m, 1)] over one row of booleans. *)
Definition count_false (l : list bool) : nat :=
  length (filter negb l).

(** [mask_flatten_[n, :, 0, 0]] and [mask_flatten_[n, 0, :, 0]] of the
    [H x W] view of a level's slice of one mask row. *)
Definition first_column (H W : nat) (level_mask : list bool) : list bool :=
  map (fun h => nth (h * W) level_mask false) (seq 0 H).

Definition first_row (W : nat) (level_mask : list bool) : list bool :=
  map (fun w => nth w level_mask false) (seq 0 W).

Definition valid_H (H W : nat) (level_mask : list bool) : nat :=
  count_false (first_column H W level_mask).

Definition valid_W (W : nat) (level_mask : list bool) : nat :=
  count_false (first_row W level_mask).

(** [0.05 * (2.0 ** lvl)]. *)
Definition level_wh (lvl : nat) : R := (5 / 100 * 2 ^ lvl)%R.

(** The proposal of pixel [(h, w)]: [(x, y, wh, wh)]. *)
Definition pixel_proposal (lvl vH vW h w : nat) : list ereal :=
  [ ediv (Fin (INR w + 5 / 10)) (Fin (INR vW));
    ediv (Fin (INR h + 5 / 10)) (Fin (INR vH));
    Fin (level_wh lvl);
    Fin (level_wh lvl) ].

(** [proposal] of one level for one image, flattened row-major. *)
Definition image_level_proposals (lvl H W : nat) (level_mask : list bool)
  : list (list ereal) :=
  let vH := valid_H H W level_mask in
  let vW := valid_W W level_mask in
  flat_map (fun h => map (fun w => pixel_proposal lvl vH vW h w) (seq 0 W))
           (seq 0 H).

(** [memory_padding_mask[:, _cur:(_cur + H * W)].view(N, H, W, 1)]; the
    two index expressions with a literal 0 need [H] and [W] positive. *)
Definition level_slice (cur H W : nat) (mask_row : list bool) : result (list bool) :=
  let s := firstn (H * W) (skipn cur mask_row) in
  if length s =? H * W then Ok s else Raise RuntimeError.

Definition level_proposals (memory_padding_mask : list (list bool))
    (cur lvl H W : nat) : result (list (list (list ereal))) :=
  if (H =? 0) || (W =? 0) then Raise IndexError
  else
    mapM (fun mask_row =>
            s <- level_slice cur H W mask_row ;;
            Ok (image_level_proposals lvl H W s))
         memory_padding_mask.

(** [torch.cat(..., 1)] of per-level [N x _ x 4] tensors. *)
Definition cat_dim1 {A : Type} (N : nat) (parts : list (list (list A)))
  : list (list A) :=
  map (fun n => flat_map (fun part => nth n part []) parts) (seq 0 N).

Fixpoint proposals_loop (memory_padding_mask : list (list bool))
    (cur lvl : nat) (spatial_shapes : list (nat * nat))
  : result (list (list (list (list ereal)))) :=
  match spatial_shapes with
  | [] => Ok []
  | (H, W) :: rest =>
      p <- level_proposals memory_padding_mask cur lvl H W ;;
      ps <- proposals_loop memory_padding_mask (cur + H * W) (S lvl) rest ;;
      Ok (p :: ps)
  end.

(** [output_proposals] before the logarithm. *)
Definition raw_proposals (memory_padding_mask : list (list bool))
    (spatial_shapes : list (nat * nat)) : result etensor3 :=
  match spatial_shapes with
  | [] => Raise RuntimeError               (* torch.cat of an empty list *)
  | _ =>
      ps <- proposals_loop memory_padding_mask 0 0 spatial_shapes ;;
      Ok (cat_dim1 (length memory_padding_mask) ps)
  end.

(** [((p > 0.01) & (p < 0.99)).all(-1, keepdim=True)] for one proposal. *)
Definition proposal_valid (p : list ereal) : bool :=
  forallb (fun c => egtb c (Fin (1 / 100)) && eltb c (Fin (99 / 100))) p.

(** [torch.log(p / (1 - p))]. *)
Definition logit_encode (c : ereal) : ereal :=
  elog (ediv c (esub (Fin 1) c)).

(** [t.masked_fill(mask.unsqueeze(-1), v)] on one [S x C] image; the mask
    has one entry per row. *)
Definition masked_fill_rows {A : Type} (rows : list (list A)) (mask : list bool)
    (v : A) : result (list (list A)) :=
  broadcast2 (fun row (m : bool) => Ok (if m then map (fun _ => v) row else row))
             rows mask.

Definition masked_fill3 {A : Type} (t : list (list (list A)))
    (mask : list (list bool)) (v : A) : result (list (list (list A))) :=
  broadcast2 (fun rows m => masked_fill_rows rows m v) t mask.

Record DeformableDetrTransformer : Type := {
  enc_output : etensor3 -> etensor3;
  enc_output_norm : etensor3 -> etensor3
}.

(** [N] is read off [memory.shape]; the views of the mask to
    [(N, H, W, 1)] need the mask to have the same batch size. *)
Definition gen_encoder_output_proposals (self : DeformableDetrTransformer)
    (memory : etensor3) (memory_padding_mask : list (list bool))
    (spatial_shapes : list (nat * nat)) : result (etensor3 * etensor3) :=
  if length memory_padding_mask =? length memory then
    output_proposals <- raw_proposals memory_padding_mask spatial_shapes ;;
    let output_proposals_valid := map (map proposal_valid) output_proposals in
    let output_proposals := map (map (map logit_encode)) output_proposals in
    output_proposals <- masked_fill3 output_proposals memory_padding_mask PInf ;;
    output_proposals <-
      masked_fill3 output_proposals (map (map negb) output_proposals_valid) PInf ;;
    output_memory <- masked_fill3 memory memory_padding_mask (Fin 0) ;;
    output_memory <-
      masked_fill3 output_memory (map (map negb) output_proposals_valid) (Fin 0) ;;
    Ok (enc_output_norm self (enc_output self output_memory), output_proposals)
  else Raise RuntimeError.

(** Number of keys of all levels, the offset [_cur] of a level, and the
    open interval [(0.01, 0.99)] of valid proposal coordinates. *)
Definition total_keys (spatial_shapes : list (nat * nat)) : nat :=
  fold_right (fun hw acc => fst hw * snd hw + acc) 0 spatial_shapes.

Definition level_offset (spatial_shapes : list (nat * nat)) (lvl : nat) : nat :=
  total_keys (firstn lvl spatial_shapes).

Definition in_open_interval (c : ereal) : Prop :=
  match c with
  | Fin r => (1 / 100 < r < 99 / 100)%R
  | _ => False
  end.

(** The effect of [masked_fill] on one row, and the per-image list of
    level proposals that [proposals_loop] and [torch.cat] lay out. *)
Definition fill_row {A : Type} (v : A) (row : list A) (m : bool) : list A :=
  if m then map (fun _ => v) row else row.

Fixpoint level_blocks (mask_row : list bool) (cur lvl : nat)
    (spatial_shapes : list (nat * nat)) : list (list (list ereal)) :=
  match spatial_shapes with
  | [] => []
  | (H, W) :: rest =>
      image_level_proposals lvl H W (firstn (H * W) (skipn cur mask_row))
      :: level_blocks mask_row (cur + H * W) (S lvl) rest
  end.

(** A tensor with [N] images of [S] rows each. *)
Definition shaped {A : Type} (N S : nat) (t : list (list A)) : Prop :=
  length t = N /\ Forall (fun r => length r = S) t.

(* ------------------------------------------------------------------ *)
(** ** top_k_top_p_filtering *)

(** A float tensor: shape and row-major buffer. *)
Record etensor : Type := ETensor {
  shape : list nat;
  data : list ereal
}.

Definition dim (t : etensor) : nat := length (shape t).

(** [torch.squeeze(t)]: every dimension of size 1 is dropped; the result
    shares the buffer. *)
Definition squeeze (t : etensor) : etensor :=
  ETensor (filter (fun d => negb (d =? 1)) (shape t)) (data t).

(** [torch.sort(l, descending=True)] as (index, value) pairs; ties keep
    their original order. *)
Fixpoint insert_desc (x : nat * ereal) (l : list (nat * ereal))
  : list (nat * ereal) :=
  match l with
  | [] => [x]
  | y :: ys =>
      if sort_ltb (snd x) (snd y) then y :: insert_desc x ys else x :: y :: ys
  end.

Definition indexed {A : Type} (l : list A) : list (nat * A) :=
  combine (seq 0 (length l)) l.

Definition sort_desc (l : list ereal) : list (nat * ereal) :=
  fold_right insert_desc [] (indexed l).

Definition emax (a b : ereal) : ereal := if sort_ltb a b then b else a.

Definition esum (l : list ereal) : ereal := fold_left eadd l (Fin 0).

(** [F.softmax(l, dim=-1)], computed as [exp(x - max) / sum]. *)
Definition softmax (l : list ereal) : list ereal :=
  let m := fold_right emax NInf l in
  let es := map (fun x => eexp (esub x m)) l in
  let s := esum es in
  map (fun e => ediv e s) es.

Fixpoint cumsum_from (acc : ereal) (l : list ereal) : list ereal :=
  match l with
  | [] => []
  | x :: xs => let a := eadd acc x in a :: cumsum_from a xs
  end.

Definition cumsum (l : list ereal) : list ereal := cumsum_from (Fin 0) l.

(** [logits[indices] = filter_value] with an index tensor. *)
Definition assign_indices (logits : list ereal) (indices : list nat)
    (filter_value : ereal) : list ereal :=
  fold_left (fun l i => list_set l i filter_value) indices logits.

(** [logits[mask] = filter_value] with a boolean mask of the same length. *)
Definition assign_mask (logits : list ereal) (mask : list bool)
    (filter_value : ereal) : list ereal :=
  map (fun p : ereal * bool => if snd p then filter_value else fst p)
      (combine logits mask).

(** The [top_k > 0] branch. *)
Definition top_k_branch (logits : list ereal) (top_k : nat)
    (filter_value : ereal) : list ereal :=
  let kth := nth (top_k - 1) (map snd (sort_desc logits)) NaN in
  let indices_to_remove := map (fun x => eltb x kth) logits in
  assign_mask logits indices_to_remove filter_value.

(** [sorted_indices_to_remove] after the shift and the reset of entry 0. *)
Definition sorted_indices_to_remove (sorted_logits : list ereal) (top_p : R)
  : result (list bool) :=
  let cumulative_probs := cumsum (softmax sorted_logits) in
  let remove := map (fun c => egtb c (Fin top_p)) cumulative_probs in
  let remove := match remove with
                | [] => []
                | r0 :: _ => r0 :: removelast remove
                end in
  match remove with
  | [] => Raise IndexError
  | _ :: rest => Ok (false :: rest)
  end.

(** The [top_p > 0.0] branch. *)
Definition top_p_branch (logits : list ereal) (top_p : R)
    (filter_value : ereal) : result (list ereal) :=
  let sorted := sort_desc logits in
  let sorted_logits := map snd sorted in
  let sorted_indices := map fst sorted in
  remove <- sorted_indices_to_remove sorted_logits top_p ;;
  let indices_to_remove :=
    map fst (filter snd (combine sorted_indices remove)) in
  Ok (assign_indices logits indices_to_remove filter_value).

Definition top_k_top_p_filtering (logits : etensor) (top_k : Z) (top_p : R)
    (filter_value : ereal) : result etensor :=
  if dim logits =? 1 then
    let size := Z.of_nat (last (shape logits) 0) in
    let top_k := Z.min top_k size in
    let l := data logits in
    let l := if (0 <? top_k)%Z
             then top_k_branch l (Z.to_nat top_k) filter_value else l in
    l <- (if Rltb 0 top_p then top_p_branch l top_p filter_value else Ok l) ;;
    Ok (ETensor (shape logits) l)
  else Raise AssertionError.

(** No entry of a sorted list is above its head, in the order of [sort]. *)
Definition head_is_greatest (l : list (nat * ereal)) : Prop :=
  match l with
  | [] => True
  | h :: _ => forall y, In y l -> sort_ltb (snd h) (snd y) = false
  end.

(** Defaults of the signature: [top_k=0, top_p=0.0, filter_value=-inf]. *)
Definition default_top_k : Z := 0%Z.
Definition default_top_p : R := 0%R.
Definition default_filter_value : ereal := NInf.

(* ------------------------------------------------------------------ *)
(** ** Pix2seqTransformer.forward, evaluation branch

    The loop of [Pix2seqTransformerPro.forward] is the same text.  The
    encoder output [memory] and the flattened [mask] and [pos_embed] are
    taken as given; the decoder stack, [vocal_classifier] and
    [vocal_embed] are functions on tensors. *)

(** The output of [vocal_classifier]: a rank-3 tensor of shape
    [N x B x V] (the decoder output has rank 3 and the classifier acts on
    the last dimension). *)
Record sim : Type := Sim {
  sim_N : nat;
  sim_B : nat;
  sim_V : nat;
  sim_data : list ereal
}.

Definition sim_tensor (s : sim) : etensor :=
  ETensor [sim_N s; sim_B s; sim_V s] (sim_data s).

(** [s[n, b, :]]. *)
Definition sim_row (s : sim) (n b : nat) : list ereal :=
  firstn (sim_V s) (skipn ((n * sim_B s + b) * sim_V s) (sim_data s)).

(** Python's [l[:k]] for any integer [k]. *)
Definition py_slice_to {A : Type} (k : Z) (l : list A) : list A :=
  if (k <? 0)%Z then firstn (length l - Z.to_nat (- k)) l
  else firstn (Z.to_nat k) l.

(** Python's [l[i]] index normalisation on a dimension of size [n]. *)
Definition py_index (n : nat) (i : Z) : result nat :=
  if ((0 <=? i) && (i <? Z.of_nat n))%Z then Ok (Z.to_nat i)
  else if ((i <? 0) && (- Z.of_nat n <=? i))%Z then Ok (Z.to_nat (Z.of_nat n + i))
  else Raise IndexError.

(** [argmax]: index of the first greatest entry. *)
Fixpoint argmax_from (best_i : nat) (best : ereal) (i : nat) (l : list ereal)
  : nat :=
  match l with
  | [] => best_i
  | x :: xs =>
      if sort_ltb best x then argmax_from i x (S i) xs
      else argmax_from best_i best (S i) xs
  end.

Definition argmax (l : list ereal) : result nat :=
  match l with
  | [] => Raise IndexError
  | x :: xs => Ok (argmax_from 0 x 1 xs)
  end.

(** [s[:, :, :k].argmax(dim=-1)], of shape [N x B]. *)
Definition argmax_last (k : Z) (s : sim) : result (list (list nat)) :=
  if length (py_slice_to k (repeat tt (sim_V s))) =? 0 then Raise IndexError
  else
    mapM (fun n =>
            mapM (fun b => argmax (py_slice_to k (sim_row s n b)))
                 (seq 0 (sim_B s)))
         (seq 0 (sim_N s)).

Record Pix2seqTransformer : Type := {
  pred_eos : bool;
  decoder :
    etensor -> etensor -> etensor -> list (list bool) -> list etensor ->
    etensor * list etensor;
  decoder_num_layers : nat;
  (* read by the nucleus-sampling path *)
  top_p : R;
  num_bins : Z;
  num_classes : Z
}.

Record decode_state : Type := DecodeState {
  input_embed : etensor;
  pre_kv : list etensor;
  end_ : list bool;
  end_lens : list nat;
  pred_seq_logits : list sim
}.

Inductive flow : Type := Continue | Break.

(** [stop_state]: which samples have the end-of-sequence class as the
    argmax of their first [num_vocal - 1] logits.  A leading dimension
    other than 1 survives [squeeze(0)] and cannot be accumulated into the
    1-D [end_lens]. *)
Definition stop_state (num_vocal : Z) (similarity : sim) : result (list bool) :=
  is_eos <- argmax_last (num_vocal - 1) similarity ;;
  match is_eos with                                       (* squeeze(0) *)
  | [row] => Ok (map (fun i => (Z.of_nat i =? num_vocal - 2)%Z) row)
  | _ => Raise RuntimeError
  end.

(** The [if self.pred_eos:] block up to the test of [break]; returns the
    outcome of the test and the updated [end] and [end_lens]. *)
Definition eos_update (num_vocal : Z) (seq_i : nat) (similarity : sim)
    (end0 : list bool) (end_lens0 : list nat)
  : result (bool * list bool * list nat) :=
  stop_state <- stop_state num_vocal similarity ;;
  fresh <- broadcast2 (fun (e s : bool) => Ok (negb e && s)) end0 stop_state ;;
  end_lens1 <-
    broadcast_into (fun (l : nat) (f : bool) => Ok (l + seq_i * (if f then 1 else 0)))
                   end_lens0 fresh ;;
  end1 <- broadcast2 (fun (s e : bool) => Ok (s || e)) stop_state end0 ;;
  Ok (forallb (fun b => b) end1 && (4 <? seq_i), end1, end_lens1).

(** A row of [zeros_like] with entry [idx] set to [1.0]. *)
Definition one_hot_row (V idx : nat) : list ereal :=
  map (fun j => if j =? idx then Fin 1 else Fin 0) (seq 0 V).

(** The [if nucleus_sampling:] branch; [multinomial] is the random draw
    of step [seq_i]. *)
Definition nucleus_step (self : Pix2seqTransformer)
    (multinomial : nat -> list ereal -> result nat)
    (seq_i : nat) (similarity : sim) : result (list (list Z) * sim) :=
  filtered_logits <-
    top_k_top_p_filtering (squeeze (sim_tensor similarity))
      default_top_k (top_p self) default_filter_value ;;
  let probabilities := softmax (data filtered_logits) in
  tok <- multinomial seq_i probabilities ;;
  let pred_token := Z.min (Z.of_nat tok) (num_bins self + num_classes self) in
  idx <- py_index (sim_V similarity) pred_token ;;
  let pred_similarity :=
    Sim (sim_N similarity) (sim_B similarity) (sim_V similarity)
        (concat (repeat (one_hot_row (sim_V similarity) idx)
                        (sim_N similarity * sim_B similarity))) in
  Ok ([[pred_token]], pred_similarity).

(** The [else:] branch. *)
Definition greedy_step (num_vocal : Z) (similarity : sim)
  : result (list (list Z) * sim) :=
  pred_token <- argmax_last (num_vocal - 2) similarity ;;
  Ok (map (map Z.of_nat) pred_token, similarity).

(** One iteration of [for seq_i in range(500)]. *)
Definition decode_step (self : Pix2seqTransformer)
    (memory pos_embed : etensor) (mask : list (list bool))
    (vocal_embed : list (list Z) -> result etensor)
    (vocal_classifier : etensor -> sim)
    (num_vocal : Z) (nucleus_sampling : bool)
    (multinomial : nat -> list ereal -> result nat)
    (seq_i : nat) (st : decode_state) : result (flow * decode_state) :=
  let '(out_dec, kv) :=
    decoder self (input_embed st) memory pos_embed mask (pre_kv st) in
  let similarity := vocal_classifier out_dec in
  '(stop, end1, end_lens1) <-
    (if pred_eos self
     then eos_update num_vocal seq_i similarity (end_ st) (end_lens st)
     else Ok (false, end_ st, end_lens st)) ;;
  if stop then
    Ok (Break, DecodeState (input_embed st) kv end1 end_lens1 (pred_seq_logits st))
  else
    '(pred_token, logits) <-
      (if nucleus_sampling
       then nucleus_step self multinomial seq_i similarity
       else greedy_step num_vocal similarity) ;;
    emb <- vocal_embed pred_token ;;
    Ok (Continue,
        DecodeState emb kv end1 end_lens1 (pred_seq_logits st ++ [logits])).

Fixpoint decode_loop (step : nat -> decode_state -> result (flow * decode_state))
    (range : list nat) (st : decode_state) : result (flow * decode_state) :=
  match range with
  | [] => Ok (Continue, st)
  | seq_i :: rest =>
      '(f, st') <- step seq_i st ;;
      match f with
      | Break => Ok (Break, st')
      | Continue => decode_loop step rest st'
      end
  end.

(** [det_embed.weight.unsqueeze(0).repeat(bs, 1, 1).transpose(0, 1)]. *)
Definition det_embed_input (bs : nat) (weight : list (list ereal)) : etensor :=
  ETensor [length weight; bs; length (hd [] weight)]
          (flat_map (fun row => concat (repeat row bs)) weight).

(** [similarity.transpose(0, 1)[b]]: the [N] rows of sample [b]. *)
Definition sample_rows (s : sim) (b : nat) : list (list ereal) :=
  map (fun n => sim_row s n b) (seq 0 (sim_N s)).

(** [torch.cat(pred_seq_logits, dim=1)], one list of rows per sample. *)
Definition cat_logits (l : list sim) : result (list (list (list ereal))) :=
  match l with
  | [] => Raise RuntimeError
  | s0 :: rest =>
      if forallb (fun s => (sim_B s =? sim_B s0) && (sim_V s =? sim_V s0)) rest
      then Ok (map (fun b => flat_map (fun s => sample_rows s b) l)
                   (seq 0 (sim_B s0)))
      else Raise RuntimeError
  end.

Definition max_len : nat := 500.

Definition initial_state (self : Pix2seqTransformer) (bs : nat)
    (det_embed_weight : list (list ereal)) : decode_state :=
  DecodeState (det_embed_input bs det_embed_weight)
              (repeat (ETensor [2; 0] []) (decoder_num_layers self))
              (repeat false bs) (repeat 0 bs) [].

(** The loop with its exit reason. *)
Definition decode (self : Pix2seqTransformer) (bs : nat)
    (memory pos_embed : etensor) (mask : list (list bool))
    (det_embed_weight : list (list ereal))
    (vocal_embed : list (list Z) -> result etensor)
    (vocal_classifier : etensor -> sim)
    (num_vocal : Z) (nucleus_sampling : bool)
    (multinomial : nat -> list ereal -> result nat)
  : result (flow * decode_state) :=
  decode_loop
    (decode_step self memory pos_embed mask vocal_embed vocal_classifier
                 num_vocal nucleus_sampling multinomial)
    (seq 0 max_len)
    (initial_state self bs det_embed_weight).

(** The [else:] branch of [forward] (not [self.training]). *)
Definition forward_eval (self : Pix2seqTransformer) (bs : nat)
    (memory pos_embed : etensor) (mask : list (list bool))
    (det_embed_weight : list (list ereal))
    (vocal_embed : list (list Z) -> result etensor)
    (vocal_classifier : etensor -> sim)
    (num_vocal : Z) (nucleus_sampling : bool)
    (multinomial : nat -> list ereal -> result nat)
  : result (list (list (list ereal))) :=
  '(_, st) <- decode self bs memory pos_embed mask det_embed_weight vocal_embed
                vocal_classifier num_vocal nucleus_sampling multinomial ;;
  let end_lens1 :=
    if pred_eos self then end_lens st
    else map (fun _ => max_len) (end_lens st) in
  logits <- cat_logits (pred_seq_logits st) ;;
  Ok (map (fun p : nat * list (list ereal) => firstn (fst p) (snd p))
          (combine end_lens1 logits)).

(** *** Reading the loop

    [similarity_of] is the classifier output computed at the start of an
    iteration from the state it starts in; [emits_eos b i] tells whether
    sample [b] has the end-of-sequence class at iteration [i] of the run
    (false once the loop has been left); [first_eos] is the first such
    iteration below [k], or 0. *)

Definition similarity_of (self : Pix2seqTransformer)
    (memory pos_embed : etensor) (mask : list (list bool))
    (vocal_classifier : etensor -> sim) (st : decode_state) : sim :=
  vocal_classifier
    (fst (decoder self (input_embed st) memory pos_embed mask (pre_kv st))).

Definition emits_eos (self : Pix2seqTransformer) (bs : nat)
    (memory pos_embed : etensor) (mask : list (list bool))
    (det_embed_weight : list (list ereal))
    (vocal_embed : list (list Z) -> result etensor)
    (vocal_classifier : etensor -> sim)
    (num_vocal : Z) (nucleus_sampling : bool)
    (multinomial : nat -> list ereal -> result nat)
    (b i : nat) : bool :=
  match decode_loop
          (decode_step self memory pos_embed mask vocal_embed vocal_classifier
                       num_vocal nucleus_sampling multinomial)
          (seq 0 i) (initial_state self bs det_embed_weight) with
  | Ok (Continue, st) =>
      match stop_state num_vocal
              (similarity_of self memory pos_embed mask vocal_classifier st) with
      | Ok s => nth b s false
      | Raise _ => false
      end
  | _ => false
  end.

Definition first_eos (emits : nat -> bool) (k : nat) : nat :=
  match find emits (seq 0 k) with
  | Some i => i
  | None => 0
  end.

(** Every one of the [bs] samples has emitted the end-of-sequence class
    at some iteration up to and including [j]. *)
Definition all_ended (emits : nat -> nat -> bool) (bs j : nat) : bool :=
  forallb (fun b => existsb (emits b) (seq 0 (S j))) (seq 0 bs).

(* ------------------------------------------------------------------ *)
(** ** VectorQuantizer.forward *)

Record rtensor : Type := RTensor {
  rshape : list nat;
  rdata : list R
}.


Record VectorQuantizer : Type := {
  _embedding_dim : nat;
  _num_embeddings : nat;
  _embedding_weight : list (list R);     (* _num_embeddings rows *)
  _commitment_cost : R
}.

(** [inputs.view(-1, d)]. *)
Definition view_rows (d : nat) (inputs : rtensor) : result (list (list R)) :=
  if d =? 0 then Raise RuntimeError
  else if length (rdata inputs) mod d =? 0 then Ok (chunks d (rdata inputs))
  else Raise RuntimeError.

Definition rsum (l : list R) : R := fold_right Rplus 0%R l.

Definition sum_sq (x : list R) : R := rsum (map (fun a => a * a)%R x).

Definition dot (x y : list R) : R :=
  rsum (map (fun p : R * R => fst p * snd p)%R (combine x y)).

(** One row of [distances]. *)
Definition distances_row (weight : list (list R)) (x : list R) : list R :=
  map (fun e => sum_sq x + sum_sq e - 2 * dot x e)%R weight.

Fixpoint argmin_from (best_i : nat) (best : R) (i : nat) (l : list R) : nat :=
  match l with
  | [] => best_i
  | x :: xs =>
      if Rltb x best then argmin_from i x (S i) xs
      else argmin_from best_i best (S i) xs
  end.

Definition argmin (l : list R) : result nat :=
  match l with
  | [] => Raise IndexError
  | x :: xs => Ok (argmin_from 0 x 1 xs)
  end.

(** A row of [encodings] after [scatter_]. *)
Definition one_hot (n idx : nat) : list R :=
  map (fun j => if j =? idx then 1%R else 0%R) (seq 0 n).

Definition vadd (x y : list R) : list R :=
  map (fun p : R * R => fst p + snd p)%R (combine x y).

Definition vscale (c : R) (x : list R) : list R := map (fun a => c * a)%R x.

(** [torch.matmul(row, weight)] for a weight of [d] columns. *)
Definition row_matmul (d : nat) (row : list R) (weight : list (list R)) : list R :=
  fold_right vadd (repeat 0%R d)
             (map (fun p : R * list R => vscale (fst p) (snd p)) (combine row weight)).

(** [F.mse_loss(a, b)] on buffers of equal length. *)
Definition mse_loss (a b : list R) : R :=
  (rsum (map (fun p : R * R => (fst p - snd p) * (fst p - snd p)) (combine a b))
   / INR (length a))%R.

Definition vq_forward (self : VectorQuantizer) (inputs : rtensor)
  : result (rtensor * R * list nat) :=
  let input_shape := rshape inputs in
  flat_input <- view_rows (_embedding_dim self) inputs ;;
  let distances := map (distances_row (_embedding_weight self)) flat_input in
  encoding_indices <-
    (if _num_embeddings self =? 0 then Raise IndexError
     else mapM argmin distances) ;;
  let encodings := map (one_hot (_num_embeddings self)) encoding_indices in
  let quantized :=
    concat (map (fun row => row_matmul (_embedding_dim self) row
                              (_embedding_weight self)) encodings) in
  let e_latent_loss := mse_loss quantized (rdata inputs) in
  let q_latent_loss := mse_loss quantized (rdata inputs) in
  let loss := (q_latent_loss + _commitment_cost self * e_latent_loss)%R in
  let quantized :=
    map (fun p : R * R => fst p + (snd p - fst p))%R
        (combine (rdata inputs) quantized) in
  Ok (RTensor input_shape quantized, loss, encoding_indices).

(** Well-formed quantizer ([nn.Embedding(num_embeddings, embedding_dim)])
    and tensor, and the Euclidean distance of two vectors. *)
Definition vq_wf (self : VectorQuantizer) : Prop :=
  length (_embedding_weight self) = _num_embeddings self /\
  Forall (fun e => length e = _embedding_dim self) (_embedding_weight self).


Definition sq_dist (x e : list R) : R :=
  rsum (map (fun p : R * R => (fst p - snd p) * (fst p - snd p))%R (combine x e)).


(* ------------------------------------------------------------------ *)
(** ** Concrete instances used to exercise the statements *)

(** A decoder stack that returns its input embedding and cache. *)
Definition echo_decoder (input_embed memory pos_embed : etensor)
    (mask : list (list bool)) (pre_kv : list etensor)
  : etensor * list etensor :=
  (input_embed, pre_kv).

Definition echo_transformer (pred_eos : bool) : Pix2seqTransformer :=
  {| pred_eos := pred_eos;
     decoder := echo_decoder;
     decoder_num_layers := 1;
     top_p := (9 / 10)%R;
     num_bins := 10%Z;
     num_classes := 2%Z |}.

(** A classifier over a 4-word vocabulary ([num_vocal = 4]) that forces
    the end-of-sequence class (index 2) for each of [bs] samples. *)
Definition eos_classifier (bs : nat) (out_dec : etensor) : sim :=
  Sim 1 bs 4 (concat (repeat [NInf; NInf; Fin 0; NInf] bs)).

(** A classifier that never selects the end-of-sequence class. *)
Definition no_eos_classifier (bs : nat) (out_dec : etensor) : sim :=
  Sim 1 bs 4 (concat (repeat [Fin 0; NInf; NInf; NInf] bs)).

Definition zero_embed (pred_token : list (list Z)) : result etensor :=
  Ok (ETensor [1; length (hd [] pred_token); 1]
              (map (fun _ => Fin 0) (hd [] pred_token))).

Definition first_draw (seq_i : nat) (probabilities : list ereal) : result nat :=
  Ok 0.

Definition empty_tensor : etensor := ETensor [0] [].

(** A one-layer decoder whose layer returns its query, with a regression
    branch that emits four offsets per query. *)
Definition identity_layer (query : tensor3) (reference_points_input : tensor4)
  : tensor3 := query.

Definition one_layer_decoder : DeformableDetrTransformerDecoder :=
  {| layers := [identity_layer]; return_intermediate := true |}.




(** A two-entry codebook in dimension 2 and a [2 x 2] input. *)
Definition small_quantizer : VectorQuantizer :=
  {| _embedding_dim := 2;
     _num_embeddings := 2;
     _embedding_weight := [[0; 0]; [1; 1]]%R;
     _commitment_cost := (1 / 4)%R |}.

Definition small_input : rtensor :=
  RTensor [2; 2] [3 / 4; 1; 0; 1 / 4]%R.

(* ------------------------------------------------------------------ *)
(** ** AdaptivePadding, and the output sizes of PatchEmbed and
    PatchMerging

    Sizes are Python integers.  [None] stands for the
    [ZeroDivisionError] of [input_h / stride_h]. *)

Inductive pad_mode : Type := PadSame | PadCorner.

Record AdaptivePadding : Type := {
  padding : pad_mode;
  kernel_size : Z * Z;
  stride : Z * Z;
  dilation : Z * Z
}.

(** [math.ceil(a / s)] on integers. *)
Definition ceil_div (a s : Z) : Z := (- ((- a) / s))%Z.

Definition pad_extent (input kernel stride dilation : Z) : Z :=
  let output := ceil_div input stride in
  Z.max ((output - 1) * stride + (kernel - 1) * dilation + 1 - input) 0.

Definition get_pad_shape (self : AdaptivePadding) (input_shape : Z * Z)
  : option (Z * Z) :=
  let '(input_h, input_w) := input_shape in
  let '(kernel_h, kernel_w) := kernel_size self in
  let '(stride_h, stride_w) := stride self in
  if (stride_h =? 0)%Z || (stride_w =? 0)%Z then None
  else
    Some (pad_extent input_h kernel_h stride_h (fst (dilation self)),
          pad_extent input_w kernel_w stride_w (snd (dilation self))).

(** A [B x C x H x W] tensor with its three trailing sizes. *)
Record image : Type := Image {
  im_C : nat;
  im_H : nat;
  im_W : nat;
  planes : list (list (list (list R)))
}.

(** [F.pad(x, [left, right, top, bottom])] on one [H x W] plane. *)
Definition pad_plane (W left right top bottom : nat) (plane : list (list R))
  : list (list R) :=
  let blank := repeat 0%R (left + W + right) in
  repeat blank top
  ++ map (fun row => repeat 0%R left ++ row ++ repeat 0%R right) plane
  ++ repeat blank bottom.

Definition pad_image (x : image) (left right top bottom : nat) : image :=
  Image (im_C x) (top + im_H x + bottom) (left + im_W x + right)
        (map (map (pad_plane (im_W x) left right top bottom)) (planes x)).

Definition adaptive_padding_forward (self : AdaptivePadding) (x : image)
  : option image :=
  match get_pad_shape self (Z.of_nat (im_H x), Z.of_nat (im_W x)) with
  | None => None
  | Some (pad_h, pad_w) =>
      if (0 <? pad_h)%Z || (0 <? pad_w)%Z then
        match padding self with
        | PadCorner =>
            Some (pad_image x 0 (Z.to_nat pad_w) 0 (Z.to_nat pad_h))
        | PadSame =>
            Some (pad_image x
                    (Z.to_nat (pad_w / 2)) (Z.to_nat (pad_w - pad_w / 2))
                    (Z.to_nat (pad_h / 2)) (Z.to_nat (pad_h - pad_h / 2)))
        end
      else Some x
  end.








(** Entry [x[b, c, i, j]], and the shape invariant of an [image]. *)
Definition pixel (x : image) (b c i j : nat) : R :=
  nth j (nth i (nth c (nth b (planes x) []) []) []) 0%R.

Definition plane_wf (H W : nat) (plane : list (list R)) : Prop :=
  length plane = H /\ Forall (fun row => length row = W) plane.

Definition image_wf (x : image) : Prop :=
  Forall (fun img => length img = im_C x /\
                     Forall (plane_wf (im_H x) (im_W x)) img)
         (planes x).

(* ------------------------------------------------------------------ *)
(** ** nlc_to_nchw and nchw_to_nlc *)

(** A [B x L x C] tensor with its two trailing sizes. *)
Record nlc : Type := Nlc {
  nlc_L : nat;
  nlc_C : nat;
  tokens : list (list (list R))
}.

Definition nlc_wf (x : nlc) : Prop :=
  Forall (plane_wf (nlc_L x) (nlc_C x)) (tokens x).

(** [m.transpose(0, 1)] of a matrix with [n] columns. *)
Definition columns (n : nat) (m : list (list R)) : list (list R) :=
  map (fun c => map (fun row => nth c row 0%R) m) (seq 0 n).

(** [v.reshape(H, W)] of a vector. *)
Definition reshape_rows (H W : nat) (v : list R) : list (list R) :=
  map (fun i => firstn W (skipn (i * W) v)) (seq 0 H).

Definition nlc_to_nchw (x : nlc) (hw_shape : nat * nat) : result image :=
  let '(H, W) := hw_shape in
  if negb (nlc_L x =? H * W) then Raise AssertionError
  else
    Ok (Image (nlc_C x) H W
          (map (fun t => map (reshape_rows H W) (columns (nlc_C x) t))
               (tokens x))).

Definition nchw_to_nlc (x : image) : nlc :=
  Nlc (im_H x * im_W x) (im_C x)
      (map (fun img => columns (im_H x * im_W x) (map (@concat R) img))
           (planes x)).

(* ------------------------------------------------------------------ *)
(** ** DeformableDetrTransformer: get_valid_ratio, get_reference_points
    and level_start_index *)

Definition emul (a b : ereal) : ereal :=
  match a, b with
  | NaN, _ | _, NaN => NaN
  | Fin x, Fin y => Fin (x * y)
  | Fin x, PInf | PInf, Fin x =>
      if Rltb 0 x then PInf else if Rltb x 0 then NInf else NaN
  | Fin x, NInf | NInf, Fin x =>
      if Rltb 0 x then NInf else if Rltb x 0 then PInf else NaN
  | PInf, PInf | NInf, NInf => PInf
  | PInf, NInf | NInf, PInf => NInf
  end.

(** [get_valid_ratio] of a [N x H x W] mask, every image a row-major
    buffer; the last axis of the result, [(valid_ratio_w,
    valid_ratio_h)], is a pair.  [mask[:, :, 0]] needs a column and
    [mask[:, 0, :]] a row. *)
Definition get_valid_ratio (H W : nat) (mask : list (list bool))
  : result (list (ereal * ereal)) :=
  if (W =? 0) || (H =? 0) then Raise IndexError
  else
    Ok (map (fun m =>
               let valid_ratio_h := ediv (Fin (INR (valid_H H W m))) (Fin (INR H)) in
               let valid_ratio_w := ediv (Fin (INR (valid_W W m))) (Fin (INR W)) in
               (valid_ratio_w, valid_ratio_h))
            mask).

(** [valid_ratios], of shape [(bs, num_levels, 2)]. *)
Record ratios : Type := Ratios {
  num_levels : nat;
  ratio : list (list (ereal * ereal))
}.

Definition ratios_wf (valid_ratios : ratios) : Prop :=
  Forall (fun r => length r = num_levels valid_ratios) (ratio valid_ratios).

(** [torch.linspace(0.5, n - 0.5, n)[i]]. *)
Definition linspace_half (i : nat) : R := (INR i + 5 / 10)%R.

(** [ref] of one level for one image: [(ref_x, ref_y)] per key,
    row-major. *)
Definition image_level_reference (H W : nat) (r : ereal * ereal)
  : list (list ereal) :=
  flat_map (fun h =>
              map (fun w =>
                     [ ediv (Fin (linspace_half w)) (emul (fst r) (Fin (INR W)));
                       ediv (Fin (linspace_half h)) (emul (snd r) (Fin (INR H))) ])
                  (seq 0 W))
           (seq 0 H).

Fixpoint reference_points_loop (valid_ratios : ratios) (lvl : nat)
    (spatial_shapes : list (nat * nat))
  : result (list (list (list (list ereal)))) :=
  match spatial_shapes with
  | [] => Ok []
  | (H, W) :: rest =>
      if num_levels valid_ratios <=? lvl then Raise IndexError
      else
        let ref :=
          map (fun r => image_level_reference H W (nth lvl r (NaN, NaN)))
              (ratio valid_ratios) in
        refs <- reference_points_loop valid_ratios (S lvl) rest ;;
        Ok (ref :: refs)
  end.

(** [reference_points[:, :, None] * valid_ratios[:, None]] for one
    image. *)
Definition scale_by_ratios (refs : list (list ereal)) (r : list (ereal * ereal))
  : list (list (list ereal)) :=
  map (fun ref =>
         map (fun rl => [ emul (nth 0 ref NaN) (fst rl);
                          emul (nth 1 ref NaN) (snd rl) ])
             r)
      refs.

Definition get_reference_points (spatial_shapes : list (nat * nat))
    (valid_ratios : ratios) : result (list (list (list (list ereal)))) :=
  match spatial_shapes with
  | [] => Raise RuntimeError               (* torch.cat of an empty list *)
  | _ =>
      refs <- reference_points_loop valid_ratios 0 spatial_shapes ;;
      let reference_points := cat_dim1 (length (ratio valid_ratios)) refs in
      Ok (zip_with scale_by_ratios reference_points (ratio valid_ratios))
  end.

(** [torch.cat((zeros(1), spatial_shapes.prod(1).cumsum(0)[:-1]))] in
    [DeformableDetrTransformer.forward]. *)
Fixpoint cumsum_nat (acc : nat) (l : list nat) : list nat :=
  match l with
  | [] => []
  | x :: xs => (acc + x) :: cumsum_nat (acc + x) xs
  end.

Definition level_start_index (spatial_shapes : list (nat * nat)) : list nat :=
  0 :: removelast (cumsum_nat 0 (map (fun hw => fst hw * snd hw) spatial_shapes)).

(** The per-image list of level references that [reference_points_loop]
    and [torch.cat] lay out. *)
Fixpoint reference_blocks (r : list (ereal * ereal)) (lvl : nat)
    (spatial_shapes : list (nat * nat)) : list (list (list ereal)) :=
  match spatial_shapes with
  | [] => []
  | (H, W) :: rest =>
      image_level_reference H W (nth lvl r (NaN, NaN))
      :: reference_blocks r (S lvl) rest
  end.

(** The outputs of the layers of [DeformableDetrTransformerDecoder] when
    every layer is given the same [reference_points_input]. *)
Fixpoint layer_outputs (rpi : tensor4) (out : tensor3)
    (ls : list (tensor3 -> tensor4 -> tensor3)) : list tensor3 :=
  match ls with
  | [] => []
  | layer :: ls' =>
      let out' := permute102 (permute102 (layer out rpi)) in
      out' :: layer_outputs rpi out' ls'
  end.



(* ------------------------------------------------------------------ *)
(** ** Pix2seqTransformerDecoder.forward

    A layer maps [output], [memory], [memory_key_padding_mask],
    [key_pos], [attn_masks] and [pre_kv] to the new output and the
    key/value cache of its self-attention. *)

Module Pix2seqDecoder.

Definition layer : Type :=
  etensor -> etensor -> list (list bool) -> etensor -> option etensor ->
  etensor -> etensor * etensor.

Record Pix2seqTransformerDecoder : Type := {
  layers : list layer;
  post_norm : option (etensor -> etensor)
}.

(** [for layer, pre_kv in zip(self.layers, pre_kv_list)]. *)
Fixpoint layers_loop (memory : etensor) (memory_key_padding_mask : list (list bool))
    (pos : etensor) (self_attn_mask : option etensor)
    (zipped : list (layer * etensor)) (output : etensor)
    (cur_kv_list : list etensor) : etensor * list etensor :=
  match zipped with
  | [] => (output, cur_kv_list)
  | (l, pre_kv) :: rest =>
      let '(output', cur_kv) :=
        l output memory memory_key_padding_mask pos self_attn_mask pre_kv in
      layers_loop memory memory_key_padding_mask pos self_attn_mask rest
                  output' (cur_kv_list ++ [cur_kv])
  end.

Definition forward (self : Pix2seqTransformerDecoder)
    (tgt memory : etensor) (memory_key_padding_mask : list (list bool))
    (pos : etensor) (pre_kv_list : list etensor)
    (self_attn_mask : option etensor) : etensor * list etensor :=
  let '(output, cur_kv_list) :=
    layers_loop memory memory_key_padding_mask pos self_attn_mask
                (combine (layers self) pre_kv_list) tgt [] in
  let output := match post_norm self with
                | Some norm => norm output
                | None => output
                end in
  (output, cur_kv_list).

(** The call of [self.decoder] in the evaluation loop of
    [Pix2seqTransformer.forward]. *)
Definition as_decoder (self : Pix2seqTransformerDecoder)
    (input_embed memory pos_embed : etensor) (mask : list (list bool))
    (pre_kv : list etensor) : etensor * list etensor :=
  forward self input_embed memory mask pos_embed pre_kv None.

End Pix2seqDecoder.

(* ------------------------------------------------------------------ *)
(** ** DeformableDetrTransformer.get_proposal_pos_embed

    [temperature] is taken positive, as its default 10000 is. *)

Definition esigmoid (x : ereal) : ereal :=
  match x with
  | Fin r => Fin (sigmoid r)
  | PInf => Fin 1
  | NInf => Fin 0
  | NaN => NaN
  end.

Definition esin (x : ereal) : ereal :=
  match x with
  | Fin r => Fin (sin r)
  | _ => NaN
  end.

Definition ecos (x : ereal) : ereal :=
  match x with
  | Fin r => Fin (cos r)
  | _ => NaN
  end.

(** [temperature ** (2 * (dim_t // 2) / num_pos_feats)] at index [i]. *)
Definition dim_t (num_pos_feats : nat) (temperature : R) (i : nat) : R :=
  Rpower temperature (2 * INR (i / 2) / INR num_pos_feats).

(** [pos[n, l, c, i]] for the proposal coordinate [p]. *)
Definition pos_entry (num_pos_feats : nat) (temperature : R) (p : ereal)
    (i : nat) : ereal :=
  let scale := (2 * PI)%R in
  ediv (emul (esigmoid p) (Fin scale)) (Fin (dim_t num_pos_feats temperature i)).

(** The stacked sines of the even entries and cosines of the odd
    entries of one coordinate, flattened. *)
Definition coord_embed (num_pos_feats : nat) (temperature : R) (p : ereal)
  : list ereal :=
  flat_map (fun j => [ esin (pos_entry num_pos_feats temperature p (2 * j));
                       ecos (pos_entry num_pos_feats temperature p (2 * j + 1)) ])
           (seq 0 (num_pos_feats / 2)).

(** [torch.stack] needs as many even as odd entries. *)
Definition get_proposal_pos_embed (proposals : etensor3)
    (num_pos_feats : nat) (temperature : R) : result etensor3 :=
  if Nat.even num_pos_feats then
    Ok (map (map (flat_map (coord_embed num_pos_feats temperature))) proposals)
  else Raise RuntimeError.

(* ================================================================== *)
(** * Properties *)

Unset Implicit Arguments.

(* ------------------------------------------------------------------ *)
(** ** Comparisons on reals *)

Lemma Rltb_true (a b : R) : (a < b)%R -> Rltb a b = true.
Proof. intros H; unfold Rltb; destruct (Rlt_dec a b); [reflexivity | contradiction]. Qed.

Lemma Rltb_false (a b : R) : (b <= a)%R -> Rltb a b = false.
Proof. intros H; unfold Rltb; destruct (Rlt_dec a b); [lra | reflexivity]. Qed.

Lemma Rltb_spec (a b : R) : Rltb a b = true <-> (a < b)%R.
Proof.
  unfold Rltb; destruct (Rlt_dec a b); split; intros; try easy.
Qed.

Lemma Rltb_irrefl (a : R) : Rltb a a = false.
Proof. apply Rltb_false; lra. Qed.

Ltac rmaxmin :=
  unfold clamp, clamp_min, Rmax, Rmin in *;
  repeat match goal with
         | |- context [Rle_dec ?a ?b] => destruct (Rle_dec a b)
         | H : context [Rle_dec ?a ?b] |- _ => destruct (Rle_dec a b)
         end.

(* ------------------------------------------------------------------ *)
(** ** inverse_sigmoid *)

Lemma clamp01_range (x : R) : (0 <= clamp 0 1 x <= 1)%R.
Proof. rmaxmin; lra. Qed.

Lemma inverse_sigmoid_x1_ge (x eps : R) : (eps <= inverse_sigmoid_x1 x eps)%R.
Proof. unfold inverse_sigmoid_x1; rmaxmin; lra. Qed.

Lemma inverse_sigmoid_x2_ge (x eps : R) : (eps <= inverse_sigmoid_x2 x eps)%R.
Proof. unfold inverse_sigmoid_x2; rmaxmin; lra. Qed.

Lemma inverse_sigmoid_x2_le_1 (x eps : R) :
  (eps <= 1)%R -> (inverse_sigmoid_x2 x eps <= 1)%R.
Proof. unfold inverse_sigmoid_x2; rmaxmin; lra. Qed.

Lemma sigmoid_pos_lt_1 (x : R) : (0 < sigmoid x < 1)%R.
Proof.
  unfold sigmoid.
  pose proof (exp_pos (- x)) as He.
  split.
  - apply Rdiv_lt_0_compat; lra.
  - apply (Rmult_lt_reg_r (1 + exp (- x))); [lra |].
    unfold Rdiv; rewrite Rmult_assoc, Rinv_l; lra.
Qed.


(** C5 fails as stated for [eps > 1]: with [x = 1/2] and [eps = 2] both
    clamped operands are 2, so the logarithm is applied to 1, which is
    below [eps]. *)
Lemma inverse_sigmoid_log_argument_below_eps :
  (0 < 2)%R /\
  inverse_sigmoid_x1 (1 / 2) 2 = 2%R /\
  inverse_sigmoid_x2 (1 / 2) 2 = 2%R /\
  ~ (2 <= inverse_sigmoid_x1 (1 / 2) 2 / inverse_sigmoid_x2 (1 / 2) 2)%R.
Proof.
  assert (H1 : inverse_sigmoid_x1 (1 / 2) 2 = 2%R)
    by (unfold inverse_sigmoid_x1; rmaxmin; lra).
  assert (H2 : inverse_sigmoid_x2 (1 / 2) 2 = 2%R)
    by (unfold inverse_sigmoid_x2; rmaxmin; lra).
  repeat split; try assumption; try lra.
  rewrite H1, H2. intros H.
  replace (2 / 2)%R with 1%R in H by field. lra.
Qed.

(** C5 (amended): for every real [x] and every [eps > 0],
    [inverse_sigmoid] clamps [x] into [0,1], both operands of the
    division are at least [eps], the divisor is not zero, the logarithm
    is applied to a positive quotient (so the result is a genuine
    logarithm), and that quotient is at least [eps] whenever
    [eps <= 1]. *)
Theorem inverse_sigmoid_operands_clamped (x eps : R) :
  (0 < eps)%R ->
  (0 <= clamp 0 1 x <= 1)%R /\
  (eps <= inverse_sigmoid_x1 x eps)%R /\
  (eps <= inverse_sigmoid_x2 x eps)%R /\
  inverse_sigmoid_x2 x eps <> 0%R /\
  (0 < inverse_sigmoid_x1 x eps / inverse_sigmoid_x2 x eps)%R /\
  exp (inverse_sigmoid x eps)
    = (inverse_sigmoid_x1 x eps / inverse_sigmoid_x2 x eps)%R /\
  ((eps <= 1)%R ->
   (eps <= inverse_sigmoid_x1 x eps / inverse_sigmoid_x2 x eps)%R).
Proof.
  intros Heps.
  pose proof (inverse_sigmoid_x1_ge x eps) as H1.
  pose proof (inverse_sigmoid_x2_ge x eps) as H2.
  assert (Hq : (0 < inverse_sigmoid_x1 x eps / inverse_sigmoid_x2 x eps)%R)
    by (apply Rdiv_lt_0_compat; lra).
  repeat split; try lra.
  - apply clamp01_range.
  - apply clamp01_range.
  - unfold inverse_sigmoid; cbv zeta. apply exp_ln; exact Hq.
  - intros Hle.
    pose proof (inverse_sigmoid_x2_le_1 x eps Hle) as H3.
    set (a := inverse_sigmoid_x1 x eps) in *.
    set (b := inverse_sigmoid_x2 x eps) in *.
    assert (Hab : (a / b * b = a)%R) by (field; lra).
    nra.
Qed.

Lemma inverse_sigmoid_operands_clamped_witness :
  (0 <= clamp 0 1 3 <= 1)%R /\
  (default_eps <= inverse_sigmoid_x1 3 default_eps)%R /\
  (default_eps <= inverse_sigmoid_x2 3 default_eps)%R /\
  inverse_sigmoid_x2 3 default_eps <> 0%R /\
  (0 < inverse_sigmoid_x1 3 default_eps / inverse_sigmoid_x2 3 default_eps)%R /\
  exp (inverse_sigmoid 3 default_eps)
    = (inverse_sigmoid_x1 3 default_eps / inverse_sigmoid_x2 3 default_eps)%R /\
  ((default_eps <= 1)%R ->
   (default_eps <= inverse_sigmoid_x1 3 default_eps / inverse_sigmoid_x2 3 default_eps)%R).
Proof.
  apply (inverse_sigmoid_operands_clamped 3 default_eps).
  unfold default_eps; lra.
Defined.




(* ------------------------------------------------------------------ *)
(** ** The result monad and broadcasting *)

Lemma mapM_total {A B : Type} (f : A -> result B) (g : A -> B) (l : list A) :
  (forall x, In x l -> f x = Ok (g x)) -> mapM f l = Ok (map g l).
Proof.
  induction l as [| x xs IH]; intros H; simpl; [reflexivity |].
  rewrite (H x) by (left; reflexivity). simpl.
  rewrite IH by (intros y Hy; apply H; right; exact Hy). reflexivity.
Qed.

Lemma mapM_Forall2 {A B : Type} (f : A -> result B) (l : list A) (l' : list B) :
  mapM f l = Ok l' -> Forall2 (fun x y => f x = Ok y) l l'.
Proof.
  revert l'; induction l as [| x xs IH]; intros l' H; simpl in H.
  - inversion H; constructor.
  - destruct (f x) as [y |] eqn:Hy; simpl in H; [| discriminate].
    destruct (mapM f xs) as [ys |] eqn:Hys; simpl in H; [| discriminate].
    inversion H; subst. constructor; [exact Hy | apply IH; reflexivity].
Qed.

Lemma mapM_length {A B : Type} (f : A -> result B) (l : list A) (l' : list B) :
  mapM f l = Ok l' -> length l' = length l.
Proof.
  intros H. apply mapM_Forall2 in H.
  symmetry. eapply Forall2_length; exact H.
Qed.

Lemma broadcast2_same_length {A B C : Type} (f : A -> B -> result C)
    (xs : list A) (ys : list B) :
  length xs = length ys ->
  broadcast2 f xs ys = mapM (fun p => f (fst p) (snd p)) (combine xs ys).
Proof.
  intros H. unfold broadcast2. rewrite H, Nat.eqb_refl. reflexivity.
Qed.

Lemma broadcast_into_same_length {A B C : Type} (f : A -> B -> result C)
    (xs : list A) (ys : list B) :
  length xs = length ys ->
  broadcast_into f xs ys = mapM (fun p => f (fst p) (snd p)) (combine xs ys).
Proof.
  intros H. unfold broadcast_into. rewrite H, Nat.eqb_refl. reflexivity.
Qed.

Lemma list_set_length {A : Type} (l : list A) (i : nat) (v : A) :
  length (list_set l i v) = length l.
Proof.
  revert i; induction l as [| x xs IH]; intros [| i]; simpl; auto.
Qed.

Lemma list_set_nth_other {A : Type} (l : list A) (i j : nat) (v d : A) :
  i <> j -> nth j (list_set l i v) d = nth j l d.
Proof.
  revert i j; induction l as [| x xs IH]; intros [| i] [| j] H; simpl; auto.
  - congruence.
Qed.

(* ------------------------------------------------------------------ *)
(** ** top_k_top_p_filtering *)

Lemma etensor_eta (t : etensor) : ETensor (shape t) (data t) = t.
Proof. destruct t; reflexivity. Qed.

(** C7: with [top_k=0] and [top_p=0.0] a 1-D logits tensor is returned
    unchanged, whatever the filter value. *)
Theorem top_k_top_p_filtering_defaults_noop (logits : etensor) (filter_value : ereal) :
  dim logits = 1 ->
  top_k_top_p_filtering logits default_top_k default_top_p filter_value
    = Ok logits.
Proof.
  intros Hdim. unfold top_k_top_p_filtering, default_top_k, default_top_p.
  rewrite Hdim. simpl Nat.eqb. cbv iota.
  assert (Hk : (0 <? Z.min 0 (Z.of_nat (last (shape logits) 0%nat)))%Z = false).
  { apply Z.ltb_ge. apply Z.le_min_l. }
  cbv zeta. rewrite Hk, Rltb_irrefl. simpl. rewrite etensor_eta. reflexivity.
Qed.

Lemma top_k_top_p_filtering_defaults_noop_witness :
  top_k_top_p_filtering (ETensor [3] [Fin 1; NInf; Fin 2])
    default_top_k default_top_p default_filter_value
  = Ok (ETensor [3] [Fin 1; NInf; Fin 2]).
Proof.
  apply (top_k_top_p_filtering_defaults_noop
           (ETensor [3] [Fin 1; NInf; Fin 2]) default_filter_value).
  reflexivity.
Defined.

(** *** The order used by [sort] *)

Lemma sort_ltb_neg_trans (x h y : ereal) :
  sort_ltb x h = false -> sort_ltb h y = false -> sort_ltb x y = false.
Proof.
  destruct x as [a | | |], h as [b | | |], y as [c | | |]; simpl;
    try reflexivity; try discriminate; unfold Rltb;
    repeat match goal with
           | |- context [Rlt_dec ?u ?v] => destruct (Rlt_dec u v)
           end; try reflexivity; try discriminate; intros; lra.
Qed.

Lemma insert_desc_perm (x : nat * ereal) (l : list (nat * ereal)) :
  Permutation (insert_desc x l) (x :: l).
Proof.
  induction l as [| y ys IH]; simpl; [apply Permutation_refl |].
  destruct (sort_ltb (snd x) (snd y)).
  - eapply perm_trans; [apply perm_skip; exact IH | apply perm_swap].
  - apply Permutation_refl.
Qed.

Lemma sort_desc_perm (l : list ereal) : Permutation (sort_desc l) (indexed l).
Proof.
  unfold sort_desc. induction (indexed l) as [| x xs IH]; simpl.
  - apply Permutation_refl.
  - eapply perm_trans; [apply insert_desc_perm | apply perm_skip; exact IH].
Qed.

Lemma indexed_fst {A : Type} (l : list A) :
  map fst (indexed l) = seq 0 (length l).
Proof.
  unfold indexed. generalize 0. induction l as [| x xs IH]; intros n; simpl.
  - reflexivity.
  - f_equal. apply IH.
Qed.

Lemma indexed_in {A : Type} (l : list A) (i : nat) (v d : A) :
  In (i, v) (indexed l) -> i < length l /\ nth i l d = v.
Proof.
  unfold indexed.
  assert (G : forall n, In (i, v) (combine (seq n (length l)) l) ->
                        n <= i /\ i - n < length l /\ nth (i - n) l d = v).
  { induction l as [| x xs IH]; intros n H; simpl in H; [contradiction |].
    destruct H as [H | H].
    - inversion H; subst. rewrite Nat.sub_diag. simpl. repeat split; lia.
    - apply IH in H. destruct H as (H1 & H2 & H3).
      replace (i - n) with (S (i - S n)) by lia. simpl. repeat split; try lia.
      exact H3. }
  intros H. apply G in H. rewrite Nat.sub_0_r in H. tauto.
Qed.

Lemma indexed_nth {A : Type} (l : list A) (j : nat) (d : A) :
  j < length l -> In (j, nth j l d) (indexed l).
Proof.
  unfold indexed.
  assert (G : forall n, j < length l ->
                        In (n + j, nth j l d) (combine (seq n (length l)) l)).
  { revert j. induction l as [| y ys IH]; intros j n Hj; simpl in *; [lia |].
    destruct j as [| j].
    - left. f_equal. lia.
    - right. replace (n + S j) with (S n + j) by lia. apply IH. lia. }
  intros Hj. apply (G 0 Hj).
Qed.

Lemma sort_desc_indices_nodup (l : list ereal) :
  NoDup (map fst (sort_desc l)).
Proof.
  eapply Permutation_NoDup.
  - apply Permutation_sym. apply Permutation_map. apply sort_desc_perm.
  - rewrite indexed_fst. apply seq_NoDup.
Qed.

Lemma sort_desc_length (l : list ereal) : length (sort_desc l) = length l.
Proof.
  rewrite (Permutation_length (sort_desc_perm l)).
  unfold indexed. rewrite length_combine, length_seq. lia.
Qed.

Lemma sort_ltb_irrefl (x : ereal) : sort_ltb x x = false.
Proof. destruct x; simpl; try reflexivity. apply Rltb_irrefl. Qed.

Lemma sort_ltb_asym (x y : ereal) : sort_ltb x y = true -> sort_ltb y x = false.
Proof.
  destruct x as [a | | |], y as [b | | |]; simpl; try reflexivity;
    try discriminate.
  intros H. apply Rltb_spec in H. apply Rltb_false. lra.
Qed.

Lemma insert_desc_head (x : nat * ereal) (l : list (nat * ereal)) :
  head_is_greatest l -> head_is_greatest (insert_desc x l).
Proof.
  destruct l as [| h t]; simpl.
  - intros _ y [Hy | []]; subst. apply sort_ltb_irrefl.
  - intros Hh. destruct (sort_ltb (snd x) (snd h)) eqn:Hc; simpl.
    + intros y [Hy | Hy].
      * subst. apply sort_ltb_irrefl.
      * apply (Permutation_in _ (insert_desc_perm x t)) in Hy.
        destruct Hy as [Hy | Hy].
        -- subst. apply sort_ltb_asym. exact Hc.
        -- apply Hh. right. exact Hy.
    + intros y [Hy | Hy].
      * subst. apply sort_ltb_irrefl.
      * apply (sort_ltb_neg_trans _ (snd h)); [exact Hc |].
        apply Hh. exact Hy.
Qed.

Lemma sort_desc_head (l : list ereal) : head_is_greatest (sort_desc l).
Proof.
  unfold sort_desc. induction (indexed l) as [| x xs IH]; simpl.
  - exact I.
  - apply insert_desc_head. exact IH.
Qed.

(** *** The nucleus branch *)

Lemma assign_indices_length (l : list ereal) (idx : list nat) (v : ereal) :
  length (assign_indices l idx v) = length l.
Proof.
  unfold assign_indices. revert l.
  induction idx as [| i idx' IH]; intros l; simpl; [reflexivity |].
  rewrite IH. apply list_set_length.
Qed.

Lemma assign_indices_nth_other (l : list ereal) (idx : list nat) (v d : ereal)
    (j : nat) :
  ~ In j idx -> nth j (assign_indices l idx v) d = nth j l d.
Proof.
  unfold assign_indices. revert l.
  induction idx as [| i idx' IH]; intros l Hj; simpl; [reflexivity |].
  rewrite IH by (intros H; apply Hj; right; exact H).
  apply list_set_nth_other. intros H; apply Hj; left; exact H.
Qed.

Lemma sorted_indices_to_remove_head (sorted_logits : list ereal) (top_p : R) :
  sorted_logits <> [] ->
  exists rest, sorted_indices_to_remove sorted_logits top_p = Ok (false :: rest).
Proof.
  intros Hne. destruct sorted_logits as [| x xs]; [congruence |].
  unfold sorted_indices_to_remove, cumsum, softmax. simpl.
  eexists. reflexivity.
Qed.

Lemma selected_indices_subset (idx : list nat) (remove : list bool) (i : nat) :
  In i (map fst (filter snd (combine idx remove))) -> In i idx.
Proof.
  intros H. apply in_map_iff in H. destruct H as [[j b] [Hj Hin]].
  simpl in Hj; subst j. apply filter_In in Hin. destruct Hin as [Hin _].
  eapply in_combine_l; exact Hin.
Qed.

(** On an empty logits tensor the reset of entry 0 is out of range. *)
Lemma top_p_branch_empty (top_p : R) (filter_value : ereal) :
  top_p_branch [] top_p filter_value = Raise IndexError.
Proof. reflexivity. Qed.

(** C8: on a non-empty 1-D logits tensor and for every [top_p > 0], the
    nucleus branch succeeds and leaves untouched the position that comes
    first in the descending sort, which holds a largest logit. *)
Theorem nucleus_branch_keeps_top1 (logits : list ereal) (top_p : R)
    (filter_value : ereal) :
  logits <> [] ->
  (0 < top_p)%R ->
  exists (out : list ereal) (i0 : nat) (v0 : ereal) (rest : list (nat * ereal)),
    sort_desc logits = (i0, v0) :: rest /\
    top_p_branch logits top_p filter_value = Ok out /\
    top_k_top_p_filtering (ETensor [length logits] logits) default_top_k top_p
      filter_value = Ok (ETensor [length logits] out) /\
    length out = length logits /\
    i0 < length logits /\
    nth i0 logits NaN = v0 /\
    (forall x, In x logits -> sort_ltb v0 x = false) /\
    nth i0 out NaN = nth i0 logits NaN.
Proof.
  intros Hne Hp.
  pose proof (sort_desc_length logits) as Hlen.
  pose proof (sort_desc_indices_nodup logits) as Hnd.
  pose proof (sort_desc_head logits) as Hhead.
  pose proof (sort_desc_perm logits) as Hperm.
  destruct (sort_desc logits) as [| [i0 v0] rest] eqn:Hs.
  { destruct logits; [congruence | simpl in Hlen; discriminate]. }
  destruct (sorted_indices_to_remove_head (map snd ((i0, v0) :: rest)) top_p)
    as [r Hr]; [simpl; discriminate |].
  set (idx := map fst (filter snd (combine (map fst ((i0, v0) :: rest)) (false :: r)))).
  assert (Hbranch : top_p_branch logits top_p filter_value
                    = Ok (assign_indices logits idx filter_value)).
  { unfold top_p_branch. cbv zeta. rewrite Hs, Hr. reflexivity. }
  assert (Hnotin : ~ In i0 idx).
  { unfold idx. simpl. intros Hin. apply selected_indices_subset in Hin.
    simpl in Hnd. inversion Hnd; subst. contradiction. }
  assert (Hin0 : In (i0, v0) (indexed logits)).
  { apply (Permutation_in _ Hperm). left; reflexivity. }
  destruct (indexed_in logits i0 v0 NaN Hin0) as [Hi0 Hv0].
  exists (assign_indices logits idx filter_value), i0, v0, rest.
  repeat split.
  - exact Hbranch.
  - unfold top_k_top_p_filtering, default_top_k. simpl dim. simpl Nat.eqb.
    cbv iota zeta. simpl shape. simpl data.
    assert (Hk : (0 <? Z.min 0 (Z.of_nat (last [length logits] 0%nat)))%Z = false).
    { apply Z.ltb_ge. apply Z.le_min_l. }
    rewrite Hk, (Rltb_true _ _ Hp), Hbranch. reflexivity.
  - apply assign_indices_length.
  - exact Hi0.
  - exact Hv0.
  - intros x Hx. destruct (In_nth _ _ NaN Hx) as [j [Hj Hjx]].
    assert (Hjin : In (j, x) (indexed logits))
      by (subst x; apply indexed_nth; exact Hj).
    apply (Permutation_in _ (Permutation_sym Hperm)) in Hjin.
    apply (Hhead (j, x) Hjin).
  - apply assign_indices_nth_other. exact Hnotin.
Qed.

Lemma nucleus_branch_keeps_top1_witness :
  exists (out : list ereal) (i0 : nat) (v0 : ereal) (rest : list (nat * ereal)),
    sort_desc [Fin 1; Fin 3; NInf] = (i0, v0) :: rest /\
    top_p_branch [Fin 1; Fin 3; NInf] (9 / 10) NInf = Ok out /\
    top_k_top_p_filtering (ETensor [length [Fin 1; Fin 3; NInf]] [Fin 1; Fin 3; NInf])
      default_top_k (9 / 10) NInf
      = Ok (ETensor [length [Fin 1; Fin 3; NInf]] out) /\
    length out = length [Fin 1; Fin 3; NInf] /\
    i0 < length [Fin 1; Fin 3; NInf] /\
    nth i0 [Fin 1; Fin 3; NInf] NaN = v0 /\
    (forall x, In x [Fin 1; Fin 3; NInf] -> sort_ltb v0 x = false) /\
    nth i0 out NaN = nth i0 [Fin 1; Fin 3; NInf] NaN.
Proof.
  apply (nucleus_branch_keeps_top1 [Fin 1; Fin 3; NInf] (9 / 10) NInf).
  - discriminate.
  - lra.
Defined.

(** *** The assertion on the number of dimensions *)

Lemma top_k_top_p_filtering_asserts (logits : etensor) (top_k : Z) (top_p : R)
    (filter_value : ereal) :
  dim logits <> 1 ->
  top_k_top_p_filtering logits top_k top_p filter_value = Raise AssertionError.
Proof.
  intros H. unfold top_k_top_p_filtering.
  apply Nat.eqb_neq in H. rewrite H. reflexivity.
Qed.

Lemma nucleus_step_asserts (self : Pix2seqTransformer)
    (multinomial : nat -> list ereal -> result nat) (seq_i : nat) (s : sim) :
  dim (squeeze (sim_tensor s)) <> 1 ->
  nucleus_step self multinomial seq_i s = Raise AssertionError.
Proof.
  intros H. unfold nucleus_step.
  rewrite top_k_top_p_filtering_asserts by exact H. reflexivity.
Qed.

Lemma eos_update_stop (num_vocal : Z) (seq_i : nat) (s : sim)
    (e : list bool) (el : list nat) (stop : bool) (e' : list bool)
    (el' : list nat) :
  eos_update num_vocal seq_i s e el = Ok (stop, e', el') ->
  stop = forallb (fun b => b) e' && (4 <? seq_i).
Proof.
  unfold eos_update. intros H.
  destruct (stop_state num_vocal s); simpl in H; [| discriminate].
  destruct (broadcast2 _ e a); simpl in H; [| discriminate].
  destruct (broadcast_into _ el a0); simpl in H; [| discriminate].
  destruct (broadcast2 _ a e); simpl in H; [| discriminate].
  inversion H; reflexivity.
Qed.

Lemma squeeze_1d_batch_1 (s : sim) :
  2 <= sim_V s ->
  dim (squeeze (sim_tensor s)) = 1 -> sim_N s = 1 /\ sim_B s = 1.
Proof.
  intros HV. unfold dim, squeeze, sim_tensor. simpl.
  destruct (Nat.eqb_spec (sim_N s) 1) as [HN | HN];
    destruct (Nat.eqb_spec (sim_B s) 1) as [HB | HB];
    destruct (Nat.eqb_spec (sim_V s) 1) as [HV1 | HV1];
    simpl; intros H; try lia.
Qed.

Lemma decode_step_nucleus_needs_1d (self : Pix2seqTransformer)
    (memory pos_embed : etensor) (mask : list (list bool))
    (vocal_embed : list (list Z) -> result etensor)
    (vocal_classifier : etensor -> sim) (num_vocal : Z)
    (multinomial : nat -> list ereal -> result nat)
    (seq_i : nat) (st : decode_state) (r : flow * decode_state) :
  seq_i <= 4 ->
  decode_step self memory pos_embed mask vocal_embed vocal_classifier
    num_vocal true multinomial seq_i st = Ok r ->
  dim (squeeze (sim_tensor
         (similarity_of self memory pos_embed mask vocal_classifier st))) = 1.
Proof.
  intros Hi H. unfold decode_step, similarity_of in *.
  destruct (decoder self (input_embed st) memory pos_embed mask (pre_kv st))
    as [out_dec kv]. simpl fst.
  destruct (Nat.eq_dec (dim (squeeze (sim_tensor (vocal_classifier out_dec)))) 1)
    as [Hd | Hd]; [exact Hd | exfalso].
  assert (Hstop : forall stop e' el',
             (if pred_eos self
              then eos_update num_vocal seq_i (vocal_classifier out_dec)
                     (end_ st) (end_lens st)
              else Ok (false, end_ st, end_lens st)) = Ok (stop, e', el') ->
             stop = false).
  { intros stop e' el' Hs. destruct (pred_eos self).
    - apply eos_update_stop in Hs. subst stop.
      replace (4 <? seq_i) with false by (symmetry; apply Nat.ltb_ge; lia).
      apply andb_false_r.
    - inversion Hs; reflexivity. }
  destruct (if pred_eos self then _ else _) as [[[stop e'] el'] |] eqn:Hs;
    simpl in H; [| discriminate].
  rewrite (Hstop _ _ _ eq_refl) in H.
  rewrite nucleus_step_asserts in H by exact Hd. simpl in H. discriminate.
Qed.

(** C9: [top_k_top_p_filtering] raises [AssertionError] on every tensor
    whose number of dimensions is not 1; hence the nucleus branch raises
    it whenever the squeezed similarity is not 1-D, the evaluation
    branch of [forward] with [nucleus_sampling] cannot return in that
    case, and with at least two vocabulary entries a 1-D squeezed
    similarity means a single query and a batch of one sample. *)
Theorem nucleus_path_requires_1d
    (logits : etensor) (top_k : Z) (top_p0 : R) (filter_value : ereal)
    (self : Pix2seqTransformer) (bs : nat)
    (memory pos_embed : etensor) (mask : list (list bool))
    (det_embed_weight : list (list ereal))
    (vocal_embed : list (list Z) -> result etensor)
    (vocal_classifier : etensor -> sim) (num_vocal : Z)
    (multinomial : nat -> list ereal -> result nat)
    (seq_i : nat) (s : sim) :
  (dim logits <> 1 ->
   top_k_top_p_filtering logits top_k top_p0 filter_value
     = Raise AssertionError) /\
  (dim (squeeze (sim_tensor s)) <> 1 ->
   nucleus_step self multinomial seq_i s = Raise AssertionError) /\
  (dim (squeeze (sim_tensor
          (similarity_of self memory pos_embed mask vocal_classifier
             (initial_state self bs det_embed_weight)))) <> 1 ->
   forall r,
     forward_eval self bs memory pos_embed mask det_embed_weight vocal_embed
       vocal_classifier num_vocal true multinomial <> Ok r) /\
  (2 <= sim_V s -> sim_N s <> 1 \/ sim_B s <> 1 ->
   dim (squeeze (sim_tensor s)) <> 1).
Proof.
  repeat split.
  - apply top_k_top_p_filtering_asserts.
  - apply nucleus_step_asserts.
  - intros Hd r Hr. apply Hd. clear Hd.
    unfold forward_eval, decode, max_len in Hr.
    change (seq 0 500) with (0 :: seq 1 499) in Hr.
    simpl decode_loop in Hr.
    destruct (decode_step self memory pos_embed mask vocal_embed
                vocal_classifier num_vocal true multinomial 0
                (initial_state self bs det_embed_weight)) as [r0 |] eqn:Hstep;
      [| simpl in Hr; discriminate].
    eapply decode_step_nucleus_needs_1d; [| exact Hstep]. lia.
  - intros HV Hor Hd. apply squeeze_1d_batch_1 in Hd; [| exact HV]. lia.
Qed.

Lemma nucleus_path_requires_1d_witness :
  top_k_top_p_filtering (ETensor [2; 4] (sim_data (eos_classifier 2 empty_tensor)))
    default_top_k (9 / 10) NInf = Raise AssertionError /\
  nucleus_step (echo_transformer true) first_draw 0
    (eos_classifier 2 empty_tensor) = Raise AssertionError /\
  (forall r,
     forward_eval (echo_transformer true) 2 empty_tensor empty_tensor []
       [[Fin 0]] zero_embed (eos_classifier 2) 4 true first_draw <> Ok r) /\
  dim (squeeze (sim_tensor (eos_classifier 2 empty_tensor))) <> 1.
Proof.
  destruct (nucleus_path_requires_1d
              (ETensor [2; 4] (sim_data (eos_classifier 2 empty_tensor)))
              default_top_k (9 / 10) NInf
              (echo_transformer true) 2 empty_tensor empty_tensor []
              [[Fin 0]] zero_embed (eos_classifier 2) 4 first_draw 0
              (eos_classifier 2 empty_tensor)) as (H1 & H2 & H3 & H4).
  split; [| split; [| split]].
  - apply H1. unfold dim; simpl; lia.
  - apply H2. unfold dim, squeeze; simpl; lia.
  - apply H3. unfold dim, squeeze, similarity_of; simpl; lia.
  - apply H4; simpl; lia.
Defined.

(* ------------------------------------------------------------------ *)
(** ** The decoding loop of Pix2seqTransformer.forward *)

Lemma nth_map_combine {A B C : Type} (f : A * B -> C) (l1 : list A) (l2 : list B)
    (n : nat) (d : C) (d1 : A) (d2 : B) :
  n < length l1 -> length l1 = length l2 ->
  nth n (map f (combine l1 l2)) d = f (nth n l1 d1, nth n l2 d2).
Proof.
  intros Hn Hlen.
  rewrite (nth_indep _ d (f (d1, d2)))
    by (rewrite length_map, length_combine; lia).
  rewrite map_nth, combine_nth by exact Hlen. reflexivity.
Qed.

Lemma find_none_existsb {A : Type} (f : A -> bool) (l : list A) :
  find f l = None <-> existsb f l = false.
Proof.
  induction l as [| x xs IH]; simpl; [tauto |].
  destruct (f x); simpl; [split; discriminate | exact IH].
Qed.

Lemma find_app {A : Type} (f : A -> bool) (l1 l2 : list A) :
  find f (l1 ++ l2) = match find f l1 with Some x => Some x | None => find f l2 end.
Proof.
  induction l1 as [| x xs IH]; simpl; [reflexivity |].
  destruct (f x); [reflexivity | exact IH].
Qed.

Lemma first_eos_S (emits : nat -> bool) (k : nat) :
  first_eos emits (S k) =
  if existsb emits (seq 0 k) then first_eos emits k
  else if emits k then k else 0.
Proof.
  unfold first_eos. rewrite seq_S, find_app. simpl.
  destruct (find emits (seq 0 k)) as [i |] eqn:Hf.
  - destruct (existsb emits (seq 0 k)) eqn:He; [reflexivity |].
    apply find_none_existsb in He. congruence.
  - apply find_none_existsb in Hf. rewrite Hf.
    destruct (emits k); reflexivity.
Qed.

Lemma first_eos_never (emits : nat -> bool) (k : nat) :
  (forall i, i < k -> emits i = false) -> first_eos emits k = 0.
Proof.
  intros H. unfold first_eos.
  destruct (find emits (seq 0 k)) as [i |] eqn:Hf; [| reflexivity].
  apply find_some in Hf. destruct Hf as [Hin Hi].
  apply in_seq in Hin. rewrite H in Hi by lia. discriminate.
Qed.

Lemma first_eos_at_0 (emits : nat -> bool) (k : nat) :
  emits 0 = true -> first_eos emits k = 0.
Proof.
  intros H. unfold first_eos. destruct k as [| k]; [reflexivity |].
  simpl. rewrite H. reflexivity.
Qed.

Lemma forallb_map_compose {A B : Type} (f : B -> bool) (g : A -> B) (l : list A) :
  forallb f (map g l) = forallb (fun x => f (g x)) l.
Proof.
  induction l as [| x xs IH]; simpl; [reflexivity | rewrite IH; reflexivity].
Qed.

Lemma forallb_nth_seq (l : list bool) :
  forallb (fun b => b) l = forallb (fun b => nth b l false) (seq 0 (length l)).
Proof.
  induction l as [| x xs IH]; [reflexivity |].
  simpl. f_equal. rewrite IH, <- seq_shift, forallb_map_compose. reflexivity.
Qed.

Lemma decode_loop_app (step : nat -> decode_state -> result (flow * decode_state))
    (l1 l2 : list nat) (st : decode_state) :
  decode_loop step (l1 ++ l2) st =
  match decode_loop step l1 st with
  | Ok (Continue, s) => decode_loop step l2 s
  | r => r
  end.
Proof.
  revert st; induction l1 as [| i l1 IH]; intros st; simpl; [reflexivity |].
  destruct (step i st) as [[[|] s] | e]; simpl; auto.
Qed.

Lemma decode_loop_S (step : nat -> decode_state -> result (flow * decode_state))
    (k : nat) (st : decode_state) :
  decode_loop step (seq 0 (S k)) st =
  match decode_loop step (seq 0 k) st with
  | Ok (Continue, s) =>
      match step k s with
      | Ok (Continue, s') => Ok (Continue, s')
      | Ok (Break, s') => Ok (Break, s')
      | Raise e => Raise e
      end
  | r => r
  end.
Proof.
  rewrite seq_S, decode_loop_app. simpl.
  destruct (decode_loop step (seq 0 k) st) as [[[|] s] | e]; try reflexivity.
  all: destruct (step k s) as [[[|] s'] | e]; reflexivity.
Qed.

Lemma stop_state_length (num_vocal : Z) (s : sim) (ss : list bool) :
  stop_state num_vocal s = Ok ss -> sim_N s = 1 -> length ss = sim_B s.
Proof.
  unfold stop_state, argmax_last. intros H HN. rewrite HN in H.
  destruct (length (py_slice_to (num_vocal - 1) (repeat tt (sim_V s))) =? 0);
    [discriminate |].
  simpl in H.
  destruct (mapM _ (seq 0 (sim_B s))) as [row |] eqn:Hrow; simpl in H;
    [| discriminate].
  inversion H; subst. rewrite length_map.
  apply mapM_length in Hrow. rewrite Hrow. apply length_seq.
Qed.

Lemma eos_update_eq (num_vocal : Z) (seq_i : nat) (s : sim) (ss e : list bool)
    (el : list nat) :
  stop_state num_vocal s = Ok ss ->
  length ss = length e -> length el = length e ->
  let e' := map (fun p : bool * bool => fst p || snd p) (combine ss e) in
  let el' :=
    map (fun p : nat * bool => fst p + seq_i * (if snd p then 1 else 0))
        (combine el (map (fun p : bool * bool => negb (fst p) && snd p)
                         (combine e ss))) in
  eos_update num_vocal seq_i s e el
  = Ok (forallb (fun b => b) e' && (4 <? seq_i), e', el').
Proof.
  intros Hss Hl1 Hl2 e' el'. unfold eos_update. rewrite Hss. simpl.
  rewrite broadcast2_same_length by lia.
  rewrite (mapM_total _ (fun p : bool * bool => negb (fst p) && snd p))
    by reflexivity.
  simpl.
  rewrite broadcast_into_same_length
    by (rewrite length_map, length_combine; lia).
  rewrite (mapM_total _
             (fun p : nat * bool => fst p + seq_i * (if snd p then 1 else 0)))
    by reflexivity.
  simpl.
  rewrite broadcast2_same_length by lia.
  rewrite (mapM_total _ (fun p : bool * bool => fst p || snd p)) by reflexivity.
  reflexivity.
Qed.

Lemma forallb_ext_in {A : Type} (f g : A -> bool) (l : list A) :
  (forall x, In x l -> f x = g x) -> forallb f l = forallb g l.
Proof.
  induction l as [| x xs IH]; intros H; simpl; [reflexivity |].
  rewrite (H x) by (left; reflexivity).
  rewrite IH by (intros y Hy; apply H; right; exact Hy). reflexivity.
Qed.

Section DecodeLoop.

Variables (self : Pix2seqTransformer) (bs : nat).
Variables (memory pos_embed : etensor) (mask : list (list bool)).
Variable det_embed_weight : list (list ereal).
Variable vocal_embed : list (list Z) -> result etensor.
Variable vocal_classifier : etensor -> sim.
Variable num_vocal : Z.
Variable nucleus_sampling : bool.
Variable multinomial : nat -> list ereal -> result nat.

(** Evaluation with [pred_eos=True]; the classifier keeps the
    [1 x bs] leading shape of the decoder output. *)
Hypothesis Heos : pred_eos self = true.
Hypothesis Hshape :
  forall o, sim_N (vocal_classifier o) = 1 /\ sim_B (vocal_classifier o) = bs.

Local Abbreviation step :=
  (decode_step self memory pos_embed mask vocal_embed vocal_classifier
     num_vocal nucleus_sampling multinomial).
Local Abbreviation st0 := (initial_state self bs det_embed_weight).
Local Abbreviation emits :=
  (emits_eos self bs memory pos_embed mask det_embed_weight vocal_embed
     vocal_classifier num_vocal nucleus_sampling multinomial).
Local Abbreviation run :=
  (decode self bs memory pos_embed mask det_embed_weight vocal_embed
     vocal_classifier num_vocal nucleus_sampling multinomial).

(** [end] and [end_lens] after the first [k] iterations. *)
Local Abbreviation tracked k e el :=
  (length e = bs /\ length el = bs /\
   forall b, b < bs ->
     nth b e false = existsb (emits b) (seq 0 k) /\
     nth b el 0 = first_eos (emits b) k).

Lemma tracked_all_ended (k : nat) (e : list bool) (el : list nat) :
  tracked (S k) e el -> forallb (fun b => b) e = all_ended emits bs k.
Proof.
  intros (He & _ & Hb). unfold all_ended.
  rewrite forallb_nth_seq, He. apply forallb_ext_in.
  intros b Hin. apply in_seq in Hin. apply Hb. lia.
Qed.

Lemma decode_step_spec (i : nat) (s s' : decode_state) (f : flow) :
  decode_loop step (seq 0 i) st0 = Ok (Continue, s) ->
  tracked i (end_ s) (end_lens s) ->
  step i s = Ok (f, s') ->
  tracked (S i) (end_ s') (end_lens s') /\
  match f with
  | Break =>
      4 < i /\ forallb (fun b => b) (end_ s') = true /\
      pred_seq_logits s' = pred_seq_logits s
  | Continue =>
      (4 < i -> forallb (fun b => b) (end_ s') = false) /\
      exists lg, pred_seq_logits s' = pred_seq_logits s ++ [lg] /\ sim_B lg = bs
  end.
Proof.
  intros Hloop (He & Hel & Hb) Hstep.
  assert (Hemit : forall b ss,
             stop_state num_vocal
               (similarity_of self memory pos_embed mask vocal_classifier s)
             = Ok ss -> emits b i = nth b ss false).
  { intros b ss Hss. unfold emits_eos. rewrite Hloop, Hss. reflexivity. }
  unfold decode_step in Hstep. unfold similarity_of in Hemit.
  destruct (decoder self (input_embed s) memory pos_embed mask (pre_kv s))
    as [out_dec kv]. simpl fst in Hemit.
  rewrite Heos in Hstep.
  destruct (Hshape out_dec) as [HN HB].
  destruct (stop_state num_vocal (vocal_classifier out_dec)) as [ss | err]
    eqn:Hss.
  2:{ unfold eos_update in Hstep. rewrite Hss in Hstep. discriminate. }
  pose proof (stop_state_length _ _ _ Hss HN) as Hlss. rewrite HB in Hlss.
  rewrite (eos_update_eq num_vocal i _ ss (end_ s) (end_lens s) Hss) in Hstep
    by lia.
  simpl in Hstep.
  set (e' := map (fun p : bool * bool => fst p || snd p) (combine ss (end_ s)))
    in *.
  set (el' := map (fun p : nat * bool => fst p + i * (if snd p then 1 else 0))
                  (combine (end_lens s)
                     (map (fun p : bool * bool => negb (fst p) && snd p)
                          (combine (end_ s) ss)))) in *.
  assert (Htr : tracked (S i) e' el').
  { unfold e', el'. repeat split.
    - rewrite length_map, length_combine. lia.
    - rewrite length_map, length_combine, length_map, length_combine. lia.
    - rewrite (nth_map_combine _ _ _ _ _ false false) by lia. cbn [fst snd].
      rewrite seq_S, existsb_app. cbn [existsb Nat.add].
      destruct (Hb b H) as [Hb1 _]. rewrite <- Hb1, (Hemit b ss eq_refl).
      rewrite orb_false_r. apply orb_comm.
    - rewrite (nth_map_combine _ _ _ _ _ 0 false)
        by (rewrite ?length_map, ?length_combine; lia).
      cbn [fst snd].
      rewrite (nth_map_combine _ _ _ _ _ false false) by lia. cbn [fst snd].
      destruct (Hb b H) as [Hb1 Hb2].
      rewrite first_eos_S, <- Hb1, <- Hb2, (Hemit b ss eq_refl).
      destruct (nth b (end_ s) false) eqn:Hend; simpl.
      + lia.
      + pose proof (find_none_existsb (emits b) (seq 0 i)) as Hfn.
        assert (Hz : nth b (end_lens s) 0 = 0).
        { rewrite Hb2. unfold first_eos.
          destruct Hfn as [_ Hfn]. rewrite Hfn; [reflexivity |].
          symmetry. exact Hb1. }
        rewrite Hz. destruct (nth b ss false); lia. }
  destruct (forallb (fun b => b) e' && (4 <? i)) eqn:Hflag.
  - inversion Hstep; subst f s'. simpl. split; [exact Htr |].
    apply andb_true_iff in Hflag. destruct Hflag as [Hall Hlt].
    apply Nat.ltb_lt in Hlt. repeat split; assumption.
  - destruct (if nucleus_sampling
              then nucleus_step self multinomial i (vocal_classifier out_dec)
              else greedy_step num_vocal (vocal_classifier out_dec))
      as [[tok lg] |] eqn:Hpick; simpl in Hstep; [| discriminate].
    destruct (vocal_embed tok) as [emb |]; simpl in Hstep; [| discriminate].
    inversion Hstep; subst f s'. simpl. split; [exact Htr |].
    split.
    + intros Hlt. apply Nat.ltb_lt in Hlt. rewrite Hlt in Hflag.
      rewrite andb_true_r in Hflag. exact Hflag.
    + exists lg. split; [reflexivity |].
      destruct nucleus_sampling.
      * unfold nucleus_step in Hpick.
        destruct (top_k_top_p_filtering _ _ _ _); simpl in Hpick;
          [| discriminate].
        destruct (multinomial i _); simpl in Hpick; [| discriminate].
        destruct (py_index _ _); simpl in Hpick; [| discriminate].
        inversion Hpick; subst lg. simpl. exact HB.
      * unfold greedy_step in Hpick.
        destruct (argmax_last _ _); simpl in Hpick; [| discriminate].
        inversion Hpick; subst lg. exact HB.
Qed.

Lemma prefix_invariant (k : nat) (s : decode_state) :
  decode_loop step (seq 0 k) st0 = Ok (Continue, s) ->
  tracked k (end_ s) (end_lens s) /\
  length (pred_seq_logits s) = k /\
  Forall (fun lg => sim_B lg = bs) (pred_seq_logits s) /\
  (forall j, 5 <= j < k -> all_ended emits bs j = false).
Proof.
  revert s. induction k as [| k IH]; intros s H.
  - simpl in H. inversion H; subst s. simpl.
    rewrite !repeat_length. repeat split; try constructor; try lia.
    + apply nth_repeat.
    + apply nth_repeat.
  - rewrite decode_loop_S in H.
    destruct (decode_loop step (seq 0 k) st0) as [[[|] sk] | e] eqn:Hk;
      try discriminate.
    destruct (step k sk) as [[[|] s1] | e] eqn:Hs; try discriminate.
    inversion H; subst s1.
    destruct (IH sk eq_refl) as (Htr & Hlen & Hall & Hmin).
    destruct (decode_step_spec k sk s Continue Hk Htr Hs)
      as (Htr' & Hnot & lg & Hlg & HB).
    split; [exact Htr' |]. split; [| split].
    + rewrite Hlg, length_app. simpl. lia.
    + rewrite Hlg. apply Forall_app. split; [exact Hall |].
      constructor; [exact HB | constructor].
    + intros j Hj. destruct (Nat.eq_dec j k) as [-> | Hne].
      * rewrite <- (tracked_all_ended k _ _ Htr'). apply Hnot. lia.
      * apply Hmin. lia.
Qed.

Lemma break_point (n : nat) (st : decode_state) :
  decode_loop step (seq 0 n) st0 = Ok (Break, st) ->
  exists k s, k < n /\
    decode_loop step (seq 0 k) st0 = Ok (Continue, s) /\
    step k s = Ok (Break, st).
Proof.
  induction n as [| n IH]; intros H.
  - simpl in H. discriminate.
  - rewrite decode_loop_S in H.
    destruct (decode_loop step (seq 0 n) st0) as [[[|] sn] | e] eqn:Hn;
      try discriminate.
    + destruct (step n sn) as [[[|] s1] | e] eqn:Hs; try discriminate.
      inversion H; subst s1. exists n, sn. repeat split; try assumption. lia.
    + inversion H; subst sn.
      destruct (IH eq_refl) as (k & s & Hk & Hp & Hs).
      exists k, s. repeat split; try assumption. lia.
Qed.

(** The final state of the loop over [range(n)]. *)
Lemma decode_loop_result (n : nat) (f : flow) (st : decode_state) :
  decode_loop step (seq 0 n) st0 = Ok (f, st) ->
  Forall (fun lg => sim_B lg = bs) (pred_seq_logits st) /\
  match f with
  | Break =>
      4 < length (pred_seq_logits st) < n /\
      tracked (S (length (pred_seq_logits st))) (end_ st) (end_lens st) /\
      forallb (fun b => b) (end_ st) = true /\
      all_ended emits bs (length (pred_seq_logits st)) = true /\
      (forall j, 5 <= j < length (pred_seq_logits st) ->
                 all_ended emits bs j = false)
  | Continue =>
      length (pred_seq_logits st) = n /\
      tracked n (end_ st) (end_lens st) /\
      (forall j, 5 <= j < n -> all_ended emits bs j = false)
  end.
Proof.
  intros H. destruct f.
  - destruct (prefix_invariant n st H) as (Htr & Hlen & Hall & Hmin).
    repeat split; try assumption; apply Htr; assumption.
  - destruct (break_point n st H) as (k & s & Hk & Hp & Hs).
    destruct (prefix_invariant k s Hp) as (Htr & Hlen & Hall & Hmin).
    destruct (decode_step_spec k s st Break Hp Htr Hs)
      as (Htr' & Hlt & Hend & Hlg).
    rewrite Hlg, Hlen.
    split; [exact Hall |]. split; [lia |]. split; [exact Htr' |].
    split; [exact Hend |]. split; [| exact Hmin].
    rewrite <- (tracked_all_ended k _ _ Htr'). exact Hend.
Qed.

Lemma decode_step_total (i : nat) (s : decode_state) :
  nucleus_sampling = false ->
  (forall o, exists ss, stop_state num_vocal (vocal_classifier o) = Ok ss) ->
  (forall o, exists t, greedy_step num_vocal (vocal_classifier o) = Ok t) ->
  (forall t, exists e, vocal_embed t = Ok e) ->
  length (end_ s) = bs -> length (end_lens s) = bs ->
  exists f s', step i s = Ok (f, s').
Proof.
  intros Hn Hstop Hgreedy Hembed He Hel. unfold decode_step.
  destruct (decoder self (input_embed s) memory pos_embed mask (pre_kv s))
    as [out_dec kv].
  rewrite Heos, Hn.
  destruct (Hstop out_dec) as [ss Hss].
  destruct (Hshape out_dec) as [HN HB].
  pose proof (stop_state_length _ _ _ Hss HN) as Hlss. rewrite HB in Hlss.
  rewrite (eos_update_eq num_vocal i _ ss (end_ s) (end_lens s) Hss) by lia.
  simpl.
  destruct (forallb _ _ && (4 <? i)).
  - eexists _, _. reflexivity.
  - destruct (Hgreedy out_dec) as [[tok lg] Hg]. rewrite Hg. simpl.
    destruct (Hembed tok) as [emb Hemb]. rewrite Hemb. simpl.
    eexists _, _. reflexivity.
Qed.

Lemma decode_loop_total (n : nat) :
  nucleus_sampling = false ->
  (forall o, exists ss, stop_state num_vocal (vocal_classifier o) = Ok ss) ->
  (forall o, exists t, greedy_step num_vocal (vocal_classifier o) = Ok t) ->
  (forall t, exists e, vocal_embed t = Ok e) ->
  exists f st, decode_loop step (seq 0 n) st0 = Ok (f, st).
Proof.
  intros Hn Hstop Hgreedy Hembed. induction n as [| n IH].
  - simpl. eexists _, _. reflexivity.
  - rewrite decode_loop_S. destruct IH as (f & st & Hrun). rewrite Hrun.
    destruct f.
    + destruct (prefix_invariant n st Hrun) as ((He & Hel & _) & _).
      destruct (decode_step_total n st Hn Hstop Hgreedy Hembed He Hel)
        as (f' & s' & Hs).
      rewrite Hs. destruct f'; eexists _, _; reflexivity.
    + eexists _, _. reflexivity.
Qed.

Lemma emits_at_0 (b : nat) (ss : list bool) :
  stop_state num_vocal
    (similarity_of self memory pos_embed mask vocal_classifier st0) = Ok ss ->
  emits b 0 = nth b ss false.
Proof.
  intros H. unfold emits_eos. cbn [seq decode_loop]. rewrite H. reflexivity.
Qed.

Lemma all_ended_false (b0 j : nat) :
  b0 < bs -> (forall i, emits b0 i = false) -> all_ended emits bs j = false.
Proof.
  intros Hb Hnever. unfold all_ended.
  destruct (forallb _ (seq 0 bs)) eqn:Hall; [| reflexivity].
  rewrite forallb_forall in Hall.
  specialize (Hall b0). rewrite in_seq in Hall.
  assert (Hex : existsb (emits b0) (seq 0 (S j)) = true) by (apply Hall; lia).
  apply existsb_exists in Hex. destruct Hex as (i & _ & Hi).
  rewrite Hnever in Hi. discriminate.
Qed.

(** C1: in evaluation mode with [pred_eos=True] the loop is left early
    exactly at the first iteration [k >= 5] by which every sample has
    had the end-of-sequence class as the argmax of its first
    [num_vocal - 1] logits, after [k] completed decoding steps; when that
    never happens all 500 steps are completed.  With the end-of-sequence
    class forced from the first step it is left after 5 completed steps;
    with a sample that never has it, after 500. *)
Theorem eval_decoding_stops :
  (forall f st,
     run = Ok (f, st) ->
     match f with
     | Break =>
         5 <= length (pred_seq_logits st) < max_len /\
         forallb (fun b => b) (end_ st) = true /\
         all_ended emits bs (length (pred_seq_logits st)) = true /\
         (forall j, 5 <= j < length (pred_seq_logits st) ->
                    all_ended emits bs j = false)
     | Continue =>
         length (pred_seq_logits st) = max_len /\
         (forall j, 5 <= j < max_len -> all_ended emits bs j = false)
     end) /\
  (nucleus_sampling = false ->
   (forall o, exists t, greedy_step num_vocal (vocal_classifier o) = Ok t) ->
   (forall t, exists e, vocal_embed t = Ok e) ->
   ((forall o, stop_state num_vocal (vocal_classifier o) = Ok (repeat true bs)) ->
    exists st, run = Ok (Break, st) /\ length (pred_seq_logits st) = 5) /\
   (forall b0, b0 < bs ->
    (forall o, exists ss, stop_state num_vocal (vocal_classifier o) = Ok ss /\
                          nth b0 ss false = false) ->
    exists st, run = Ok (Continue, st) /\
               length (pred_seq_logits st) = max_len)).
Proof.
  assert (Hchar : forall f st,
     run = Ok (f, st) ->
     match f with
     | Break =>
         5 <= length (pred_seq_logits st) < max_len /\
         forallb (fun b => b) (end_ st) = true /\
         all_ended emits bs (length (pred_seq_logits st)) = true /\
         (forall j, 5 <= j < length (pred_seq_logits st) ->
                    all_ended emits bs j = false)
     | Continue =>
         length (pred_seq_logits st) = max_len /\
         (forall j, 5 <= j < max_len -> all_ended emits bs j = false)
     end).
  { intros f st Hrun. unfold decode in Hrun.
    destruct (decode_loop_result max_len f st Hrun) as [_ Hres].
    destruct f.
    - destruct Hres as (Hlen & _ & Hmin). split; assumption.
    - destruct Hres as (Hlen & _ & Hend & Hall & Hmin).
      repeat split; try assumption; lia. }
  split; [exact Hchar |].
  intros Hn Hgreedy Hembed. split.
  - intros Hforced.
    destruct (decode_loop_total max_len Hn) as (f & st & Hrun);
      [intros o; eexists; apply Hforced | exact Hgreedy | exact Hembed |].
    assert (Hall5 : all_ended emits bs 5 = true).
    { unfold all_ended. apply forallb_forall. intros b Hb. apply in_seq in Hb.
      change (seq 0 6) with (0 :: seq 1 5). cbn [existsb].
      rewrite (emits_at_0 b (repeat true bs)) by apply Hforced.
      rewrite (nth_indep _ false true) by (rewrite repeat_length; lia).
      rewrite nth_repeat. reflexivity. }
    pose proof (Hchar f st Hrun) as Hres. destruct f.
    + destruct Hres as (_ & Hmin). rewrite Hmin in Hall5; [discriminate |].
      unfold max_len. lia.
    + destruct Hres as (Hlen & _ & _ & Hmin).
      exists st. split; [exact Hrun |].
      destruct (Nat.eq_dec (length (pred_seq_logits st)) 5) as [H5 | H5];
        [exact H5 |].
      rewrite Hmin in Hall5 by lia. discriminate.
  - intros b0 Hb0 Hnever.
    destruct (decode_loop_total max_len Hn) as (f & st & Hrun);
      [intros o; destruct (Hnever o) as (ss & Hss & _); exists ss; exact Hss
      | exact Hgreedy | exact Hembed |].
    assert (Hno : forall i, emits b0 i = false).
    { intros i. unfold emits_eos.
      destruct (decode_loop _ (seq 0 i) _) as [[[|] s] | e]; try reflexivity.
      unfold similarity_of.
      destruct (Hnever (fst (decoder self (input_embed s) memory pos_embed mask
                               (pre_kv s)))) as (ss & Hss & Hnth).
      rewrite Hss. exact Hnth. }
    pose proof (Hchar f st Hrun) as Hres. destruct f.
    + destruct Hres as (Hlen & _). exists st. split; assumption.
    + destruct Hres as (_ & _ & Hall & _).
      rewrite (all_ended_false b0 _ Hb0 Hno) in Hall. discriminate.
Qed.

Lemma cat_logits_length (l : list sim) (cat : list (list (list ereal))) :
  cat_logits l = Ok cat ->
  Forall (fun lg => sim_B lg = bs) l -> length cat = bs.
Proof.
  intros H Hall. unfold cat_logits in H.
  destruct l as [| s0 rest]; [discriminate |].
  destruct (forallb _ rest); [| discriminate].
  inversion H; subst cat. rewrite length_map, length_seq.
  inversion Hall; assumption.
Qed.

(** C10: in evaluation mode with [pred_eos=True] the end length of a
    sample is the index of its first end-of-sequence iteration, or 0 when
    there is none, and the returned sequence of the sample is that many
    rows; so a sample that never has the end-of-sequence class within the
    500 steps, and a sample that has it at step 0, gets end length 0 and
    an empty sequence. *)
Theorem eval_end_lens (out : list (list (list ereal))) :
  forward_eval self bs memory pos_embed mask det_embed_weight vocal_embed
    vocal_classifier num_vocal nucleus_sampling multinomial = Ok out ->
  exists f st cat,
    run = Ok (f, st) /\
    cat_logits (pred_seq_logits st) = Ok cat /\
    length out = bs /\
    let K := match f with
             | Break => S (length (pred_seq_logits st))
             | Continue => length (pred_seq_logits st)
             end in
    K <= max_len /\
    forall b, b < bs ->
      nth b (end_lens st) 0 = first_eos (emits b) K /\
      nth b out [] = firstn (first_eos (emits b) K) (nth b cat []) /\
      ((forall i, i < max_len -> emits b i = false) ->
       nth b (end_lens st) 0 = 0 /\ nth b out [] = []) /\
      (emits b 0 = true ->
       nth b (end_lens st) 0 = 0 /\ nth b out [] = []).
Proof.
  intros Hfwd. unfold forward_eval in Hfwd.
  destruct run as [[f st] | e] eqn:Hrun; simpl in Hfwd; [| discriminate].
  rewrite Heos in Hfwd.
  destruct (cat_logits (pred_seq_logits st)) as [cat |] eqn:Hcat;
    simpl in Hfwd; [| discriminate].
  inversion Hfwd; subst out. clear Hfwd.
  exists f, st, cat. split; [reflexivity |]. split; [exact Hcat |].
  unfold decode in Hrun.
  destruct (decode_loop_result max_len f st Hrun) as [HB Hres].
  pose proof (cat_logits_length _ _ Hcat HB) as Hlcat.
  set (K := match f with
            | Break => S (length (pred_seq_logits st))
            | Continue => length (pred_seq_logits st)
            end).
  assert (HK : K <= max_len /\
               length (end_lens st) = bs /\
               forall b, b < bs -> nth b (end_lens st) 0 = first_eos (emits b) K).
  { unfold K. destruct f.
    - destruct Hres as (Hlen & (He & Hel & Hb) & _). rewrite Hlen.
      repeat split; try lia. intros b Hlt. apply Hb. exact Hlt.
    - destruct Hres as (Hlen & (He & Hel & Hb) & _).
      repeat split; try lia. intros b Hlt. apply Hb. exact Hlt. }
  destruct HK as (HKle & Hel & Hlens).
  split; [rewrite length_map, length_combine; lia |].
  cbv zeta. fold K. split; [exact HKle |].
  intros b Hb.
  assert (Hout : nth b (map (fun p : nat * list (list ereal) => firstn (fst p) (snd p))
                         (combine (end_lens st) cat)) []
                 = firstn (first_eos (emits b) K) (nth b cat [])).
  { rewrite (nth_map_combine _ _ _ _ _ 0 []) by lia. simpl.
    rewrite (Hlens b Hb). reflexivity. }
  split; [apply Hlens; exact Hb |]. split; [exact Hout |]. split.
  - intros Hnever.
    assert (Hz : first_eos (emits b) K = 0)
      by (apply first_eos_never; intros i Hi; apply Hnever; lia).
    rewrite Hout, (Hlens b Hb), Hz. split; reflexivity.
  - intros H0.
    rewrite Hout, (Hlens b Hb), (first_eos_at_0 _ K H0). split; reflexivity.
Qed.

End DecodeLoop.

Lemma eos_classifier_stop (bs : nat) (o : etensor) :
  bs = 2 -> stop_state 4 (eos_classifier bs o) = Ok (repeat true bs).
Proof. intros ->. vm_compute. reflexivity. Qed.

Lemma eval_decoding_stops_witness :
  (exists st,
     decode (echo_transformer true) 2 empty_tensor empty_tensor [] [[Fin 0]]
       zero_embed (eos_classifier 2) 4 false first_draw = Ok (Break, st) /\
     length (pred_seq_logits st) = 5) /\
  (exists st,
     decode (echo_transformer true) 2 empty_tensor empty_tensor [] [[Fin 0]]
       zero_embed (no_eos_classifier 2) 4 false first_draw = Ok (Continue, st) /\
     length (pred_seq_logits st) = max_len).
Proof.
  split.
  - destruct (eval_decoding_stops (echo_transformer true) 2 empty_tensor
                empty_tensor [] [[Fin 0]] zero_embed (eos_classifier 2) 4 false
                first_draw eq_refl (fun o => conj eq_refl eq_refl))
      as [_ Hex].
    destruct (Hex eq_refl) as [Hforced _].
    + intros o. eexists. vm_compute. reflexivity.
    + intros t. eexists. reflexivity.
    + apply Hforced. intros o. apply (eos_classifier_stop 2 o eq_refl).
  - destruct (eval_decoding_stops (echo_transformer true) 2 empty_tensor
                empty_tensor [] [[Fin 0]] zero_embed (no_eos_classifier 2) 4
                false first_draw eq_refl (fun o => conj eq_refl eq_refl))
      as [_ Hex].
    destruct (Hex eq_refl) as [_ Hnever].
    + intros o. eexists. vm_compute. reflexivity.
    + intros t. eexists. reflexivity.
    + apply (Hnever 0); [lia |].
      intros o. eexists. split; [vm_compute; reflexivity | reflexivity].
Defined.

Lemma forced_eos_forward :
  forward_eval (echo_transformer true) 2 empty_tensor empty_tensor [] [[Fin 0]]
    zero_embed (eos_classifier 2) 4 false first_draw = Ok [[]; []].
Proof. vm_compute. reflexivity. Qed.

Lemma eval_end_lens_witness :
  exists f st cat,
    decode (echo_transformer true) 2 empty_tensor empty_tensor [] [[Fin 0]]
      zero_embed (eos_classifier 2) 4 false first_draw = Ok (f, st) /\
    cat_logits (pred_seq_logits st) = Ok cat /\
    length [@nil (list ereal); []] = 2 /\
    let K := match f with
             | Break => S (length (pred_seq_logits st))
             | Continue => length (pred_seq_logits st)
             end in
    K <= max_len /\
    forall b, b < 2 ->
      let emits :=
        emits_eos (echo_transformer true) 2 empty_tensor empty_tensor []
          [[Fin 0]] zero_embed (eos_classifier 2) 4 false first_draw b in
      nth b (end_lens st) 0 = first_eos emits K /\
      nth b [[]; []] [] = firstn (first_eos emits K) (nth b cat []) /\
      ((forall i, i < max_len -> emits i = false) ->
       nth b (end_lens st) 0 = 0 /\ nth b [@nil (list ereal); []] [] = []) /\
      (emits 0 = true ->
       nth b (end_lens st) 0 = 0 /\ nth b [@nil (list ereal); []] [] = []).
Proof.
  apply (eval_end_lens (echo_transformer true) 2 empty_tensor empty_tensor []
           [[Fin 0]] zero_embed (eos_classifier 2) 4 false first_draw
           eq_refl (fun o => conj eq_refl eq_refl) [[]; []]).
  exact forced_eos_forward.
Defined.

(* ------------------------------------------------------------------ *)
(** ** Reference-point refinement in the deformable decoder *)



Lemma Forall2_of_length {A B : Type} (xs : list A) (ys : list B) :
  length xs = length ys -> Forall2 (fun _ _ => True) xs ys.
Proof.
  revert ys; induction xs as [| x xs IH]; intros [| y ys] H; simpl in H;
    try discriminate; constructor; auto.
Qed.

Lemma mapM_combine_Forall2 {A B B' C : Type} (F : A -> B' -> result C)
    (H : B -> B') (G : A -> B -> C) (P : A -> B -> Prop)
    (xs : list A) (ys : list B) :
  Forall2 P xs ys ->
  (forall x y, P x y -> F x (H y) = Ok (G x y)) ->
  mapM (fun p => F (fst p) (snd p)) (combine xs (map H ys))
  = Ok (zip_with G xs ys).
Proof.
  intros HP HF. induction HP as [| x y xs ys Hxy _ IH]; simpl; [reflexivity |].
  rewrite (HF x y Hxy). simpl. rewrite IH. reflexivity.
Qed.

Lemma broadcast2_zip_with {A B B' C : Type} (F : A -> B' -> result C)
    (H : B -> B') (G : A -> B -> C) (P : A -> B -> Prop)
    (xs : list A) (ys : list B) :
  Forall2 P xs ys ->
  (forall x y, P x y -> F x (H y) = Ok (G x y)) ->
  broadcast2 F xs (map H ys) = Ok (zip_with G xs ys).
Proof.
  intros HP HF. rewrite broadcast2_same_length
    by (rewrite length_map; eapply Forall2_length; exact HP).
  eapply mapM_combine_Forall2; eassumption.
Qed.


Lemma sigmoid_unit (x : R) : (0 <= sigmoid x <= 1)%R.
Proof. pose proof (sigmoid_pos_lt_1 x). lra. Qed.







(* ------------------------------------------------------------------ *)
(** ** Encoder output proposals *)

Lemma nth_zip_with {A B C : Type} (f : A -> B -> C) (xs : list A) (ys : list B)
    (n : nat) (d : C) (dx : A) (dy : B) :
  n < length xs -> length xs = length ys ->
  nth n (zip_with f xs ys) d = f (nth n xs dx) (nth n ys dy).
Proof.
  intros Hn Hlen. unfold zip_with.
  rewrite (nth_map_combine _ _ _ _ _ dx dy) by assumption. reflexivity.
Qed.

Lemma zip_with_length {A B C : Type} (f : A -> B -> C) (xs : list A) (ys : list B) :
  length xs = length ys -> length (zip_with f xs ys) = length xs.
Proof.
  intros H. unfold zip_with. rewrite length_map, length_combine. lia.
Qed.

Lemma nth_map_in {A B : Type} (f : A -> B) (l : list A) (n : nat) (d : B) (d' : A) :
  n < length l -> nth n (map f l) d = f (nth n l d').
Proof.
  intros H. rewrite (nth_indep _ d (f d')) by (rewrite length_map; exact H).
  apply map_nth.
Qed.

Lemma broadcast2_zip_plain {A B C : Type} (F : A -> B -> result C)
    (G : A -> B -> C) (P : A -> B -> Prop) (xs : list A) (ys : list B) :
  Forall2 P xs ys ->
  (forall x y, P x y -> F x y = Ok (G x y)) ->
  broadcast2 F xs ys = Ok (zip_with G xs ys).
Proof.
  intros HP HF. rewrite <- (map_id ys) at 1.
  eapply (broadcast2_zip_with F (fun y => y)); eassumption.
Qed.

Lemma Forall2_same_lengths {A B : Type} (n : nat) (xs : list (list A))
    (ys : list (list B)) :
  length xs = length ys ->
  Forall (fun x => length x = n) xs -> Forall (fun y => length y = n) ys ->
  Forall2 (fun x y => length x = length y) xs ys.
Proof.
  revert ys; induction xs as [| x xs IH]; intros [| y ys] Hl Hx Hy;
    simpl in Hl; try discriminate; constructor.
  - inversion Hx; inversion Hy; congruence.
  - apply IH; [lia | inversion Hx; assumption | inversion Hy; assumption].
Qed.

Lemma masked_fill3_eq {A : Type} (t : list (list (list A)))
    (mask : list (list bool)) (v : A) :
  Forall2 (fun rows m => length rows = length m) t mask ->
  masked_fill3 t mask v = Ok (zip_with (zip_with (fill_row v)) t mask).
Proof.
  intros H. unfold masked_fill3.
  apply (broadcast2_zip_plain _ _ _ _ _ H).
  intros rows m Hlen. unfold masked_fill_rows.
  apply (broadcast2_zip_plain _ _ (fun _ _ => True)).
  - apply Forall2_of_length. exact Hlen.
  - intros row b _. reflexivity.
Qed.

Lemma nth_slice {A : Type} (l : list A) (c n j : nat) (d : A) :
  j < n -> nth j (firstn n (skipn c l)) d = nth (c + j) l d.
Proof.
  intros H. rewrite nth_firstn.
  apply Nat.ltb_lt in H. rewrite H. apply nth_skipn.
Qed.

Lemma rows_length {A B : Type} (g : A -> nat -> B) (W : nat) (l : list A) :
  length (flat_map (fun h => map (g h) (seq 0 W)) l) = length l * W.
Proof.
  induction l as [| x xs IH]; simpl; [reflexivity |].
  rewrite length_app, length_map, length_seq, IH. reflexivity.
Qed.

Lemma rows_nth {B : Type} (g : nat -> nat -> B) (W H a h w : nat) (d : B) :
  h < H -> w < W ->
  nth (h * W + w) (flat_map (fun h => map (g h) (seq 0 W)) (seq a H)) d
  = g (a + h) w.
Proof.
  revert a h. induction H as [| H IH]; intros a h Hh Hw; [lia |].
  simpl. destruct h as [| h].
  - simpl. rewrite app_nth1 by (rewrite length_map, length_seq; exact Hw).
    rewrite (nth_map_in _ _ _ _ 0) by (rewrite length_seq; exact Hw).
    rewrite seq_nth by exact Hw. rewrite Nat.add_0_r. reflexivity.
  - rewrite app_nth2 by (rewrite length_map, length_seq; simpl; lia).
    rewrite length_map, length_seq.
    replace (S h * W + w - W) with (h * W + w) by (simpl; lia).
    rewrite IH by lia. f_equal. lia.
Qed.

Lemma image_level_proposals_length (lvl H W : nat) (m : list bool) :
  length (image_level_proposals lvl H W m) = H * W.
Proof.
  unfold image_level_proposals. cbv zeta. rewrite rows_length, length_seq.
  reflexivity.
Qed.

Lemma image_level_proposals_nth (lvl H W : nat) (m : list bool) (h w : nat)
    (d : list ereal) :
  h < H -> w < W ->
  nth (h * W + w) (image_level_proposals lvl H W m) d
  = pixel_proposal lvl (valid_H H W m) (valid_W W m) h w.
Proof.
  intros Hh Hw. unfold image_level_proposals. cbv zeta.
  rewrite (rows_nth (fun h w => pixel_proposal lvl (valid_H H W m) (valid_W W m) h w))
    by assumption.
  reflexivity.
Qed.

Lemma level_blocks_length (row : list bool) (ss : list (nat * nat)) (cur lvl : nat) :
  length (concat (level_blocks row cur lvl ss)) = total_keys ss.
Proof.
  revert cur lvl. induction ss as [| [H W] rest IH]; intros cur lvl; simpl;
    [reflexivity |].
  rewrite length_app, image_level_proposals_length, IH. reflexivity.
Qed.

Lemma level_offset_S (H W : nat) (rest : list (nat * nat)) (i : nat) :
  level_offset ((H, W) :: rest) (S i) = H * W + level_offset rest i.
Proof. reflexivity. Qed.

Lemma level_blocks_nth (row : list bool) (ss : list (nat * nat))
    (cur lvl i H W j : nat) (d : list ereal) :
  nth_error ss i = Some (H, W) -> j < H * W ->
  nth (level_offset ss i + j) (concat (level_blocks row cur lvl ss)) d
  = nth j (image_level_proposals (lvl + i) H W
             (firstn (H * W) (skipn (cur + level_offset ss i) row))) d.
Proof.
  revert cur lvl i. induction ss as [| [H0 W0] rest IH]; intros cur lvl i Hi Hj.
  - destruct i; discriminate.
  - destruct i as [| i]; simpl in Hi.
    + inversion Hi; subst H0 W0. simpl concat.
      unfold level_offset. simpl firstn. simpl total_keys.
      rewrite app_nth1 by (rewrite image_level_proposals_length; exact Hj).
      rewrite !Nat.add_0_r. reflexivity.
    + rewrite level_offset_S. simpl concat.
      rewrite app_nth2 by (rewrite image_level_proposals_length; lia).
      rewrite image_level_proposals_length.
      replace (H0 * W0 + level_offset rest i + j - H0 * W0)
        with (level_offset rest i + j) by lia.
      rewrite (IH (cur + H0 * W0) (S lvl) i Hi Hj).
      replace (S lvl + i) with (lvl + S i) by lia.
      replace (cur + H0 * W0 + level_offset rest i)
        with (cur + (H0 * W0 + level_offset rest i)) by lia.
      reflexivity.
Qed.

Lemma level_slice_ok (cur H W : nat) (row : list bool) :
  cur + H * W <= length row ->
  level_slice cur H W row = Ok (firstn (H * W) (skipn cur row)).
Proof.
  intros Hlen. unfold level_slice. cbv zeta.
  rewrite length_firstn, length_skipn.
  replace (Nat.min (H * W) (length row - cur)) with (H * W) by lia.
  rewrite Nat.eqb_refl. reflexivity.
Qed.

Lemma level_proposals_ok (mask : list (list bool)) (cur lvl H W : nat) :
  0 < H -> 0 < W ->
  Forall (fun row => cur + H * W <= length row) mask ->
  level_proposals mask cur lvl H W
  = Ok (map (fun row => image_level_proposals lvl H W
                          (firstn (H * W) (skipn cur row))) mask).
Proof.
  intros HH HW Hmask. unfold level_proposals.
  replace (H =? 0) with false by (symmetry; apply Nat.eqb_neq; lia).
  replace (W =? 0) with false by (symmetry; apply Nat.eqb_neq; lia).
  simpl. apply mapM_total. intros row Hin.
  rewrite Forall_forall in Hmask.
  rewrite level_slice_ok by (apply Hmask; exact Hin). reflexivity.
Qed.

Lemma proposals_loop_ok (mask : list (list bool)) (ss : list (nat * nat))
    (cur lvl : nat) :
  Forall (fun hw => 0 < fst hw /\ 0 < snd hw) ss ->
  Forall (fun row => cur + total_keys ss <= length row) mask ->
  exists ps,
    proposals_loop mask cur lvl ss = Ok ps /\
    forall n, n < length mask ->
      map (fun part => nth n part []) ps
      = level_blocks (nth n mask []) cur lvl ss.
Proof.
  revert cur lvl. induction ss as [| [H W] rest IH]; intros cur lvl Hpos Hmask.
  - exists []. split; reflexivity.
  - inversion Hpos as [| ? ? [HH HW] Hpos']; subst. simpl in HH, HW.
    simpl in Hmask.
    assert (Hm1 : Forall (fun row => cur + H * W <= length row) mask)
      by (eapply Forall_impl; [| exact Hmask]; simpl; intros; lia).
    assert (Hm2 : Forall (fun row => cur + H * W + total_keys rest <= length row) mask)
      by (eapply Forall_impl; [| exact Hmask]; simpl; intros; lia).
    destruct (IH (cur + H * W) (S lvl) Hpos' Hm2) as (ps & Hps & Hnth).
    eexists. split.
    + simpl. rewrite (level_proposals_ok mask cur lvl H W HH HW Hm1). simpl.
      rewrite Hps. simpl. reflexivity.
    + intros n Hn. simpl. rewrite (Hnth n Hn).
      rewrite (nth_map_in _ _ _ _ []) by exact Hn. reflexivity.
Qed.

Lemma raw_proposals_ok (mask : list (list bool)) (ss : list (nat * nat)) :
  ss <> [] ->
  Forall (fun hw => 0 < fst hw /\ 0 < snd hw) ss ->
  Forall (fun row => length row = total_keys ss) mask ->
  exists raw,
    raw_proposals mask ss = Ok raw /\
    length raw = length mask /\
    forall n, n < length mask ->
      nth n raw [] = concat (level_blocks (nth n mask []) 0 0 ss).
Proof.
  intros Hne Hpos Hmask.
  destruct (proposals_loop_ok mask ss 0 0 Hpos) as (ps & Hps & Hnth).
  { eapply Forall_impl; [| exact Hmask]. simpl. intros row Hr. lia. }
  exists (cat_dim1 (length mask) ps). split; [| split].
  - unfold raw_proposals. destruct ss; [congruence |]. rewrite Hps. reflexivity.
  - unfold cat_dim1. rewrite length_map, length_seq. reflexivity.
  - intros n Hn. unfold cat_dim1.
    rewrite (nth_map_in _ _ _ _ 0) by (rewrite length_seq; exact Hn).
    rewrite seq_nth by exact Hn. simpl.
    rewrite flat_map_concat_map, (Hnth n Hn). reflexivity.
Qed.

Lemma shaped_nth {A : Type} (N S : nat) (t : list (list A)) (n : nat) :
  shaped N S t -> n < N -> length (nth n t []) = S.
Proof.
  intros [Hl Hall] Hn. rewrite Forall_forall in Hall.
  apply Hall. apply nth_In. lia.
Qed.

Lemma shaped_map2 {A B : Type} (f : A -> B) (N S : nat) (t : list (list A)) :
  shaped N S t -> shaped N S (map (map f) t).
Proof.
  intros [Hl Hall]. split; [rewrite length_map; exact Hl |].
  apply Forall_map. eapply Forall_impl; [| exact Hall].
  simpl. intros r Hr. rewrite length_map. exact Hr.
Qed.

Lemma shaped_Forall2 {A B : Type} (N S : nat) (t : list (list A))
    (m : list (list B)) :
  shaped N S t -> shaped N S m ->
  Forall2 (fun x y => length x = length y) t m.
Proof.
  intros [Hl1 H1] [Hl2 H2].
  apply (Forall2_same_lengths S); [lia | exact H1 | exact H2].
Qed.

Lemma shaped_fill {A : Type} (N S : nat) (t : list (list (list A)))
    (m : list (list bool)) (v : A) :
  shaped N S t -> shaped N S m ->
  shaped N S (zip_with (zip_with (fill_row v)) t m).
Proof.
  intros Ht Hm. pose proof Ht as [Hl1 H1]. pose proof Hm as [Hl2 H2].
  split; [rewrite zip_with_length; lia |].
  apply Forall_nth. intros i d Hi.
  rewrite zip_with_length in Hi by lia.
  rewrite (nth_zip_with _ _ _ _ _ [] []) by lia.
  rewrite zip_with_length.
  - apply (shaped_nth N S t i Ht). lia.
  - rewrite (shaped_nth N S t i Ht), (shaped_nth N S m i Hm) by lia. reflexivity.
Qed.

Lemma fill3_nth {A : Type} (N S : nat) (t : list (list (list A)))
    (m : list (list bool)) (v : A) (n s : nat) :
  shaped N S t -> shaped N S m -> n < N -> s < S ->
  nth s (nth n (zip_with (zip_with (fill_row v)) t m) []) []
  = fill_row v (nth s (nth n t []) []) (nth s (nth n m []) false).
Proof.
  intros Ht Hm Hn Hs. pose proof Ht as [Hl1 _]. pose proof Hm as [Hl2 _].
  pose proof (shaped_nth N S t n Ht Hn) as Hr1.
  pose proof (shaped_nth N S m n Hm Hn) as Hr2.
  rewrite (nth_zip_with _ _ _ _ _ [] []) by lia.
  rewrite (nth_zip_with _ _ _ _ _ [] false) by lia.
  reflexivity.
Qed.

Lemma in_open_interval_spec (c : ereal) :
  egtb c (Fin (1 / 100)) && eltb c (Fin (99 / 100)) = true
  <-> in_open_interval c.
Proof.
  destruct c as [r | | |]; simpl; unfold egtb; simpl.
  - rewrite andb_true_iff, !Rltb_spec. tauto.
  - split; [discriminate | tauto].
  - split; [discriminate | tauto].
  - split; [discriminate | tauto].
Qed.

Lemma proposal_valid_true (p : list ereal) :
  proposal_valid p = true <-> Forall in_open_interval p.
Proof.
  unfold proposal_valid. rewrite forallb_forall, Forall_forall.
  split; intros H c Hc; apply in_open_interval_spec; apply H; exact Hc.
Qed.

Lemma proposal_valid_false (p : list ereal) :
  Exists (fun c => ~ in_open_interval c) p -> proposal_valid p = false.
Proof.
  intros H. destruct (proposal_valid p) eqn:Hv; [| reflexivity].
  apply proposal_valid_true in Hv. apply Exists_exists in H.
  destruct H as (c & Hin & Hc). rewrite Forall_forall in Hv.
  exfalso. apply Hc. apply Hv. exact Hin.
Qed.

Lemma level_blocks_rows (row : list bool) (ss : list (nat * nat)) (cur lvl : nat) :
  Forall (fun p => length p = 4) (concat (level_blocks row cur lvl ss)).
Proof.
  revert cur lvl. induction ss as [| [H W] rest IH]; intros cur lvl; simpl;
    [constructor |].
  apply Forall_app. split; [| apply IH].
  apply Forall_forall. intros p Hin.
  unfold image_level_proposals in Hin. cbv zeta in Hin.
  apply in_flat_map in Hin. destruct Hin as (h & _ & Hin).
  apply in_map_iff in Hin. destruct Hin as (w & Hp & _).
  subst p. reflexivity.
Qed.

Lemma fill_row_inf (p : list ereal) :
  length p = 4 -> fill_row PInf p true = [PInf; PInf; PInf; PInf].
Proof.
  intros H. destruct p as [| a [| b [| c [| d [| e p]]]]]; simpl in H;
    try discriminate. reflexivity.
Qed.

Lemma valid_W_slice (cur H W : nat) (row : list bool) :
  0 < H ->
  valid_W W (firstn (H * W) (skipn cur row))
  = count_false (map (fun w => nth (cur + w) row false) (seq 0 W)).
Proof.
  intros HH. unfold valid_W, first_row. f_equal.
  apply map_ext_in. intros w Hin. apply in_seq in Hin.
  apply nth_slice. nia.
Qed.

Lemma valid_H_slice (cur H W : nat) (row : list bool) :
  0 < W ->
  valid_H H W (firstn (H * W) (skipn cur row))
  = count_false (map (fun h => nth (cur + h * W) row false) (seq 0 H)).
Proof.
  intros HW. unfold valid_H, first_column. f_equal.
  apply map_ext_in. intros h Hin. apply in_seq in Hin.
  apply nth_slice. nia.
Qed.

(** C3: on a padding mask with one entry per key of the given levels,
    every proposal of level [lvl] has width and height [0.05 * 2^lvl] and
    its centre is the pixel centre divided by the number of unpadded
    entries of the level's first row and first column; after the
    encoding [log(p / (1 - p))] a proposal at a padded position, or with
    a coordinate outside [(0.01, 0.99)], is [+inf] in all four
    coordinates, and every other proposal is the encoding of its
    coordinates. *)
Theorem encoder_output_proposals (self : DeformableDetrTransformer)
    (memory : etensor3) (memory_padding_mask : list (list bool))
    (spatial_shapes : list (nat * nat)) :
  spatial_shapes <> [] ->
  Forall (fun hw => 0 < fst hw /\ 0 < snd hw) spatial_shapes ->
  shaped (length memory_padding_mask) (total_keys spatial_shapes)
         memory_padding_mask ->
  shaped (length memory_padding_mask) (total_keys spatial_shapes) memory ->
  exists raw output_memory output_proposals,
    raw_proposals memory_padding_mask spatial_shapes = Ok raw /\
    gen_encoder_output_proposals self memory memory_padding_mask spatial_shapes
      = Ok (output_memory, output_proposals) /\
    shaped (length memory_padding_mask) (total_keys spatial_shapes) raw /\
    shaped (length memory_padding_mask) (total_keys spatial_shapes)
           output_proposals /\
    forall n, n < length memory_padding_mask ->
      let mask_n := nth n memory_padding_mask [] in
      (forall lvl H W h w,
         nth_error spatial_shapes lvl = Some (H, W) -> h < H -> w < W ->
         let cur := level_offset spatial_shapes lvl in
         let vW := count_false
                     (map (fun w' => nth (cur + w') mask_n false) (seq 0 W)) in
         let vH := count_false
                     (map (fun h' => nth (cur + h' * W) mask_n false) (seq 0 H)) in
         nth (cur + (h * W + w)) (nth n raw []) []
         = [ ediv (Fin (INR w + 5 / 10)) (Fin (INR vW));
             ediv (Fin (INR h + 5 / 10)) (Fin (INR vH));
             Fin (5 / 100 * 2 ^ lvl);
             Fin (5 / 100 * 2 ^ lvl) ]) /\
      (forall s, s < total_keys spatial_shapes ->
         nth s mask_n false = true \/
         Exists (fun c => ~ in_open_interval c) (nth s (nth n raw []) []) ->
         nth s (nth n output_proposals []) [] = [PInf; PInf; PInf; PInf]) /\
      (forall s, s < total_keys spatial_shapes ->
         nth s mask_n false = false ->
         Forall in_open_interval (nth s (nth n raw []) []) ->
         nth s (nth n output_proposals []) []
         = map logit_encode (nth s (nth n raw []) [])).
Proof.
  intros Hne Hpos Hmask Hmem.
  set (N := length memory_padding_mask) in *.
  set (nkeys := total_keys spatial_shapes) in *.
  destruct Hmask as [_ Hmask_rows].
  assert (Hmask : shaped N nkeys memory_padding_mask) by (split; [reflexivity | exact Hmask_rows]).
  destruct (raw_proposals_ok memory_padding_mask spatial_shapes Hne Hpos Hmask_rows)
    as (raw & Hraw & Hrawlen & Hrawn).
  assert (Hrs : shaped N nkeys raw).
  { split; [exact Hrawlen |]. apply Forall_nth. intros i d Hi.
    rewrite (nth_indep _ d []) by exact Hi.
    rewrite Hrawn by (unfold N in *; lia). apply level_blocks_length. }
  assert (Hrow4 : forall n s, n < N -> s < nkeys ->
                              length (nth s (nth n raw []) []) = 4).
  { intros n s Hn Hs. rewrite Hrawn by exact Hn.
    pose proof (level_blocks_rows (nth n memory_padding_mask []) spatial_shapes 0 0)
      as Hall.
    rewrite Forall_forall in Hall. apply Hall. apply nth_In.
    rewrite level_blocks_length. exact Hs. }
  set (valid := map (map proposal_valid) raw).
  set (lg := map (map (map logit_encode)) raw).
  assert (Hlg : shaped N nkeys lg) by (apply shaped_map2; exact Hrs).
  assert (Hneg : shaped N nkeys (map (map negb) valid))
    by (apply shaped_map2, shaped_map2; exact Hrs).
  set (o1 := zip_with (zip_with (fill_row PInf)) lg memory_padding_mask).
  assert (Ho1 : shaped N nkeys o1) by (apply shaped_fill; assumption).
  set (o2 := zip_with (zip_with (fill_row PInf)) o1 (map (map negb) valid)).
  assert (Ho2 : shaped N nkeys o2) by (apply shaped_fill; assumption).
  set (m1 := zip_with (zip_with (fill_row (Fin 0))) memory memory_padding_mask).
  assert (Hm1 : shaped N nkeys m1) by (apply shaped_fill; assumption).
  set (m2 := zip_with (zip_with (fill_row (Fin 0))) m1 (map (map negb) valid)).
  exists raw, (enc_output_norm self (enc_output self m2)), o2.
  split; [exact Hraw |]. split; [| split; [exact Hrs | split; [exact Ho2 |]]].
  { unfold gen_encoder_output_proposals.
    pose proof Hmem as [Hml _]. rewrite Hml. fold N. rewrite Nat.eqb_refl.
    rewrite Hraw. simpl.
    fold valid. fold lg.
    rewrite (masked_fill3_eq lg memory_padding_mask PInf)
      by (eapply shaped_Forall2; eassumption).
    simpl. fold o1.
    rewrite (masked_fill3_eq o1 (map (map negb) valid) PInf)
      by (eapply shaped_Forall2; eassumption).
    simpl. fold o2.
    rewrite (masked_fill3_eq memory memory_padding_mask (Fin 0))
      by (eapply shaped_Forall2; eassumption).
    simpl. fold m1.
    rewrite (masked_fill3_eq m1 (map (map negb) valid) (Fin 0))
      by (eapply shaped_Forall2; eassumption).
    reflexivity. }
  intros n Hn. cbv zeta.
  assert (Hout : forall s, s < nkeys ->
            nth s (nth n o2 []) []
            = fill_row PInf
                (fill_row PInf (map logit_encode (nth s (nth n raw []) []))
                          (nth s (nth n memory_padding_mask []) false))
                (negb (proposal_valid (nth s (nth n raw []) [])))).
  { intros s Hs. unfold o2, o1.
    rewrite (fill3_nth N nkeys) by assumption.
    rewrite (fill3_nth N nkeys) by assumption.
    pose proof (shaped_nth N nkeys raw n Hrs Hn) as Hrn.
    destruct Hrs as [Hrl _].
    unfold lg, valid.
    rewrite (nth_map_in _ _ _ _ []) by lia.
    rewrite (nth_map_in _ _ _ _ []) by lia.
    rewrite (nth_map_in _ _ _ _ []) by (rewrite length_map; lia).
    rewrite (nth_map_in _ _ _ _ false)
      by (rewrite (nth_map_in _ _ _ _ []) by lia; rewrite length_map; lia).
    rewrite (nth_map_in _ _ _ _ []) by lia.
    rewrite (nth_map_in _ _ _ _ []) by lia.
    reflexivity. }
  split; [| split].
  - intros lvl H W h w Hlvl Hh Hw.
    rewrite (Hrawn n Hn).
    rewrite (level_blocks_nth _ _ 0 0 lvl H W (h * W + w) [] Hlvl) by nia.
    rewrite image_level_proposals_nth by assumption.
    rewrite valid_W_slice, valid_H_slice by lia.
    reflexivity.
  - intros s Hs Hor. rewrite (Hout s Hs).
    pose proof (Hrow4 n s Hn Hs) as H4.
    destruct Hor as [Hm | Hinv].
    + rewrite Hm. rewrite (fill_row_inf (map logit_encode _))
        by (rewrite length_map; exact H4).
      destruct (negb _); reflexivity.
    + rewrite (proposal_valid_false _ Hinv). simpl negb.
      apply fill_row_inf.
      destruct (nth s (nth n memory_padding_mask []) false); simpl;
        rewrite !length_map; exact H4.
  - intros s Hs Hm Hval. rewrite (Hout s Hs), Hm.
    apply proposal_valid_true in Hval. rewrite Hval. reflexivity.
Qed.

Lemma encoder_output_proposals_witness :
  exists raw output_memory output_proposals,
    raw_proposals [[false; true; false; false]] [(2, 2)] = Ok raw /\
    gen_encoder_output_proposals
      {| enc_output := fun t => t; enc_output_norm := fun t => t |}
      [[[Fin 1]; [Fin 1]; [Fin 1]; [Fin 1]]]
      [[false; true; false; false]] [(2, 2)]
    = Ok (output_memory, output_proposals) /\
    nth 0 (nth 0 raw []) []
    = [ ediv (Fin (INR 0 + 5 / 10)) (Fin (INR 1));
        ediv (Fin (INR 0 + 5 / 10)) (Fin (INR 2));
        Fin (5 / 100 * 2 ^ 0); Fin (5 / 100 * 2 ^ 0) ] /\
    nth 1 (nth 0 output_proposals []) [] = [PInf; PInf; PInf; PInf].
Proof.
  destruct (encoder_output_proposals
              {| enc_output := fun t => t; enc_output_norm := fun t => t |}
              [[[Fin 1]; [Fin 1]; [Fin 1]; [Fin 1]]]
              [[false; true; false; false]] [(2, 2)])
    as (raw & om & op & Hraw & Hgen & _ & _ & Hn).
  - discriminate.
  - repeat constructor.
  - split; [reflexivity | repeat constructor].
  - split; [reflexivity | repeat constructor].
  - exists raw, om, op. split; [exact Hraw |]. split; [exact Hgen |].
    destruct (Hn 0) as (Ha & Hc & _); [simpl; lia |].
    split.
    + apply (Ha 0 2 2 0 0 eq_refl); lia.
    + apply (Hc 1); [simpl; lia |]. left. reflexivity.
Defined.

(* ------------------------------------------------------------------ *)
(** ** VectorQuantizer.forward *)

Lemma chunks_fuel_spec {A : Type} (d n : nat) :
  0 < d ->
  forall (fuel : nat) (l : list A),
    length l = n * d -> n <= fuel ->
    length (chunks_fuel fuel d l) = n /\
    Forall (fun c => length c = d) (chunks_fuel fuel d l) /\
    concat (chunks_fuel fuel d l) = l.
Proof.
  intros Hd. induction n as [| n IH]; intros fuel l Hl Hf.
  - destruct l; [| simpl in Hl; discriminate].
    destruct fuel; simpl; repeat split; constructor.
  - destruct fuel as [| fuel]; [lia |].
    destruct l as [| a l']; [simpl in Hl; lia |].
    set (l := a :: l') in *. simpl chunks_fuel. fold l.
    destruct (IH fuel (skipn d l)) as (H1 & H2 & H3).
    + rewrite length_skipn, Hl. simpl. lia.
    + lia.
    + repeat split.
      * simpl. rewrite H1. reflexivity.
      * constructor; [| exact H2].
        rewrite length_firstn, Hl. simpl. lia.
      * simpl. rewrite H3. apply firstn_skipn.
Qed.

Lemma chunks_spec {A : Type} (d n : nat) (l : list A) :
  0 < d -> length l = n * d ->
  length (chunks d l) = n /\
  Forall (fun c => length c = d) (chunks d l) /\
  concat (chunks d l) = l.
Proof.
  intros Hd Hl. unfold chunks. apply chunks_fuel_spec; try assumption.
  rewrite Hl. nia.
Qed.

Lemma firstn_app_exact {A : Type} (d : nat) (r l : list A) :
  length r = d -> firstn d (r ++ l) = r.
Proof.
  intros <-. induction r as [| a r IH]; simpl; [destruct l; reflexivity |].
  rewrite IH. reflexivity.
Qed.

Lemma skipn_app_exact {A : Type} (d : nat) (r l : list A) :
  length r = d -> skipn d (r ++ l) = l.
Proof.
  intros <-. induction r as [| a r IH]; simpl; [reflexivity | exact IH].
Qed.


Lemma concat_length_rows {A : Type} (d : nat) (rows : list (list A)) :
  Forall (fun r => length r = d) rows ->
  length (concat rows) = length rows * d.
Proof.
  intros H. induction H as [| r rs Hr _ IH]; simpl; [reflexivity |].
  rewrite length_app, IH, Hr. reflexivity.
Qed.


Lemma sq_dist_expand (x e : list R) :
  length x = length e ->
  (sum_sq x + sum_sq e - 2 * dot x e)%R = sq_dist x e.
Proof.
  revert e. induction x as [| a x IH]; intros [| b e] H; simpl in H;
    try discriminate.
  - unfold sum_sq, dot, sq_dist. simpl. lra.
  - assert (Hl : length x = length e) by lia. specialize (IH e Hl).
    unfold sum_sq, dot, sq_dist in *. simpl. lra.
Qed.

Lemma argmin_from_spec (xs pre : list R) (bi i : nat) (b : R) :
  i = length pre -> bi < i -> nth bi pre 0%R = b ->
  (forall j, j < i -> (b <= nth j pre 0)%R) ->
  let k := argmin_from bi b i xs in
  k < length (pre ++ xs) /\
  forall j, j < length (pre ++ xs) ->
            (nth k (pre ++ xs) 0 <= nth j (pre ++ xs) 0)%R.
Proof.
  revert pre bi i b.
  induction xs as [| x xs IH]; intros pre bi i b Hi Hbi Hb Hmin.
  - simpl. rewrite app_nil_r. split; [lia |].
    intros j Hj. rewrite Hb. apply Hmin. lia.
  - simpl argmin_from.
    change (x :: xs) with ([x] ++ xs). rewrite app_assoc.
    assert (Hlen : S i = length (pre ++ [x]))
      by (rewrite length_app; simpl; lia).
    assert (Hx : nth i (pre ++ [x]) 0%R = x)
      by (rewrite app_nth2 by lia; subst i; rewrite Nat.sub_diag; reflexivity).
    unfold Rltb. destruct (Rlt_dec x b) as [Hlt | Hge].
    + apply IH; [exact Hlen | lia | exact Hx |].
      intros j Hj.
      destruct (Nat.lt_ge_cases j i) as [Hj1 | Hj1].
      * rewrite app_nth1 by lia. specialize (Hmin j Hj1). lra.
      * replace j with i by lia. rewrite Hx. lra.
    + apply IH; [exact Hlen | lia | rewrite app_nth1 by lia; exact Hb |].
      intros j Hj.
      destruct (Nat.lt_ge_cases j i) as [Hj1 | Hj1].
      * rewrite app_nth1 by lia. apply Hmin. exact Hj1.
      * replace j with i by lia. rewrite Hx. lra.
Qed.

Lemma argmin_spec (l : list R) :
  l <> [] ->
  exists k, argmin l = Ok k /\ k < length l /\
            forall j, j < length l -> (nth k l 0 <= nth j l 0)%R.
Proof.
  intros Hne. destruct l as [| x xs]; [congruence |].
  exists (argmin_from 0 x 1 xs). split; [reflexivity |].
  apply (argmin_from_spec xs [x] 0 1 x).
  - reflexivity.
  - lia.
  - reflexivity.
  - intros j Hj. replace j with 0 by lia. simpl. lra.
Qed.

Lemma vadd_scale1_zeros (d : nat) (e : list R) :
  length e = d -> vadd (vscale 1 e) (repeat 0%R d) = e.
Proof.
  intros <-. unfold vadd, vscale.
  induction e as [| a e IH]; simpl; [reflexivity |].
  rewrite IH. f_equal. lra.
Qed.

Lemma vadd_scale0 (e r : list R) :
  length e = length r -> vadd (vscale 0 e) r = r.
Proof.
  revert r. unfold vadd, vscale.
  induction e as [| a e IH]; intros [| b r] H; simpl in H; try discriminate;
    simpl; [reflexivity |].
  rewrite IH by lia. f_equal. lra.
Qed.

Lemma one_hot_matmul_from (d : nat) (W : list (list R)) (a k : nat) :
  Forall (fun e => length e = d) W ->
  fold_right vadd (repeat 0%R d)
    (map (fun p : R * list R => vscale (fst p) (snd p))
         (combine (map (fun j => if j =? k then 1%R else 0%R) (seq a (length W)))
                  W))
  = if (a <=? k) && (k <? a + length W) then nth (k - a) W [] else repeat 0%R d.
Proof.
  intros HW. revert a. induction HW as [| e W He HW IH]; intros a.
  - simpl. replace (a + 0) with a by lia.
    destruct (a <=? k) eqn:H1; destruct (k <? a) eqn:H2; simpl; try reflexivity.
    apply Nat.leb_le in H1. apply Nat.ltb_lt in H2. lia.
  - simpl. rewrite IH.
    destruct (Nat.eqb_spec a k) as [Hak | Hak].
    + subst k.
      replace (S a <=? a) with false by (symmetry; apply Nat.leb_gt; lia).
      simpl andb.
      replace (a <=? a) with true by (symmetry; apply Nat.leb_le; lia).
      replace (a <? a + S (length W)) with true
        by (symmetry; apply Nat.ltb_lt; lia).
      simpl. rewrite Nat.sub_diag. apply vadd_scale1_zeros. exact He.
    + destruct (Nat.leb_spec (S a) k) as [H1 | H1];
        destruct (Nat.ltb_spec k (S a + length W)) as [H2 | H2]; simpl andb.
      * replace (a <=? k) with true by (symmetry; apply Nat.leb_le; lia).
        replace (k <? a + S (length W)) with true
          by (symmetry; apply Nat.ltb_lt; lia).
        simpl andb. replace (k - a) with (S (k - S a)) by lia. simpl nth.
        apply vadd_scale0. rewrite He.
        rewrite Forall_forall in HW. symmetry. apply HW. apply nth_In. lia.
      * replace (k <? a + S (length W)) with false
          by (symmetry; apply Nat.ltb_ge; lia).
        rewrite andb_false_r. apply vadd_scale0.
        rewrite repeat_length. exact He.
      * replace (a <=? k) with false by (symmetry; apply Nat.leb_gt; lia).
        simpl andb. apply vadd_scale0. rewrite repeat_length. exact He.
      * replace (a <=? k) with false by (symmetry; apply Nat.leb_gt; lia).
        simpl andb. apply vadd_scale0. rewrite repeat_length. exact He.
Qed.

Lemma one_hot_matmul (d : nat) (W : list (list R)) (k : nat) :
  Forall (fun e => length e = d) W -> k < length W ->
  row_matmul d (one_hot (length W) k) W = nth k W [].
Proof.
  intros HW Hk. unfold row_matmul, one_hot.
  rewrite (one_hot_matmul_from d W 0 k HW). simpl.
  replace (k <? length W) with true by (symmetry; apply Nat.ltb_lt; exact Hk).
  rewrite Nat.sub_0_r. reflexivity.
Qed.

Lemma straight_through (a b : list R) :
  length a = length b ->
  map (fun p : R * R => fst p + (snd p - fst p))%R (combine a b) = b.
Proof.
  revert b. induction a as [| x a IH]; intros [| y b] H; simpl in H;
    try discriminate; simpl; [reflexivity |].
  rewrite IH by lia. f_equal. lra.
Qed.


Lemma mapM_exists {A B : Type} (f : A -> result B) (P : A -> B -> Prop)
    (l : list A) :
  (forall x, In x l -> exists y, f x = Ok y /\ P x y) ->
  exists l', mapM f l = Ok l' /\ Forall2 P l l'.
Proof.
  induction l as [| x xs IH]; intros H.
  - exists []. split; [reflexivity | constructor].
  - destruct (H x (or_introl eq_refl)) as (y & Hy & Py).
    destruct IH as (ys & Hys & Pys); [intros z Hz; apply H; right; exact Hz |].
    exists (y :: ys). split; [simpl; rewrite Hy; simpl; rewrite Hys; reflexivity |].
    constructor; assumption.
Qed.


Lemma distances_row_nth (W : list (list R)) (x : list R) (d j : nat) :
  Forall (fun e => length e = d) W -> length x = d -> j < length W ->
  nth j (distances_row W x) 0%R = sq_dist x (nth j W []).
Proof.
  intros HW Hx Hj. unfold distances_row.
  rewrite (nth_map_in _ _ _ _ []) by exact Hj.
  apply sq_dist_expand. rewrite Hx. symmetry.
  rewrite Forall_forall in HW. apply HW. apply nth_In. exact Hj.
Qed.

(** With an empty codebook [argmin] has nothing to reduce over. *)
Lemma vq_forward_empty_codebook (self : VectorQuantizer) (inputs : rtensor)
    (rows : list (list R)) :
  _num_embeddings self = 0 ->
  view_rows (_embedding_dim self) inputs = Ok rows ->
  vq_forward self inputs = Raise IndexError.
Proof.
  intros HK Hview. unfold vq_forward. rewrite Hview, HK. reflexivity.
Qed.



(* ------------------------------------------------------------------ *)
(** ** AdaptivePadding, PatchEmbed and PatchMerging *)




Lemma pad_extent_nonneg (input kernel str dil : Z) :
  (0 <= pad_extent input kernel str dil)%Z.
Proof. unfold pad_extent. lia. Qed.


Lemma get_pad_shape_nonneg (self : AdaptivePadding) (shape : Z * Z) (ph pw : Z) :
  get_pad_shape self shape = Some (ph, pw) -> (0 <= ph)%Z /\ (0 <= pw)%Z.
Proof.
  unfold get_pad_shape. destruct shape as [h w].
  destruct (kernel_size self) as [kh kw], (stride self) as [sh sw].
  destruct ((sh =? 0)%Z || (sw =? 0)%Z); [discriminate |].
  intros [= <- <-]. split; apply pad_extent_nonneg.
Qed.

Lemma nth_repeat_lt {A : Type} (a d : A) (n i : nat) :
  i < n -> nth i (repeat a n) d = a.
Proof.
  intros Hi. rewrite (nth_indep _ d a) by (rewrite repeat_length; exact Hi).
  apply nth_repeat.
Qed.

Lemma nth_repeat_zero (n j : nat) : nth j (repeat 0%R n) 0%R = 0%R.
Proof. apply nth_repeat. Qed.

Lemma nth_pad_row (left right j : nat) (row : list R) :
  nth j (repeat 0%R left ++ row ++ repeat 0%R right) 0%R
  = if (left <=? j) && (j <? left + length row)
    then nth (j - left) row 0%R else 0%R.
Proof.
  destruct (Nat.leb_spec left j) as [Hl | Hl]; simpl.
  - rewrite app_nth2 by (rewrite repeat_length; lia). rewrite repeat_length.
    destruct (Nat.ltb_spec j (left + length row)) as [Hr | Hr].
    + rewrite app_nth1 by lia. reflexivity.
    + rewrite app_nth2 by lia. apply nth_repeat_zero.
  - rewrite app_nth1 by (rewrite repeat_length; lia). apply nth_repeat_zero.
Qed.

Lemma nth_pad_plane (W left right top bottom : nat) (plane : list (list R))
    (i j : nat) :
  Forall (fun row => length row = W) plane ->
  nth j (nth i (pad_plane W left right top bottom plane) []) 0%R
  = if (top <=? i) && (i <? top + length plane)
       && (left <=? j) && (j <? left + W)
    then nth (j - left) (nth (i - top) plane []) 0%R
    else 0%R.
Proof.
  intros Hrows. unfold pad_plane.
  destruct (Nat.leb_spec top i) as [Ht | Ht]; simpl.
  - rewrite app_nth2 by (rewrite repeat_length; lia). rewrite repeat_length.
    destruct (Nat.ltb_spec i (top + length plane)) as [Hb | Hb]; simpl.
    + rewrite app_nth1 by (rewrite length_map; lia).
      rewrite (nth_map_in _ _ _ _ []) by lia. rewrite nth_pad_row.
      assert (Hlen : length (nth (i - top) plane []) = W).
      { rewrite Forall_forall in Hrows. apply Hrows. apply nth_In. lia. }
      rewrite Hlen. reflexivity.
    + rewrite app_nth2 by (rewrite length_map; lia). rewrite length_map.
      destruct (Nat.ltb_spec (i - top - length plane) bottom) as [Hq | Hq].
      * rewrite nth_repeat_lt by exact Hq. apply nth_repeat_zero.
      * rewrite (nth_overflow (repeat _ bottom)) by (rewrite repeat_length; lia).
        destruct j; reflexivity.
  - rewrite app_nth1 by (rewrite repeat_length; lia).
    rewrite nth_repeat_lt by lia. apply nth_repeat_zero.
Qed.

Lemma nth_nth_nil {A : Type} (i j : nat) (d : A) :
  nth j (nth i (@nil (list A)) []) d = d.
Proof. destruct i, j; reflexivity. Qed.

Lemma nth_nth_nth_nil {A : Type} (c i j : nat) (d : A) :
  nth j (nth i (nth c (@nil (list (list A))) []) []) d = d.
Proof. destruct c, i, j; reflexivity. Qed.

Lemma pixel_pad_image (x : image) (left right top bottom b c i j : nat) :
  image_wf x ->
  pixel (pad_image x left right top bottom) b c i j
  = if (top <=? i) && (i <? top + im_H x)
       && (left <=? j) && (j <? left + im_W x)
    then pixel x b c (i - top) (j - left)
    else 0%R.
Proof.
  intros Hwf. unfold pixel, pad_image. cbn [planes].
  destruct (Nat.ltb_spec b (length (planes x))) as [Hb | Hb].
  - rewrite (nth_map_in _ _ _ _ []) by exact Hb.
    set (img := nth b (planes x) []).
    assert (Himg : Forall (plane_wf (im_H x) (im_W x)) img).
    { unfold image_wf in Hwf. rewrite Forall_forall in Hwf. apply Hwf.
      apply nth_In. exact Hb. }
    destruct (Nat.ltb_spec c (length img)) as [Hc | Hc].
    + rewrite (nth_map_in _ _ _ _ []) by exact Hc.
      rewrite Forall_forall in Himg.
      destruct (Himg (nth c img []) (nth_In _ _ Hc)) as [HH HW].
      rewrite nth_pad_plane by exact HW. rewrite HH. reflexivity.
    + rewrite (nth_overflow (map _ img)) by (rewrite length_map; exact Hc).
      rewrite (nth_overflow img) by exact Hc.
      rewrite !nth_nth_nil.
      destruct ((top <=? i) && (i <? top + im_H x)
                && (left <=? j) && (j <? left + im_W x)); reflexivity.
  - rewrite (nth_overflow (map _ (planes x))) by (rewrite length_map; exact Hb).
    rewrite (nth_overflow (planes x)) by exact Hb.
    rewrite !nth_nth_nth_nil.
    destruct ((top <=? i) && (i <? top + im_H x)
              && (left <=? j) && (j <? left + im_W x)); reflexivity.
Qed.

Lemma pixel_outside (x : image) (b c i j : nat) :
  image_wf x -> im_H x <= i \/ im_W x <= j -> pixel x b c i j = 0%R.
Proof.
  intros Hwf Hout. unfold pixel.
  destruct (Nat.ltb_spec b (length (planes x))) as [Hb | Hb].
  - set (img := nth b (planes x) []).
    assert (Himg : Forall (plane_wf (im_H x) (im_W x)) img).
    { unfold image_wf in Hwf. rewrite Forall_forall in Hwf. apply Hwf.
      apply nth_In. exact Hb. }
    destruct (Nat.ltb_spec c (length img)) as [Hc | Hc].
    + rewrite Forall_forall in Himg.
      destruct (Himg (nth c img []) (nth_In _ _ Hc)) as [HH HW].
      destruct (Nat.ltb_spec i (im_H x)) as [Hi | Hi].
      * rewrite Forall_forall in HW.
        apply nth_overflow. rewrite (HW (nth i (nth c img []) []));
          [lia | apply nth_In; lia].
      * rewrite (nth_overflow (nth c img [])) by lia. destruct j; reflexivity.
    + rewrite (nth_overflow img) by exact Hc. apply nth_nth_nil.
  - rewrite (nth_overflow (planes x)) by exact Hb. apply nth_nth_nth_nil.
Qed.







Lemma pad_plane_wf (W left right top bottom : nat) (plane : list (list R)) :
  Forall (fun row => length row = W) plane ->
  length (pad_plane W left right top bottom plane)
  = top + length plane + bottom /\
  Forall (fun row => length row = left + W + right)
         (pad_plane W left right top bottom plane).
Proof.
  intros Hrows. unfold pad_plane. split.
  - rewrite !length_app, !repeat_length, length_map. lia.
  - apply Forall_app. split; [| apply Forall_app; split].
    + apply Forall_forall. intros r Hr. apply repeat_spec in Hr. subst r.
      apply repeat_length.
    + apply Forall_map. eapply Forall_impl; [| exact Hrows].
      intros r Hr. cbn beta. rewrite !length_app, !repeat_length, Hr. lia.
    + apply Forall_forall. intros r Hr. apply repeat_spec in Hr. subst r.
      apply repeat_length.
Qed.

Lemma pad_image_wf (x : image) (left right top bottom : nat) :
  image_wf x -> image_wf (pad_image x left right top bottom).
Proof.
  unfold image_wf, pad_image. cbn [planes im_C im_H im_W]. intros Hwf.
  apply Forall_map. eapply Forall_impl; [| exact Hwf].
  intros img [HC Himg]. cbn beta. split; [rewrite length_map; exact HC |].
  apply Forall_map. eapply Forall_impl; [| exact Himg].
  intros plane [HH HW]. cbn beta.
  destruct (pad_plane_wf (im_W x) left right top bottom plane HW) as [Hl Hr].
  split; [rewrite Hl, HH; reflexivity | exact Hr].
Qed.

(** X4 (AdaptivePadding.forward): the result has [pad_h] more rows and
    [pad_w] more columns than the input, the sizes being those of
    [get_pad_shape]; the input is found unchanged in it, at the top
    left corner in mode "corner" and shifted by half the padding,
    rounded down, in mode "same"; every other entry is zero. *)
Theorem adaptive_padding_forward_window
    (self : AdaptivePadding) (x : image) (pad_h pad_w : Z) :
  image_wf x ->
  get_pad_shape self (Z.of_nat (im_H x), Z.of_nat (im_W x))
  = Some (pad_h, pad_w) ->
  let top := match padding self with
             | PadCorner => 0 | PadSame => Z.to_nat (pad_h / 2) end in
  let left := match padding self with
              | PadCorner => 0 | PadSame => Z.to_nat (pad_w / 2) end in
  exists y,
    adaptive_padding_forward self x = Some y /\
    image_wf y /\
    im_H y = im_H x + Z.to_nat pad_h /\
    im_W y = im_W x + Z.to_nat pad_w /\
    forall b c i j,
      pixel y b c i j
      = if (top <=? i) && (i <? top + im_H x)
           && (left <=? j) && (j <? left + im_W x)
        then pixel x b c (i - top) (j - left)
        else 0%R.
Proof.
  intros Hwf Hpad top left.
  destruct (get_pad_shape_nonneg _ _ _ _ Hpad) as [Hph Hpw].
  unfold adaptive_padding_forward. rewrite Hpad.
  destruct ((0 <? pad_h)%Z || (0 <? pad_w)%Z) eqn:Hpos.
  - subst top left. destruct (padding self).
    + eexists. split; [reflexivity |]. split; [apply pad_image_wf; exact Hwf |].
      cbn [pad_image im_H im_W].
      assert (Hh2 : (0 <= pad_h / 2 <= pad_h)%Z).
      { split; [apply Z.div_pos; lia | apply Z.div_le_upper_bound; lia]. }
      assert (Hw2 : (0 <= pad_w / 2 <= pad_w)%Z).
      { split; [apply Z.div_pos; lia | apply Z.div_le_upper_bound; lia]. }
      split; [lia |]. split; [lia |].
      intros b c i j. apply pixel_pad_image. exact Hwf.
    + eexists. split; [reflexivity |]. split; [apply pad_image_wf; exact Hwf |].
      cbn [pad_image im_H im_W].
      split; [lia |]. split; [lia |].
      intros b c i j. apply pixel_pad_image. exact Hwf.
  - apply orb_false_iff in Hpos. destruct Hpos as [Hh0 Hw0].
    apply Z.ltb_ge in Hh0, Hw0.
    assert (pad_h = 0%Z) by lia. assert (pad_w = 0%Z) by lia. subst pad_h pad_w.
    assert (top = 0) by (subst top; destruct (padding self); reflexivity).
    assert (left = 0) by (subst left; destruct (padding self); reflexivity).
    exists x. split; [reflexivity |]. split; [exact Hwf |].
    split; [simpl; lia |]. split; [simpl; lia |].
    intros b c i j. replace top with 0. replace left with 0.
    rewrite !Nat.sub_0_r. cbn [Nat.leb Nat.add andb].
    destruct (Nat.ltb_spec i (im_H x)) as [Hi | Hi];
      [destruct (Nat.ltb_spec j (im_W x)) as [Hj | Hj] |]; cbn [andb].
    + reflexivity.
    + apply pixel_outside; [exact Hwf | right; exact Hj].
    + apply pixel_outside; [exact Hwf | left; exact Hi].
Qed.

Lemma adaptive_padding_forward_window_witness :
  let self := Build_AdaptivePadding PadSame (4, 4)%Z (4, 4)%Z (1, 1)%Z in
  let x := Image 1 1 2 [[[[1%R; 2%R]]]] in
  exists y,
    adaptive_padding_forward self x = Some y /\
    image_wf y /\
    im_H y = 1 + Z.to_nat 3 /\
    im_W y = 2 + Z.to_nat 2 /\
    forall b c i j,
      pixel y b c i j
      = if (Z.to_nat (3 / 2) <=? i) && (i <? Z.to_nat (3 / 2) + 1)
           && (Z.to_nat (2 / 2) <=? j) && (j <? Z.to_nat (2 / 2) + 2)
        then pixel x b c (i - Z.to_nat (3 / 2)) (j - Z.to_nat (2 / 2))
        else 0%R.
Proof.
  intros self x.
  apply (adaptive_padding_forward_window self x 3 2).
  - unfold image_wf, plane_wf, x. simpl. repeat constructor.
  - reflexivity.
Defined.

(* ------------------------------------------------------------------ *)
(** ** nlc_to_nchw and nchw_to_nlc *)

Lemma columns_wf (n : nat) (m : list (list R)) :
  plane_wf n (length m) (columns n m).
Proof.
  unfold plane_wf, columns. split.
  - rewrite length_map, length_seq. reflexivity.
  - apply Forall_map. apply Forall_forall. intros c _. apply length_map.
Qed.

Lemma nth_columns (n : nat) (m : list (list R)) (c l : nat) :
  c < n -> l < length m ->
  nth l (nth c (columns n m) []) 0%R = nth c (nth l m []) 0%R.
Proof.
  intros Hc Hl. unfold columns.
  rewrite (nth_map_in _ _ _ _ 0) by (rewrite length_seq; exact Hc).
  rewrite seq_nth by exact Hc. cbn [Nat.add].
  rewrite (nth_map_in _ _ _ _ []) by exact Hl. reflexivity.
Qed.

Lemma plane_ext (H W : nat) (p q : list (list R)) :
  plane_wf H W p -> plane_wf H W q ->
  (forall i j, i < H -> j < W ->
     nth j (nth i p []) 0%R = nth j (nth i q []) 0%R) ->
  p = q.
Proof.
  intros [Hp HpW] [Hq HqW] Hnth.
  apply (nth_ext _ _ [] []); [congruence |].
  intros i Hi.
  assert (Hpi : length (nth i p []) = W).
  { rewrite Forall_forall in HpW. apply HpW, nth_In, Hi. }
  assert (Hqi : length (nth i q []) = W).
  { rewrite Forall_forall in HqW. apply HqW, nth_In. lia. }
  apply (nth_ext _ _ 0%R 0%R); [congruence |].
  intros j Hj. apply Hnth; lia.
Qed.

Lemma columns_columns (L C : nat) (m : list (list R)) :
  plane_wf L C m -> columns L (columns C m) = m.
Proof.
  intros Hm. pose proof Hm as [HL HC].
  apply (plane_ext L C); [| exact Hm |].
  - pose proof (columns_wf L (columns C m)) as Hw.
    destruct (columns_wf C m) as [Hlen _]. rewrite Hlen in Hw. exact Hw.
  - intros i j Hi Hj.
    rewrite nth_columns;
      [| exact Hi | destruct (columns_wf C m) as [-> _]; exact Hj].
    apply nth_columns; [exact Hj | lia].
Qed.

Lemma reshape_rows_wf (H W : nat) (v : list R) :
  length v = H * W -> plane_wf H W (reshape_rows H W v).
Proof.
  intros Hv. unfold plane_wf, reshape_rows. split.
  - rewrite length_map, length_seq. reflexivity.
  - apply Forall_map. apply Forall_forall. intros i Hi.
    apply in_seq in Hi. rewrite length_firstn, length_skipn. nia.
Qed.

Lemma nth_reshape_rows (H W : nat) (v : list R) (i j : nat) :
  i < H -> j < W ->
  nth j (nth i (reshape_rows H W v) []) 0%R = nth (i * W + j) v 0%R.
Proof.
  intros Hi Hj. unfold reshape_rows.
  rewrite (nth_map_in _ _ _ _ 0) by (rewrite length_seq; exact Hi).
  rewrite seq_nth by exact Hi. cbn [Nat.add].
  apply nth_slice. exact Hj.
Qed.

Lemma nth_concat_rows (W : nat) (rows : list (list R)) (i j : nat) :
  Forall (fun row => length row = W) rows -> j < W ->
  nth (i * W + j) (concat rows) 0%R = nth j (nth i rows []) 0%R.
Proof.
  intros Hrows Hj. revert i.
  induction Hrows as [| r rs Hr _ IH]; intros i.
  - rewrite nth_nth_nil. cbn [concat]. destruct (i * W + j); reflexivity.
  - destruct i as [| i]; cbn [concat nth].
    + rewrite app_nth1 by (simpl; lia). reflexivity.
    + rewrite app_nth2 by (simpl; lia).
      replace (S i * W + j - length r) with (i * W + j) by (simpl; lia).
      apply IH.
Qed.

Lemma reshape_rows_concat (H W : nat) (p : list (list R)) :
  plane_wf H W p -> reshape_rows H W (concat p) = p.
Proof.
  intros Hp. pose proof Hp as [HH HW].
  apply (plane_ext H W); [| exact Hp |].
  - apply reshape_rows_wf. rewrite (concat_length_rows W) by exact HW.
    rewrite HH. reflexivity.
  - intros i j Hi Hj. rewrite nth_reshape_rows by assumption.
    apply nth_concat_rows; assumption.
Qed.

Lemma concat_reshape_rows (H W : nat) (v : list R) :
  length v = H * W -> concat (reshape_rows H W v) = v.
Proof.
  intros Hv. pose proof (reshape_rows_wf H W v Hv) as [Hlen Hrows].
  apply (nth_ext _ _ 0%R 0%R).
  - rewrite (concat_length_rows W) by exact Hrows. rewrite Hlen, Hv. reflexivity.
  - intros n Hn. rewrite (concat_length_rows W) in Hn by exact Hrows.
    rewrite Hlen in Hn.
    assert (HW : 0 < W) by nia.
    rewrite (Nat.div_mod_eq n W) at 1.
    rewrite (Nat.mul_comm W (n / W)).
    pose proof (Nat.mod_upper_bound n W ltac:(lia)) as Hmod.
    assert (Hdiv : n / W < H).
    { apply Nat.Div0.div_lt_upper_bound. nia. }
    rewrite (nth_concat_rows W) by assumption.
    rewrite nth_reshape_rows by assumption.
    rewrite (Nat.mul_comm (n / W) W), <- Nat.div_mod_eq. reflexivity.
Qed.

Lemma map_id_in {A : Type} (f : A -> A) (l : list A) :
  (forall x, In x l -> f x = x) -> map f l = l.
Proof.
  intros Hf. induction l as [| a l IH]; simpl; [reflexivity |].
  rewrite Hf by (left; reflexivity). rewrite IH; [reflexivity |].
  intros x Hx. apply Hf. right. exact Hx.
Qed.

(** X5 (nchw_to_nlc, nlc_to_nchw): flattening a [N, C, H, W] tensor to
    [N, L, C] and converting it back with its own height and width
    returns the tensor it started from. *)
Theorem nlc_to_nchw_nchw_to_nlc (x : image) :
  image_wf x ->
  nlc_to_nchw (nchw_to_nlc x) (im_H x, im_W x) = Ok x.
Proof.
  intros Hwf. unfold nlc_to_nchw, nchw_to_nlc. cbn [nlc_L nlc_C tokens].
  rewrite Nat.eqb_refl. cbn [negb].
  destruct x as [C H W pl]. cbn [im_C im_H im_W planes] in *.
  f_equal. f_equal. rewrite map_map. apply map_id_in.
  intros img Himg. unfold image_wf in Hwf. cbn [im_C im_H im_W planes] in Hwf.
  rewrite Forall_forall in Hwf. destruct (Hwf img Himg) as [HC Hplanes].
  assert (Hflat : plane_wf C (H * W) (map (@concat R) img)).
  { split; [rewrite length_map; exact HC |].
    apply Forall_map. eapply Forall_impl; [| exact Hplanes].
    intros p [Hp HpW]. cbn beta.
    rewrite (concat_length_rows W) by exact HpW. rewrite Hp. reflexivity. }
  rewrite columns_columns by exact Hflat.
  rewrite map_map. apply map_id_in.
  intros p Hp. rewrite Forall_forall in Hplanes.
  apply reshape_rows_concat. apply Hplanes. exact Hp.
Qed.

Lemma nlc_to_nchw_nchw_to_nlc_witness :
  let x := Image 2 1 2 [[[[1%R; 2%R]]; [[3%R; 4%R]]]] in
  nlc_to_nchw (nchw_to_nlc x) (im_H x, im_W x) = Ok x.
Proof.
  intros x. apply (nlc_to_nchw_nchw_to_nlc x).
  unfold image_wf, plane_wf, x. simpl. repeat constructor.
Defined.

(** X6 (nlc_to_nchw, nchw_to_nlc): [nlc_to_nchw] raises an
    AssertionError unless the sequence length is [H * W]; when it is,
    the result has shape [N, C, H, W] and flattening it again gives the
    input back. *)
Theorem nchw_to_nlc_nlc_to_nchw (x : nlc) (H W : nat) :
  nlc_wf x ->
  match nlc_to_nchw x (H, W) with
  | Ok y =>
      nlc_L x = H * W /\
      im_C y = nlc_C x /\ im_H y = H /\ im_W y = W /\ image_wf y /\
      nchw_to_nlc y = x
  | Raise e => nlc_L x <> H * W /\ e = AssertionError
  end.
Proof.
  intros Hwf. unfold nlc_to_nchw.
  destruct (Nat.eqb_spec (nlc_L x) (H * W)) as [HL | HL]; cbn [negb];
    [| split; [exact HL | reflexivity]].
  destruct x as [L C tk]. cbn [nlc_L nlc_C tokens] in *. subst L.
  unfold nlc_wf in Hwf. cbn [nlc_L nlc_C tokens] in Hwf.
  rewrite Forall_forall in Hwf.
  split; [reflexivity |]. cbn [im_C im_H im_W].
  do 3 (split; [reflexivity |]). split.
  - unfold image_wf. cbn [im_C im_H im_W planes].
    apply Forall_map. apply Forall_forall. intros t Ht. cbn beta.
    destruct (columns_wf C t) as [Hlen Hrows].
    split; [rewrite length_map; exact Hlen |].
    apply Forall_map. eapply Forall_impl; [| exact Hrows].
    intros col Hcol. cbn beta. apply reshape_rows_wf.
    destruct (Hwf t Ht) as [Ht' _]. congruence.
  - unfold nchw_to_nlc. cbn [im_C im_H im_W planes]. f_equal.
    rewrite map_map. apply map_id_in. intros t Ht.
    destruct (Hwf t Ht) as [HtL HtC].
    rewrite map_map.
    rewrite (map_id_in (fun col => concat (reshape_rows H W col))).
    + apply columns_columns. split; assumption.
    + intros col Hcol. apply concat_reshape_rows.
      destruct (columns_wf C t) as [_ Hrows]. rewrite Forall_forall in Hrows.
      rewrite (Hrows col Hcol). exact HtL.
Qed.

Lemma nchw_to_nlc_nlc_to_nchw_witness :
  let x := Nlc 2 1 [[[1%R]; [2%R]]] in
  match nlc_to_nchw x (1, 2) with
  | Ok y =>
      nlc_L x = 1 * 2 /\
      im_C y = nlc_C x /\ im_H y = 1 /\ im_W y = 2 /\ image_wf y /\
      nchw_to_nlc y = x
  | Raise e => nlc_L x <> 1 * 2 /\ e = AssertionError
  end.
Proof.
  intros x. apply (nchw_to_nlc_nlc_to_nchw x 1 2).
  unfold nlc_wf, plane_wf, x. simpl. repeat constructor.
Defined.

(* ------------------------------------------------------------------ *)
(** ** get_valid_ratio, get_reference_points and level_start_index *)

Lemma Reqb_false (a b : R) : a <> b -> Reqb a b = false.
Proof. intros H. unfold Reqb. destruct (Req_dec_T a b); [contradiction | reflexivity]. Qed.

Lemma ediv_fin (x y : R) : y <> 0%R -> ediv (Fin x) (Fin y) = Fin (x / y).
Proof. intros Hy. unfold ediv. rewrite (Reqb_false y 0 Hy). reflexivity. Qed.

Lemma count_false_le (l : list bool) : count_false l <= length l.
Proof. unfold count_false. apply filter_length_le. Qed.

Lemma valid_W_le (W : nat) (m : list bool) : valid_W W m <= W.
Proof.
  unfold valid_W. etransitivity; [apply count_false_le |].
  unfold first_row. rewrite length_map, length_seq. reflexivity.
Qed.

Lemma valid_H_le (H W : nat) (m : list bool) : valid_H H W m <= H.
Proof.
  unfold valid_H. etransitivity; [apply count_false_le |].
  unfold first_column. rewrite length_map, length_seq. reflexivity.
Qed.

Lemma ratio_range (v n : nat) :
  0 < n -> v <= n ->
  (0 <= INR v / INR n <= 1)%R /\ (INR v / INR n * INR n = INR v)%R.
Proof.
  intros Hn Hv.
  assert (Hn' : (0 < INR n)%R) by (apply lt_0_INR; exact Hn).
  assert (Hv0 : (0 <= INR v)%R) by apply pos_INR.
  assert (Hv' : (INR v <= INR n)%R) by (apply le_INR; exact Hv).
  split; [split |].
  - apply Rmult_le_pos; [exact Hv0 | left; apply Rinv_0_lt_compat; exact Hn'].
  - apply (Rmult_le_reg_r (INR n)); [exact Hn' |].
    unfold Rdiv. rewrite Rmult_assoc, Rinv_l by lra. lra.
  - field. lra.
Qed.

(** X7 (DeformableDetrTransformer.get_valid_ratio): a mask with no row
    or no column raises an IndexError; otherwise both ratios of every
    image are finite and lie in [0, 1], and multiplied by the width and
    the height they give back the counts of unpadded entries of the
    first row and of the first column. *)
Theorem get_valid_ratio_range (H W : nat) (mask : list (list bool)) :
  match get_valid_ratio H W mask with
  | Ok rs =>
      0 < H /\ 0 < W /\ length rs = length mask /\
      forall n, n < length mask ->
        exists rw rh,
          nth n rs (NaN, NaN) = (Fin rw, Fin rh) /\
          (0 <= rw <= 1)%R /\ (0 <= rh <= 1)%R /\
          (rw * INR W = INR (valid_W W (nth n mask [])))%R /\
          (rh * INR H = INR (valid_H H W (nth n mask [])))%R
  | Raise e => (H = 0 \/ W = 0) /\ e = IndexError
  end.
Proof.
  unfold get_valid_ratio.
  destruct (Nat.eqb_spec W 0) as [HW | HW]; cbn [orb].
  { split; [right; exact HW | reflexivity]. }
  destruct (Nat.eqb_spec H 0) as [HH | HH].
  { split; [left; exact HH | reflexivity]. }
  split; [lia |]. split; [lia |]. split; [apply length_map |].
  intros n Hn. rewrite (nth_map_in _ _ _ _ []) by exact Hn. cbv zeta.
  set (m := nth n mask []).
  destruct (ratio_range (valid_W W m) W ltac:(lia) (valid_W_le W m)) as [Hw1 Hw2].
  destruct (ratio_range (valid_H H W m) H ltac:(lia) (valid_H_le H W m)) as [Hh1 Hh2].
  exists (INR (valid_W W m) / INR W)%R, (INR (valid_H H W m) / INR H)%R.
  rewrite !ediv_fin by (apply not_0_INR; lia).
  repeat split; try tauto; assumption.
Qed.

Lemma cumsum_nat_length (acc : nat) (l : list nat) :
  length (cumsum_nat acc l) = length l.
Proof.
  revert acc. induction l as [| x xs IH]; intros acc; simpl;
    [reflexivity | rewrite IH; reflexivity].
Qed.

Lemma cumsum_nat_nth (acc : nat) (ss : list (nat * nat)) (i : nat) :
  i < length ss ->
  nth i (cumsum_nat acc (map (fun hw => fst hw * snd hw) ss)) 0
  = acc + level_offset ss (S i).
Proof.
  revert acc i. induction ss as [| [H W] rest IH]; intros acc i Hi;
    [simpl in Hi; lia |].
  rewrite level_offset_S. cbn [map cumsum_nat fst snd].
  destruct i as [| i].
  - cbn [nth]. unfold level_offset. simpl. lia.
  - cbn [nth]. simpl in Hi. rewrite IH by lia. lia.
Qed.

Lemma nth_removelast {A : Type} (l : list A) (i : nat) (d : A) :
  S i < length l -> nth i (removelast l) d = nth i l d.
Proof.
  revert i. induction l as [| a l IH]; intros i Hi; [simpl in Hi; lia |].
  destruct l as [| b l]; [simpl in Hi; lia |].
  destruct i as [| i]; [reflexivity |].
  cbn [removelast nth]. cbn [removelast] in IH. apply IH. simpl in *. lia.
Qed.

Lemma removelast_length {A : Type} (l : list A) :
  length (removelast l) = length l - 1.
Proof.
  induction l as [| a l IH]; [reflexivity |].
  destruct l as [| b l]; [reflexivity |].
  cbn [removelast length] in *. rewrite IH. lia.
Qed.

(** X8 (DeformableDetrTransformer.forward): [level_start_index] has one
    entry per level, and the entry of a level is the number of keys of
    the levels before it, which is the offset [_cur] at which
    [gen_encoder_output_proposals] reads that level. *)
Theorem level_start_index_offsets (spatial_shapes : list (nat * nat)) (lvl : nat) :
  lvl < length spatial_shapes ->
  length (level_start_index spatial_shapes) = length spatial_shapes /\
  nth lvl (level_start_index spatial_shapes) 0
  = level_offset spatial_shapes lvl.
Proof.
  intros Hl. unfold level_start_index. split.
  - cbn [length]. rewrite removelast_length, cumsum_nat_length, length_map. lia.
  - destruct lvl as [| i]; [reflexivity |].
    cbn [nth]. rewrite nth_removelast
      by (rewrite cumsum_nat_length, length_map; exact Hl).
    rewrite cumsum_nat_nth by lia. reflexivity.
Qed.

Lemma level_start_index_offsets_witness :
  length (level_start_index [(2, 3); (1, 1); (4, 2)]) = 3 /\
  nth 2 (level_start_index [(2, 3); (1, 1); (4, 2)]) 0
  = level_offset [(2, 3); (1, 1); (4, 2)] 2.
Proof.
  apply (level_start_index_offsets [(2, 3); (1, 1); (4, 2)] 2). simpl. lia.
Defined.

Lemma image_level_reference_length (H W : nat) (r : ereal * ereal) :
  length (image_level_reference H W r) = H * W.
Proof.
  unfold image_level_reference. rewrite rows_length, length_seq. reflexivity.
Qed.

Lemma image_level_reference_nth (H W : nat) (r : ereal * ereal) (h w : nat)
    (d : list ereal) :
  h < H -> w < W ->
  nth (h * W + w) (image_level_reference H W r) d
  = [ ediv (Fin (linspace_half w)) (emul (fst r) (Fin (INR W)));
      ediv (Fin (linspace_half h)) (emul (snd r) (Fin (INR H))) ].
Proof.
  intros Hh Hw. unfold image_level_reference.
  rewrite (rows_nth (fun h w =>
             [ ediv (Fin (linspace_half w)) (emul (fst r) (Fin (INR W)));
               ediv (Fin (linspace_half h)) (emul (snd r) (Fin (INR H))) ]))
    by assumption.
  reflexivity.
Qed.

Lemma reference_blocks_length (r : list (ereal * ereal)) (ss : list (nat * nat))
    (lvl : nat) :
  length (concat (reference_blocks r lvl ss)) = total_keys ss.
Proof.
  revert lvl. induction ss as [| [H W] rest IH]; intros lvl; simpl;
    [reflexivity |].
  rewrite length_app, image_level_reference_length, IH. reflexivity.
Qed.

Lemma reference_blocks_nth (r : list (ereal * ereal)) (ss : list (nat * nat))
    (lvl i H W j : nat) (d : list ereal) :
  nth_error ss i = Some (H, W) -> j < H * W ->
  nth (level_offset ss i + j) (concat (reference_blocks r lvl ss)) d
  = nth j (image_level_reference H W (nth (lvl + i) r (NaN, NaN))) d.
Proof.
  revert lvl i. induction ss as [| [H0 W0] rest IH]; intros lvl i Hi Hj.
  - destruct i; discriminate.
  - destruct i as [| i]; simpl in Hi.
    + inversion Hi; subst H0 W0. simpl concat.
      unfold level_offset. simpl firstn. simpl total_keys.
      rewrite app_nth1 by (rewrite image_level_reference_length; exact Hj).
      rewrite !Nat.add_0_r. reflexivity.
    + rewrite level_offset_S. simpl concat.
      rewrite app_nth2 by (rewrite image_level_reference_length; lia).
      rewrite image_level_reference_length.
      replace (H0 * W0 + level_offset rest i + j - H0 * W0)
        with (level_offset rest i + j) by lia.
      rewrite (IH (S lvl) i Hi Hj).
      replace (S lvl + i) with (lvl + S i) by lia.
      reflexivity.
Qed.

Lemma level_offset_bound (ss : list (nat * nat)) (i H W : nat) :
  nth_error ss i = Some (H, W) -> level_offset ss i + H * W <= total_keys ss.
Proof.
  revert i. induction ss as [| [H0 W0] rest IH]; intros i Hi.
  - destruct i; discriminate.
  - destruct i as [| i]; simpl in Hi.
    + inversion Hi; subst. unfold level_offset. simpl. lia.
    + rewrite level_offset_S. specialize (IH i Hi). simpl. lia.
Qed.

Lemma reference_points_loop_ok (vr : ratios) (ss : list (nat * nat)) (lvl : nat) :
  lvl + length ss <= num_levels vr ->
  exists refs,
    reference_points_loop vr lvl ss = Ok refs /\
    forall n, n < length (ratio vr) ->
      map (fun part => nth n part []) refs
      = reference_blocks (nth n (ratio vr) []) lvl ss.
Proof.
  revert lvl. induction ss as [| [H W] rest IH]; intros lvl Hlen.
  - exists []. split; reflexivity.
  - simpl in Hlen. destruct (IH (S lvl) ltac:(lia)) as (refs & Hrefs & Hnth).
    eexists. split.
    + cbn [reference_points_loop].
      destruct (Nat.leb_spec (num_levels vr) lvl); [lia |].
      rewrite Hrefs. reflexivity.
    + intros n Hn. cbn [map reference_blocks]. rewrite (Hnth n Hn).
      rewrite (nth_map_in _ _ _ _ []) by exact Hn. reflexivity.
Qed.

(** X9 (DeformableDetrTransformer.get_reference_points): there is one
    reference point per key and level; at the level a key belongs to,
    its reference point is the centre of its pixel in normalised
    coordinates, [((w + 0.5) / W, (h + 0.5) / H)], whatever the valid
    ratios of that level are, as long as they are finite and not
    zero. *)
Theorem reference_point_own_level
    (spatial_shapes : list (nat * nat)) (valid_ratios : ratios)
    (n lvl H W h w : nat) (rw rh : R) :
  ratios_wf valid_ratios ->
  num_levels valid_ratios = length spatial_shapes ->
  n < length (ratio valid_ratios) ->
  nth_error spatial_shapes lvl = Some (H, W) ->
  h < H -> w < W ->
  nth lvl (nth n (ratio valid_ratios) []) (NaN, NaN) = (Fin rw, Fin rh) ->
  rw <> 0%R -> rh <> 0%R ->
  exists reference_points,
    get_reference_points spatial_shapes valid_ratios = Ok reference_points /\
    length reference_points = length (ratio valid_ratios) /\
    length (nth n reference_points []) = total_keys spatial_shapes /\
    Forall (fun p => length p = length spatial_shapes)
           (nth n reference_points []) /\
    nth lvl (nth (level_offset spatial_shapes lvl + (h * W + w))
                 (nth n reference_points []) []) []
    = [ Fin ((INR w + 5 / 10) / INR W); Fin ((INR h + 5 / 10) / INR H) ].
Proof.
  intros Hwf HL Hn Hlvl Hh Hw Hr Hrw Hrh.
  destruct (reference_points_loop_ok valid_ratios spatial_shapes 0)
    as (refs & Hrefs & Hparts); [lia |].
  set (bs := length (ratio valid_ratios)) in *.
  set (cat := cat_dim1 bs refs).
  assert (Hcatlen : length cat = bs)
    by (unfold cat, cat_dim1; rewrite length_map, length_seq; reflexivity).
  assert (Hcatn : nth n cat []
                  = concat (reference_blocks (nth n (ratio valid_ratios) []) 0
                                             spatial_shapes)).
  { unfold cat, cat_dim1.
    rewrite (nth_map_in _ _ _ _ 0) by (rewrite length_seq; exact Hn).
    rewrite seq_nth by exact Hn. cbn [Nat.add].
    rewrite flat_map_concat_map, (Hparts n Hn). reflexivity. }
  exists (zip_with scale_by_ratios cat (ratio valid_ratios)).
  assert (Hrow : nth n (zip_with scale_by_ratios cat (ratio valid_ratios)) []
                 = scale_by_ratios (nth n cat []) (nth n (ratio valid_ratios) [])).
  { apply nth_zip_with; [rewrite Hcatlen; exact Hn | exact Hcatlen]. }
  assert (Hrl : length (nth n (ratio valid_ratios) []) = length spatial_shapes).
  { unfold ratios_wf in Hwf. rewrite Forall_forall in Hwf.
    rewrite (Hwf _ (nth_In _ _ Hn)). exact HL. }
  assert (Hlt : lvl < length spatial_shapes).
  { apply nth_error_Some. rewrite Hlvl. discriminate. }
  split; [| split; [| split; [| split]]].
  - unfold get_reference_points.
    destruct spatial_shapes as [| s0 ss0]; [simpl in Hlt; lia |].
    rewrite Hrefs. reflexivity.
  - rewrite zip_with_length by exact Hcatlen. exact Hcatlen.
  - rewrite Hrow. unfold scale_by_ratios. rewrite length_map, Hcatn.
    apply reference_blocks_length.
  - rewrite Hrow. unfold scale_by_ratios. apply Forall_map.
    apply Forall_forall. intros ref _. rewrite length_map. exact Hrl.
  - rewrite Hrow. unfold scale_by_ratios.
    pose proof (level_offset_bound _ _ _ _ Hlvl) as Hbound.
    assert (Hj : h * W + w < H * W) by nia.
    rewrite (nth_map_in _ _ _ _ [])
      by (rewrite Hcatn, reference_blocks_length; lia).
    rewrite (nth_map_in _ _ _ _ (NaN, NaN)) by (rewrite Hrl; exact Hlt).
    rewrite Hcatn.
    rewrite (reference_blocks_nth _ _ 0 lvl H W) by assumption.
    rewrite image_level_reference_nth by assumption.
    cbn [Nat.add]. rewrite Hr. cbn [fst snd nth emul].
    assert (HW : INR W <> 0%R) by (apply not_0_INR; lia).
    assert (HH : INR H <> 0%R) by (apply not_0_INR; lia).
    rewrite !ediv_fin by (apply Rmult_integral_contrapositive_currified; assumption).
    cbn [emul]. unfold linspace_half. f_equal; [| f_equal]; f_equal; field;
      split; assumption.
Qed.

Lemma reference_point_own_level_witness :
  let vr := Ratios 1 [[(Fin 1, Fin 1)]] in
  exists reference_points,
    get_reference_points [(1, 2)] vr = Ok reference_points /\
    length reference_points = length (ratio vr) /\
    length (nth 0 reference_points []) = total_keys [(1, 2)] /\
    Forall (fun p => length p = length [(1, 2)]) (nth 0 reference_points []) /\
    nth 0 (nth (level_offset [(1, 2)] 0 + (0 * 2 + 1))
               (nth 0 reference_points []) []) []
    = [ Fin ((INR 1 + 5 / 10) / INR 2); Fin ((INR 0 + 5 / 10) / INR 1) ].
Proof.
  intros vr.
  apply (reference_point_own_level [(1, 2)] vr 0 0 1 2 0 1 1 1).
  - unfold ratios_wf, vr. simpl. repeat constructor.
  - reflexivity.
  - simpl. lia.
  - reflexivity.
  - lia.
  - lia.
  - reflexivity.
  - lra.
  - lra.
Defined.

(* ------------------------------------------------------------------ *)
(** ** DeformableDetrTransformerDecoder.forward: further properties *)

Lemma last_cons {A : Type} (a d : A) (l : list A) :
  last (a :: l) d = last l a.
Proof.
  revert a d. induction l as [| b l IH]; intros a d; [reflexivity |].
  change (last (a :: b :: l) d) with (last (b :: l) d).
  rewrite !IH. reflexivity.
Qed.

Lemma decoder_layers_loop_no_branches
    (self : DeformableDetrTransformerDecoder) (valid_ratios : tensor3)
    (rpi : tensor4) (ls : list (tensor3 -> tensor4 -> tensor3))
    (lid : nat) (st : decoder_state) :
  reference_points_input (reference_points st) valid_ratios = Ok rpi ->
  decoder_layers_loop self valid_ratios None lid ls st
  = Ok (DecoderState
          (last (layer_outputs rpi (output st) ls) (output st))
          (reference_points st)
          (if return_intermediate self
           then intermediate st ++ layer_outputs rpi (output st) ls
           else intermediate st)
          (if return_intermediate self
           then intermediate_reference_points st
                ++ repeat (reference_points st) (length ls)
           else intermediate_reference_points st)).
Proof.
  revert lid st. induction ls as [| layer ls IH]; intros lid st Hrpi.
  - cbn [decoder_layers_loop layer_outputs last length repeat].
    rewrite !app_nil_r. destruct st; destruct (return_intermediate self);
      reflexivity.
  - cbn [decoder_layers_loop]. unfold decoder_layer_step. rewrite Hrpi.
    cbn [bind].
    set (out' := permute102 (permute102 (layer (output st) rpi))).
    assert (Hlast : last (layer_outputs rpi (output st) (layer :: ls)) (output st)
                    = last (layer_outputs rpi out' ls) out').
    { cbn [layer_outputs]. fold out'. apply last_cons. }
    destruct (return_intermediate self) eqn:Hri; cbn [bind].
    + rewrite IH by exact Hrpi.
      cbn [output reference_points intermediate intermediate_reference_points].
      rewrite Hlast. cbn [layer_outputs length repeat]. fold out'.
      rewrite <- !app_assoc. reflexivity.
    + rewrite IH by exact Hrpi.
      cbn [output reference_points intermediate intermediate_reference_points].
      rewrite Hlast. reflexivity.
Qed.

Lemma stackable_repeat (p : points) (n : nat) :
  stackable (repeat p n) = negb (n =? 0).
Proof.
  destruct n as [| n]; [reflexivity |]. cbn [repeat stackable Nat.eqb negb].
  induction n as [| n IH]; [reflexivity |].
  cbn [repeat forallb]. rewrite Nat.eqb_refl. exact IH.
Qed.

(** X10 (DeformableDetrTransformerDecoder.forward): without
    [reg_branches] the reference points are never refined: every layer
    is given the same [reference_points_input], the reference points
    returned, and each of the intermediate ones, are the initial ones,
    and the outputs are those of the layers applied one after the
    other.  With [return_intermediate] and no layer the stacking
    fails. *)
Theorem decoder_forward_without_reg_branches
    (self : DeformableDetrTransformerDecoder) (query : tensor3)
    (reference_points0 : points) (valid_ratios : tensor3) (rpi : tensor4) :
  reference_points_input reference_points0 valid_ratios = Ok rpi ->
  let outs := layer_outputs rpi query (layers self) in
  decoder_forward self query reference_points0 valid_ratios None
  = if return_intermediate self then
      match layers self with
      | [] => Raise RuntimeError
      | _ => Ok (Stacked outs (repeat reference_points0 (length (layers self))))
      end
    else Ok (Last (last outs query) reference_points0).
Proof.
  intros Hrpi outs. unfold decoder_forward.
  rewrite (decoder_layers_loop_no_branches self valid_ratios rpi) by exact Hrpi.
  cbn [bind output reference_points intermediate intermediate_reference_points
       app].
  destruct (return_intermediate self); [| reflexivity].
  rewrite stackable_repeat. destruct (layers self); reflexivity.
Qed.

Lemma decoder_forward_without_reg_branches_witness :
  let rp := Points 2 [[[1 / 2; 1 / 2]%R]] false in
  exists rpi,
    reference_points_input rp [[[1; 1]%R]] = Ok rpi /\
    decoder_forward one_layer_decoder [[[0%R]]] rp [[[1; 1]%R]] None
    = if return_intermediate one_layer_decoder then
        match layers one_layer_decoder with
        | [] => Raise RuntimeError
        | _ => Ok (Stacked (layer_outputs rpi [[[0%R]]] (layers one_layer_decoder))
                           (repeat rp (length (layers one_layer_decoder))))
        end
      else Ok (Last (last (layer_outputs rpi [[[0%R]]] (layers one_layer_decoder))
                          [[[0%R]]]) rp).
Proof.
  intros rp. eexists. split; [reflexivity |].
  apply (decoder_forward_without_reg_branches one_layer_decoder [[[0%R]]] rp
           [[[1; 1]%R]]).
  reflexivity.
Defined.

Lemma decoder_layers_loop_counts
    (self : DeformableDetrTransformerDecoder) (valid_ratios : tensor3)
    (reg_branches : option (list (tensor3 -> points)))
    (ls : list (tensor3 -> tensor4 -> tensor3)) (lid : nat)
    (st st' : decoder_state) :
  decoder_layers_loop self valid_ratios reg_branches lid ls st = Ok st' ->
  let k := if return_intermediate self then length ls else 0 in
  length (intermediate st') = length (intermediate st) + k /\
  length (intermediate_reference_points st')
  = length (intermediate_reference_points st) + k /\
  (reg_branches <> None ->
   Forall (fun p => requires_grad p = false) (intermediate_reference_points st) ->
   Forall (fun p => requires_grad p = false) (intermediate_reference_points st')) /\
  (ls <> [] ->
   lid + length ls <= match reg_branches with
                      | Some branches => length branches
                      | None => lid + length ls
                      end).
Proof.
  revert lid st. induction ls as [| layer ls IH]; intros lid st Hrun k.
  - cbn [decoder_layers_loop] in Hrun. inversion Hrun; subst st'. subst k.
    destruct (return_intermediate self); cbn [length];
      (split; [lia | split; [lia | split; [intros _ H; exact H |]]]);
      congruence.
  - cbn [decoder_layers_loop] in Hrun.
    destruct (decoder_layer_step self valid_ratios reg_branches lid layer st)
      as [st1 | e] eqn:Hstep; [| discriminate Hrun].
    cbn [bind] in Hrun. specialize (IH (S lid) st1 Hrun).
    cbv zeta in IH. destruct IH as (Hi & Hr & Hg & Hb).
    unfold decoder_layer_step in Hstep.
    destruct (reference_points_input (reference_points st) valid_ratios)
      as [rpi | e]; [| discriminate Hstep].
    cbn [bind] in Hstep.
    assert (Hbranch : exists ref,
              (match reg_branches with
               | Some branches =>
                   match nth_error branches lid with
                   | Some branch =>
                       new <- new_reference_points
                                (branch (permute102 (layer (output st) rpi)))
                                (reference_points st) ;;
                       Ok (detach new)
                   | None => Raise IndexError
                   end
               | None => Ok (reference_points st)
               end) = Ok ref /\
              (reg_branches <> None -> requires_grad ref = false) /\
              st1 = if return_intermediate self then
                      DecoderState (permute102 (permute102 (layer (output st) rpi)))
                        ref
                        (intermediate st
                         ++ [permute102 (permute102 (layer (output st) rpi))])
                        (intermediate_reference_points st ++ [ref])
                    else
                      DecoderState (permute102 (permute102 (layer (output st) rpi)))
                        ref (intermediate st) (intermediate_reference_points st)).
    { destruct reg_branches as [branches |].
      - destruct (nth_error branches lid) as [branch |]; [| discriminate Hstep].
        destruct (new_reference_points
                    (branch (permute102 (layer (output st) rpi)))
                    (reference_points st)) as [new | e];
          [| discriminate Hstep].
        cbn [bind] in Hstep. exists (detach new).
        split; [reflexivity |]. split; [intros _; reflexivity |].
        destruct (return_intermediate self); inversion Hstep; reflexivity.
      - cbn [bind] in Hstep. exists (reference_points st).
        split; [reflexivity |]. split; [intros H; congruence |].
        destruct (return_intermediate self); inversion Hstep; reflexivity. }
    destruct Hbranch as (ref & Href & Hgrad & Hst1).
    assert (Hidx : lid < match reg_branches with
                         | Some branches => length branches
                         | None => S lid
                         end).
    { destruct reg_branches as [branches |]; [| lia].
      destruct (nth_error branches lid) eqn:Hnth; [| discriminate Href].
      apply nth_error_Some. congruence. }
    subst k. destruct (return_intermediate self); subst st1;
      cbn [intermediate intermediate_reference_points length] in *;
      rewrite ?length_app in *; cbn [length] in *.
    + split; [lia |]. split; [lia |]. split.
      * intros Hsome Hall. apply Hg; [exact Hsome |].
        apply Forall_app. split; [exact Hall |].
        constructor; [apply Hgrad; exact Hsome | constructor].
      * intros _. destruct ls as [| l0 ls0]; [destruct reg_branches; simpl; lia |].
        specialize (Hb ltac:(discriminate)).
        destruct reg_branches; cbn [length] in *; lia.
    + split; [lia |]. split; [lia |]. split.
      * intros Hsome Hall. apply Hg; assumption.
      * intros _. destruct ls as [| l0 ls0]; [destruct reg_branches; simpl; lia |].
        specialize (Hb ltac:(discriminate)).
        destruct reg_branches; cbn [length] in *; lia.
Qed.

(** X11 (DeformableDetrTransformerDecoder.forward): a stacked result is
    returned only with [return_intermediate] and at least one layer, and
    holds one output and one reference-point tensor per layer; when
    [reg_branches] is given it has at least as many branches as there
    are layers and every stacked reference-point tensor is detached.  A
    single output is returned only without [return_intermediate]. *)
Theorem decoder_forward_stacks_every_layer
    (self : DeformableDetrTransformerDecoder) (query : tensor3)
    (reference_points0 : points) (valid_ratios : tensor3)
    (reg_branches : option (list (tensor3 -> points))) (res : decoder_output) :
  decoder_forward self query reference_points0 valid_ratios reg_branches
  = Ok res ->
  match res with
  | Stacked inter inter_refs =>
      return_intermediate self = true /\
      layers self <> [] /\
      length inter = length (layers self) /\
      length inter_refs = length (layers self) /\
      match reg_branches with
      | Some branches =>
          length (layers self) <= length branches /\
          Forall (fun p => requires_grad p = false) inter_refs
      | None => True
      end
  | Last _ _ => return_intermediate self = false
  end.
Proof.
  unfold decoder_forward. intros Hrun.
  destruct (decoder_layers_loop self valid_ratios reg_branches 0 (layers self)
              (DecoderState query reference_points0 [] [])) as [st | e] eqn:Hloop;
    [| discriminate Hrun].
  cbn [bind] in Hrun.
  pose proof (decoder_layers_loop_counts _ _ _ _ _ _ _ Hloop) as Hc.
  cbv zeta in Hc. cbn [intermediate intermediate_reference_points length] in Hc.
  destruct Hc as (Hi & Hr & Hg & Hb).
  destruct (return_intermediate self) eqn:Hri.
  - destruct (stackable (intermediate_reference_points st)) eqn:Hstack;
      [| discriminate Hrun].
    inversion Hrun; subst res. split; [reflexivity |]. split.
    + intros Hnil. rewrite Hnil in Hr. cbn [length] in Hr.
      destruct (intermediate_reference_points st); [discriminate Hstack |].
      discriminate Hr.
    + split; [lia |]. split; [lia |].
      destruct reg_branches as [branches |]; [| exact I].
      split; [| apply Hg; [discriminate | constructor]].
      destruct (layers self) as [| l0 ls0]; [cbn [length]; lia |].
      specialize (Hb ltac:(discriminate)). cbn [length Nat.add] in *. lia.
  - inversion Hrun; subst res. reflexivity.
Qed.

Lemma decoder_forward_stacks_every_layer_witness :
  match Stacked [[[[0%R]]]] [Points 2 [[[1 / 2; 1 / 2]%R]] false] with
  | Stacked inter inter_refs =>
      return_intermediate one_layer_decoder = true /\
      layers one_layer_decoder <> [] /\
      length inter = length (layers one_layer_decoder) /\
      length inter_refs = length (layers one_layer_decoder) /\
      True
  | Last _ _ => return_intermediate one_layer_decoder = false
  end.
Proof.
  apply (decoder_forward_stacks_every_layer one_layer_decoder [[[0%R]]]
           (Points 2 [[[1 / 2; 1 / 2]%R]] false) [[[1; 1]%R]] None).
  reflexivity.
Defined.

(** X12 (DeformableDetrTransformerDecoder.forward): with at least one
    layer, reference points whose last dimension is neither 4 nor 2 fail
    the assertion of the first layer, whatever the other arguments
    are. *)
Theorem decoder_forward_asserts_coords
    (self : DeformableDetrTransformerDecoder) (query : tensor3)
    (reference_points0 : points) (valid_ratios : tensor3)
    (reg_branches : option (list (tensor3 -> points))) :
  layers self <> [] ->
  coords reference_points0 <> 4 -> coords reference_points0 <> 2 ->
  decoder_forward self query reference_points0 valid_ratios reg_branches
  = Raise AssertionError.
Proof.
  intros Hl H4 H2. unfold decoder_forward.
  destruct (layers self) as [| layer ls]; [congruence |].
  cbn [decoder_layers_loop]. unfold decoder_layer_step, reference_points_input.
  cbn [reference_points].
  destruct (Nat.eqb_spec (coords reference_points0) 4); [contradiction |].
  destruct (Nat.eqb_spec (coords reference_points0) 2); [contradiction |].
  reflexivity.
Qed.

Lemma decoder_forward_asserts_coords_witness :
  decoder_forward one_layer_decoder [[[0%R]]] (Points 3 [[[0; 0; 0]%R]] false)
                  [[[1; 1]%R]] None
  = Raise AssertionError.
Proof.
  apply (decoder_forward_asserts_coords one_layer_decoder [[[0%R]]]
           (Points 3 [[[0; 0; 0]%R]] false) [[[1; 1]%R]] None);
    simpl; [discriminate | lia | lia].
Defined.

(* ------------------------------------------------------------------ *)
(** ** top_k_top_p_filtering: further properties *)

Lemma eltb_sort_ltb (x y : ereal) : eltb x y = true -> sort_ltb x y = true.
Proof. destruct x, y; simpl; intros H; try discriminate; exact H. Qed.

Lemma insert_desc_sorted (x : nat * ereal) (l : list (nat * ereal)) :
  ForallOrdPairs (fun a b => sort_ltb (snd a) (snd b) = false) l ->
  ForallOrdPairs (fun a b => sort_ltb (snd a) (snd b) = false) (insert_desc x l).
Proof.
  intros Hs. induction Hs as [| y ys Hy Hys IH]; simpl.
  - constructor; [constructor | constructor].
  - destruct (sort_ltb (snd x) (snd y)) eqn:Hxy.
    + constructor; [| exact IH].
      apply Forall_forall. intros z Hz.
      apply (Permutation_in _ (insert_desc_perm x ys)) in Hz.
      destruct Hz as [<- | Hz]; [apply sort_ltb_asym; exact Hxy |].
      rewrite Forall_forall in Hy. apply Hy. exact Hz.
    + constructor; [| constructor; assumption].
      constructor; [exact Hxy |].
      eapply Forall_impl; [| exact Hy]. intros z Hz. cbn beta in *.
      eapply sort_ltb_neg_trans; eassumption.
Qed.

Lemma sort_desc_sorted (l : list ereal) :
  ForallOrdPairs (fun a b => sort_ltb (snd a) (snd b) = false) (sort_desc l).
Proof.
  unfold sort_desc. induction (indexed l) as [| x xs IH]; simpl.
  - constructor.
  - apply insert_desc_sorted. exact IH.
Qed.

Lemma sorted_values_nth (s : list (nat * ereal)) (i j : nat) :
  ForallOrdPairs (fun a b => sort_ltb (snd a) (snd b) = false) s ->
  i <= j -> j < length s ->
  sort_ltb (nth i (map snd s) NaN) (nth j (map snd s) NaN) = false.
Proof.
  intros Hs. revert i j. induction Hs as [| y ys Hy Hys IH]; intros i j Hij Hj.
  - simpl in Hj. lia.
  - destruct i as [| i], j as [| j]; cbn [map nth]; try lia.
    + apply sort_ltb_irrefl.
    + rewrite Forall_forall in Hy.
      rewrite (nth_map_in _ _ _ _ (0, NaN)) by (simpl in Hj; lia).
      apply Hy. apply nth_In. simpl in Hj. lia.
    + apply IH; simpl in Hj; lia.
Qed.

Lemma combine_seq_snd {A : Type} (l : list A) (a : nat) :
  map snd (combine (seq a (length l)) l) = l.
Proof.
  revert a. induction l as [| x xs IH]; intros a; simpl; [reflexivity |].
  rewrite IH. reflexivity.
Qed.

Lemma sort_desc_values_perm (l : list ereal) :
  Permutation (map snd (sort_desc l)) l.
Proof.
  rewrite <- (combine_seq_snd l 0) at 2.
  apply Permutation_map. apply sort_desc_perm.
Qed.

Lemma filter_length_perm {A : Type} (f : A -> bool) (l l' : list A) :
  Permutation l l' -> length (filter f l) = length (filter f l').
Proof.
  intros Hp. induction Hp as [| x l l' _ IH | x y l | l l' l'' _ IH1 _ IH2];
    simpl.
  - reflexivity.
  - destruct (f x); simpl; rewrite IH; reflexivity.
  - destruct (f x), (f y); reflexivity.
  - congruence.
Qed.

Lemma filter_all {A : Type} (f : A -> bool) (l : list A) :
  Forall (fun x => f x = true) l -> filter f l = l.
Proof.
  intros H. induction H as [| x l Hx _ IH]; simpl; [reflexivity |].
  rewrite Hx, IH. reflexivity.
Qed.

Lemma filter_none {A : Type} (f : A -> bool) (l : list A) :
  Forall (fun x => f x = false) l -> filter f l = [].
Proof.
  intros H. induction H as [| x l Hx _ IH]; simpl; [reflexivity |].
  rewrite Hx, IH. reflexivity.
Qed.

Lemma Forall_firstn_nth {A : Type} (P : A -> Prop) (l : list A) (k : nat) (d : A) :
  k <= length l -> (forall i, i < k -> P (nth i l d)) -> Forall P (firstn k l).
Proof.
  intros Hk Hnth. apply Forall_forall. intros x Hx.
  destruct (In_nth _ _ d Hx) as [i [Hi Hx']].
  rewrite length_firstn in Hi.
  rewrite nth_firstn in Hx'. destruct (Nat.ltb_spec i k); [| lia].
  subst x. apply Hnth. lia.
Qed.

Lemma Forall_skipn_nth {A : Type} (P : A -> Prop) (l : list A) (k : nat) (d : A) :
  (forall j, k <= j -> j < length l -> P (nth j l d)) -> Forall P (skipn k l).
Proof.
  intros Hnth. apply Forall_forall. intros x Hx.
  destruct (In_nth _ _ d Hx) as [i [Hi Hx']].
  rewrite length_skipn in Hi. rewrite nth_skipn in Hx'.
  subst x. apply Hnth; lia.
Qed.

Lemma assign_mask_length (l : list ereal) (mask : list bool) (v : ereal) :
  length mask = length l -> length (assign_mask l mask v) = length l.
Proof.
  intros H. unfold assign_mask. rewrite length_map, length_combine. lia.
Qed.

Lemma assign_mask_nth (l : list ereal) (mask : list bool) (v : ereal) (i : nat) :
  length mask = length l -> i < length l ->
  nth i (assign_mask l mask v) NaN
  = if nth i mask false then v else nth i l NaN.
Proof.
  intros Hlen Hi. unfold assign_mask.
  rewrite (nth_map_combine _ _ _ _ _ NaN false) by (try symmetry; assumption).
  reflexivity.
Qed.

Lemma top_k_branch_spec (l : list ereal) (k : nat) (v : ereal) :
  1 <= k <= length l ->
  let kth := nth (k - 1) (map snd (sort_desc l)) NaN in
  In kth l /\
  length (top_k_branch l k v) = length l /\
  (forall i, i < length l ->
     nth i (top_k_branch l k v) NaN
     = if eltb (nth i l NaN) kth then v else nth i l NaN) /\
  k <= length (filter (fun x => negb (eltb x kth)) l) /\
  length (filter (fun x => eltb kth x) l) < k.
Proof.
  intros Hk kth.
  pose proof (sort_desc_length l) as Hlen.
  pose proof (sort_desc_sorted l) as Hsorted.
  pose proof (sort_desc_values_perm l) as Hperm.
  set (sv := map snd (sort_desc l)) in *.
  assert (Hsvlen : length sv = length l) by (unfold sv; rewrite length_map; exact Hlen).
  split; [| split; [| split; [| split]]].
  - apply (Permutation_in _ Hperm). apply nth_In. lia.
  - unfold top_k_branch. fold sv. fold kth.
    apply assign_mask_length. apply length_map.
  - intros i Hi. unfold top_k_branch. fold sv. fold kth.
    rewrite assign_mask_nth by (try apply length_map; exact Hi).
    rewrite (nth_map_in _ _ _ _ NaN) by exact Hi. reflexivity.
  - rewrite <- (filter_length_perm _ _ _ Hperm).
    rewrite <- (firstn_skipn k sv), filter_app, length_app.
    rewrite filter_all.
    + rewrite length_firstn. lia.
    + apply (Forall_firstn_nth _ _ _ NaN); [lia |].
      intros i Hi. apply negb_true_iff.
      destruct (eltb (nth i sv NaN) kth) eqn:He; [| reflexivity].
      apply eltb_sort_ltb in He.
      unfold kth, sv in He.
      rewrite sorted_values_nth in He by (try exact Hsorted; lia).
      discriminate He.
  - rewrite <- (filter_length_perm _ _ _ Hperm).
    rewrite <- (firstn_skipn (k - 1) sv), filter_app, length_app.
    rewrite (filter_none _ (skipn (k - 1) sv)).
    + cbn [length]. rewrite Nat.add_0_r.
      pose proof (filter_length_le (fun x => eltb kth x) (firstn (k - 1) sv)) as Hle.
      rewrite length_firstn in Hle. lia.
    + apply (Forall_skipn_nth _ _ _ NaN). intros j Hj Hjl.
      destruct (eltb kth (nth j sv NaN)) eqn:He; [| reflexivity].
      apply eltb_sort_ltb in He.
      unfold kth, sv in He.
      rewrite sorted_values_nth in He by (try exact Hsorted; lia).
      discriminate He.
Qed.

(** X13 (top_k_top_p_filtering): with [top_k > 0] and no nucleus
    filtering, the function overwrites with [filter_value] exactly the
    entries that are below the k-th largest logit, where k is [top_k]
    capped by the vocabulary size: fewer than k entries are above that
    logit and at least k entries are left as they were. *)
Theorem top_k_keeps_k_largest (logits : etensor) (top_k : Z) (top_p : R)
    (filter_value : ereal) :
  dim logits = 1 ->
  length (data logits) = last (shape logits) 0 ->
  data logits <> [] ->
  (0 < top_k)%Z -> (top_p <= 0)%R ->
  let k := Z.to_nat (Z.min top_k (Z.of_nat (length (data logits)))) in
  exists kth out,
    top_k_top_p_filtering logits top_k top_p filter_value
    = Ok (ETensor (shape logits) out) /\
    In kth (data logits) /\
    length out = length (data logits) /\
    (forall i, i < length (data logits) ->
       nth i out NaN
       = if eltb (nth i (data logits) NaN) kth
         then filter_value else nth i (data logits) NaN) /\
    1 <= k <= length (data logits) /\
    k <= length (filter (fun x => negb (eltb x kth)) (data logits)) /\
    length (filter (fun x => eltb kth x) (data logits)) < k.
Proof.
  intros Hdim Hsize Hne Hk Hp k.
  assert (Hn : 0 < length (data logits))
    by (destruct (data logits); [congruence | simpl; lia]).
  assert (Hkr : 1 <= k <= length (data logits)) by (unfold k; lia).
  destruct (top_k_branch_spec (data logits) k filter_value Hkr)
    as (Hin & Hlen & Hnth & Hkeep & Habove).
  exists (nth (k - 1) (map snd (sort_desc (data logits))) NaN),
         (top_k_branch (data logits) k filter_value).
  split; [| repeat split; try assumption; lia].
  unfold top_k_top_p_filtering. rewrite Hdim. cbn [Nat.eqb]. cbv zeta.
  rewrite <- Hsize. fold k.
  assert (Hpos : (0 <? Z.min top_k (Z.of_nat (length (data logits))))%Z = true)
    by (apply Z.ltb_lt; lia).
  rewrite Hpos, (Rltb_false _ _ Hp). reflexivity.
Qed.

Lemma top_k_keeps_k_largest_witness :
  let logits := ETensor [3] [NInf; PInf; Fin 0] in
  exists kth out,
    top_k_top_p_filtering logits 2 0 NInf = Ok (ETensor (shape logits) out) /\
    In kth (data logits) /\
    length out = length (data logits) /\
    (forall i, i < length (data logits) ->
       nth i out NaN
       = if eltb (nth i (data logits) NaN) kth
         then NInf else nth i (data logits) NaN) /\
    1 <= Z.to_nat (Z.min 2 (Z.of_nat (length (data logits))))
      <= length (data logits) /\
    Z.to_nat (Z.min 2 (Z.of_nat (length (data logits))))
      <= length (filter (fun x => negb (eltb x kth)) (data logits)) /\
    length (filter (fun x => eltb kth x) (data logits))
      < Z.to_nat (Z.min 2 (Z.of_nat (length (data logits)))).
Proof.
  intros logits.
  apply (top_k_keeps_k_largest logits 2 0 NInf).
  - reflexivity.
  - reflexivity.
  - discriminate.
  - lia.
  - lra.
Defined.











Lemma combine_repeat_false (idx : list nat) (n : nat) :
  map fst (filter snd (combine idx (repeat false n))) = [].
Proof.
  revert n. induction idx as [| i idx IH]; intros n; [reflexivity |].
  destruct n; [reflexivity |]. cbn [repeat combine filter snd]. apply IH.
Qed.











(* ------------------------------------------------------------------ *)
(** ** Pix2seqTransformer.forward, evaluation branch: further
    properties *)

Lemma argmax_from_bound (best_i : nat) (best : ereal) (i : nat) (l : list ereal) :
  best_i < i -> argmax_from best_i best i l < i + length l.
Proof.
  revert best_i best i. induction l as [| x xs IH]; intros bi b i Hbi.
  - simpl. lia.
  - cbn [argmax_from length]. destruct (sort_ltb b x).
    + specialize (IH i x (S i) ltac:(lia)). lia.
    + specialize (IH bi b (S i) ltac:(lia)). lia.
Qed.

Lemma argmax_bound (l : list ereal) (k : nat) :
  argmax l = Ok k -> k < length l.
Proof.
  destruct l as [| x xs]; [discriminate |]. cbn [argmax].
  intros [= <-]. pose proof (argmax_from_bound 0 x 1 xs ltac:(lia)).
  simpl. lia.
Qed.

Lemma py_slice_to_length {A : Type} (k : Z) (l : list A) :
  (Z.of_nat (length (py_slice_to k l)) <= Z.of_nat (length l))%Z /\
  (0 <= k -> Z.of_nat (length (py_slice_to k l)) <= k)%Z /\
  (k < 0 -> Z.of_nat (length (py_slice_to k l)) <= Z.of_nat (length l) + k)%Z
  \/ length (py_slice_to k l) = 0.
Proof.
  unfold py_slice_to. destruct (Z.ltb_spec k 0) as [Hk | Hk];
    rewrite length_firstn.
  - destruct (Nat.eq_dec (Nat.min (length l - Z.to_nat (- k)) (length l)) 0)
      as [H0 | H0]; [right; exact H0 | left]. lia.
  - left. lia.
Qed.

Lemma sim_row_length (s : sim) (n b : nat) : length (sim_row s n b) <= sim_V s.
Proof. unfold sim_row. rewrite length_firstn. lia. Qed.

Lemma argmax_last_range (k : Z) (s : sim) (rows : list (list nat)) :
  argmax_last k s = Ok rows ->
  length rows = sim_N s /\
  Forall (fun row =>
            length row = sim_B s /\
            Forall (fun t =>
                      t < sim_V s /\
                      (0 <= k -> Z.of_nat t < k)%Z /\
                      (k < 0 -> Z.of_nat t < Z.of_nat (sim_V s) + k)%Z)
                   row)
         rows.
Proof.
  unfold argmax_last.
  destruct (length (py_slice_to k (repeat tt (sim_V s))) =? 0); [discriminate |].
  intros H. split.
  - rewrite (mapM_length _ _ _ H). apply length_seq.
  - apply mapM_Forall2 in H.
    induction H as [| n row ns rows Hrow _ IH]; constructor; [| exact IH].
    cbn beta in Hrow. split.
    + rewrite (mapM_length _ _ _ Hrow). apply length_seq.
    + apply mapM_Forall2 in Hrow. clear IH.
      induction Hrow as [| b t bs0 ts Ht _ IH]; constructor; [| exact IH].
      cbn beta in Ht. apply argmax_bound in Ht.
      pose proof (sim_row_length s n b) as Hlen.
      destruct (py_slice_to_length k (sim_row s n b)) as [(H1 & H2 & H3) | H0];
        [| lia].
      split; [lia |]. split; intros Hk; [specialize (H2 Hk) | specialize (H3 Hk)];
        lia.
Qed.

(** X15 (Pix2seqTransformer.forward, greedy decoding): the logits kept
    for a step are the classifier output itself, and every token fed
    back to the decoder is an index of the vocabulary below
    [num_vocal - 2]: the end-of-sequence class [num_vocal - 2] and the
    class after it are never chosen as the next input. *)
Theorem greedy_step_never_eos (num_vocal : Z) (similarity : sim)
    (pred_token : list (list Z)) (logits : sim) :
  (2 <= num_vocal)%Z ->
  greedy_step num_vocal similarity = Ok (pred_token, logits) ->
  logits = similarity /\
  length pred_token = sim_N similarity /\
  Forall (fun row =>
            length row = sim_B similarity /\
            Forall (fun t => (0 <= t < Z.of_nat (sim_V similarity))%Z /\
                             (t < num_vocal - 2)%Z)
                   row)
         pred_token.
Proof.
  intros Hnv. unfold greedy_step.
  destruct (argmax_last (num_vocal - 2) similarity) as [rows | e] eqn:Hrows;
    [| discriminate].
  cbn [bind]. intros [= <- <-].
  destruct (argmax_last_range _ _ _ Hrows) as [Hlen Hall].
  split; [reflexivity |]. split; [rewrite length_map; exact Hlen |].
  apply Forall_map. eapply Forall_impl; [| exact Hall].
  intros row [Hrl Hrow]. cbn beta. split; [rewrite length_map; exact Hrl |].
  apply Forall_map. eapply Forall_impl; [| exact Hrow].
  intros t (Ht & Hk & _). cbn beta. specialize (Hk ltac:(lia)). lia.
Qed.

Lemma greedy_step_never_eos_witness :
  let similarity := no_eos_classifier 2 empty_tensor in
  let pred_token := [[0%Z; 0%Z]] in
  similarity = similarity /\
  length pred_token = sim_N similarity /\
  Forall (fun row =>
            length row = sim_B similarity /\
            Forall (fun t => (0 <= t < Z.of_nat (sim_V similarity))%Z /\
                             (t < 4 - 2)%Z)
                   row)
         pred_token.
Proof.
  intros similarity pred_token.
  apply (greedy_step_never_eos 4 similarity pred_token similarity).
  - lia.
  - reflexivity.
Defined.

Section DecodeWithoutEos.

Variables (self : Pix2seqTransformer) (bs V : nat).
Variables (memory pos_embed : etensor) (mask : list (list bool)).
Variable det_embed_weight : list (list ereal).
Variable vocal_embed : list (list Z) -> result etensor.
Variable vocal_classifier : etensor -> sim.
Variable num_vocal : Z.
Variable multinomial : nat -> list ereal -> result nat.

Hypothesis Hnoeos : pred_eos self = false.
Hypothesis Hshape :
  forall o, sim_N (vocal_classifier o) = 1 /\
            sim_B (vocal_classifier o) = bs /\
            sim_V (vocal_classifier o) = V.
Hypothesis Hgreedy :
  forall o, exists t, greedy_step num_vocal (vocal_classifier o) = Ok t.
Hypothesis Hembed : forall t, exists e, vocal_embed t = Ok e.

Local Abbreviation step :=
  (decode_step self memory pos_embed mask vocal_embed vocal_classifier
               num_vocal false multinomial).

Lemma decode_loop_without_eos (range : list nat) (st : decode_state) :
  exists st' new,
    decode_loop step range st = Ok (Continue, st') /\
    end_lens st' = end_lens st /\
    pred_seq_logits st' = pred_seq_logits st ++ new /\
    length new = length range /\
    Forall (fun s => sim_N s = 1 /\ sim_B s = bs /\ sim_V s = V) new.
Proof.
  revert st. induction range as [| i range IH]; intros st.
  - exists st, []. cbn [decode_loop]. rewrite app_nil_r.
    repeat split; constructor.
  - cbn [decode_loop]. unfold decode_step at 1.
    destruct (decoder self (input_embed st) memory pos_embed mask (pre_kv st))
      as [out_dec kv].
    rewrite Hnoeos. cbn [bind].
    destruct (Hgreedy out_dec) as [[tok lg] Hg].
    pose proof Hg as Hlg. unfold greedy_step in Hlg.
    destruct (argmax_last (num_vocal - 2) (vocal_classifier out_dec));
      [| discriminate Hlg].
    cbn [bind] in Hlg. injection Hlg as _ Hlg.
    rewrite Hg. cbn [bind].
    destruct (Hembed tok) as [emb Hemb]. rewrite Hemb. cbn [bind].
    destruct (IH (DecodeState emb kv (end_ st) (end_lens st)
                              (pred_seq_logits st ++ [lg])))
      as (st' & new & Hrun & Hel & Hlogits & Hlen & Hall).
    exists st', (lg :: new). rewrite Hrun.
    cbn [end_lens pred_seq_logits] in Hel, Hlogits.
    split; [reflexivity |]. split; [exact Hel |].
    split; [rewrite Hlogits, <- app_assoc; reflexivity |].
    split; [simpl; rewrite Hlen; reflexivity |].
    constructor; [subst lg; apply Hshape | exact Hall].
Qed.

Lemma flat_map_sample_rows_length (l : list sim) (b : nat) :
  Forall (fun s => sim_N s = 1 /\ sim_B s = bs /\ sim_V s = V) l ->
  length (flat_map (fun s => sample_rows s b) l) = length l.
Proof.
  intros H. induction H as [| s l (HN & _ & _) _ IH]; [reflexivity |].
  cbn [flat_map length]. rewrite length_app, IH.
  unfold sample_rows. rewrite length_map, length_seq, HN. reflexivity.
Qed.

Lemma cat_logits_uniform (l : list sim) :
  l <> [] ->
  Forall (fun s => sim_N s = 1 /\ sim_B s = bs /\ sim_V s = V) l ->
  cat_logits l
  = Ok (map (fun b => flat_map (fun s => sample_rows s b) l) (seq 0 bs)).
Proof.
  intros Hne Hall. unfold cat_logits. destruct l as [| s0 rest]; [congruence |].
  apply Forall_cons_iff in Hall. destruct Hall as [(HN0 & HB0 & HV0) Hrest].
  assert (Hf : forallb (fun s => (sim_B s =? sim_B s0) && (sim_V s =? sim_V s0))
                       rest = true).
  { apply forallb_forall. intros s Hs. rewrite Forall_forall in Hrest.
    destruct (Hrest s Hs) as (_ & HB & HV).
    rewrite HB, HV, HB0, HV0, !Nat.eqb_refl. reflexivity. }
  rewrite Hf, HB0. reflexivity.
Qed.

(** X16 (Pix2seqTransformer.forward, evaluation without [pred_eos]):
    with greedy decoding, a classifier that returns one row of [V]
    logits per sample and an embedding that accepts every token, the
    loop is never left early: all 500 steps run and every sample gets a
    sequence of exactly 500 rows. *)
Theorem eval_without_pred_eos_full_length :
  exists out,
    forward_eval self bs memory pos_embed mask det_embed_weight vocal_embed
      vocal_classifier num_vocal false multinomial = Ok out /\
    length out = bs /\
    Forall (fun rows => length rows = max_len) out.
Proof.
  destruct (decode_loop_without_eos (seq 0 max_len)
              (initial_state self bs det_embed_weight))
    as (st & new & Hrun & Hel & Hlogits & Hlen & Hall).
  cbn [initial_state end_lens pred_seq_logits app] in Hel, Hlogits.
  rewrite length_seq in Hlen.
  assert (Hne : new <> []) by (intros ->; discriminate Hlen).
  unfold forward_eval, decode. rewrite Hrun. cbn [bind].
  rewrite Hnoeos, Hlogits, (cat_logits_uniform new Hne Hall). cbn [bind].
  eexists. split; [reflexivity |]. rewrite Hel.
  split.
  - rewrite length_map, length_combine, !length_map, repeat_length, length_seq.
    lia.
  - apply Forall_forall. intros rows Hrows.
    apply in_map_iff in Hrows. destruct Hrows as ([n rs] & <- & Hin).
    cbn [fst snd]. pose proof (in_combine_l _ _ _ _ Hin) as Hn.
    pose proof (in_combine_r _ _ _ _ Hin) as Hrs.
    apply in_map_iff in Hn. destruct Hn as (_ & <- & _).
    apply in_map_iff in Hrs. destruct Hrs as (b & <- & _).
    rewrite length_firstn, (flat_map_sample_rows_length new b Hall), Hlen.
    apply Nat.min_id.
Qed.

End DecodeWithoutEos.

Lemma eval_without_pred_eos_full_length_witness :
  exists out,
    forward_eval (echo_transformer false) 2 empty_tensor empty_tensor []
      [[Fin 0]] zero_embed (no_eos_classifier 2) 4 false first_draw = Ok out /\
    length out = 2 /\
    Forall (fun rows => length rows = max_len) out.
Proof.
  apply (eval_without_pred_eos_full_length (echo_transformer false) 2 4
           empty_tensor empty_tensor [] [[Fin 0]] zero_embed
           (no_eos_classifier 2) 4 first_draw).
  - reflexivity.
  - intros o. repeat split.
  - intros o. eexists. reflexivity.
  - intros t. eexists. reflexivity.
Defined.

(* ------------------------------------------------------------------ *)
(** ** VectorQuantizer.forward: further properties *)

Lemma argmin_from_first (xs pre : list R) (bi i : nat) (b : R) :
  i = length pre -> bi < i -> nth bi pre 0%R = b ->
  (forall j, j < bi -> (b < nth j pre 0)%R) ->
  (forall j, j < i -> (b <= nth j pre 0)%R) ->
  let k := argmin_from bi b i xs in
  forall j, j < k -> (nth k (pre ++ xs) 0 < nth j (pre ++ xs) 0)%R.
Proof.
  revert pre bi i b.
  induction xs as [| x xs IH]; intros pre bi i b Hi Hbi Hb Hfirst Hmin.
  - simpl. rewrite app_nil_r. intros j Hj. rewrite Hb. apply Hfirst. exact Hj.
  - simpl argmin_from.
    change (x :: xs) with ([x] ++ xs). rewrite app_assoc.
    assert (Hlen : S i = length (pre ++ [x]))
      by (rewrite length_app; simpl; lia).
    assert (Hx : nth i (pre ++ [x]) 0%R = x)
      by (rewrite app_nth2 by lia; subst i; rewrite Nat.sub_diag; reflexivity).
    unfold Rltb. destruct (Rlt_dec x b) as [Hlt | Hge].
    + apply IH; [exact Hlen | lia | exact Hx | |].
      * intros j Hj. rewrite app_nth1 by lia. specialize (Hmin j Hj). lra.
      * intros j Hj. destruct (Nat.lt_ge_cases j i) as [Hj1 | Hj1].
        -- rewrite app_nth1 by lia. specialize (Hmin j Hj1). lra.
        -- replace j with i by lia. rewrite Hx. lra.
    + apply IH; [exact Hlen | lia | rewrite app_nth1 by lia; exact Hb | |].
      * intros j Hj. rewrite app_nth1 by lia. apply Hfirst. exact Hj.
      * intros j Hj. destruct (Nat.lt_ge_cases j i) as [Hj1 | Hj1].
        -- rewrite app_nth1 by lia. apply Hmin. exact Hj1.
        -- replace j with i by lia. rewrite Hx. lra.
Qed.

Lemma argmin_first (l : list R) (k : nat) :
  argmin l = Ok k ->
  k < length l /\
  (forall j, j < length l -> (nth k l 0 <= nth j l 0)%R) /\
  (forall j, j < k -> (nth k l 0 < nth j l 0)%R).
Proof.
  intros Hk. destruct l as [| x xs]; [discriminate |].
  destruct (argmin_spec (x :: xs) ltac:(discriminate)) as (k' & Hk' & Hlt & Hmin).
  assert (k' = k) by congruence. subst k'.
  split; [exact Hlt |]. split; [exact Hmin |].
  cbn [argmin] in Hk. injection Hk as <-.
  apply (argmin_from_first xs [x] 0 1 x); try reflexivity; try lia.
  intros j Hj. replace j with 0 by lia. simpl. lra.
Qed.

Lemma rsum_app (a b : list R) : rsum (a ++ b) = (rsum a + rsum b)%R.
Proof.
  unfold rsum. induction a as [| x a IH]; simpl; [lra | rewrite IH; lra].
Qed.

Lemma rsum_sq_nonneg (f : R * R -> R) (l : list (R * R)) :
  (forall p, 0 <= f p)%R -> (0 <= rsum (map f l))%R.
Proof.
  intros Hf. unfold rsum. induction l as [| p l IH]; simpl; [lra |].
  specialize (Hf p). lra.
Qed.

Lemma sq_dist_nonneg (x e : list R) : (0 <= sq_dist x e)%R.
Proof.
  unfold sq_dist. apply rsum_sq_nonneg. intros p.
  apply Rle_0_sqr.
Qed.




Lemma mse_loss_nonneg (a b : list R) : (0 <= mse_loss a b)%R.
Proof.
  unfold mse_loss. change (rsum _) with (sq_dist a b).
  pose proof (sq_dist_nonneg a b) as Hnn.
  destruct (length a) as [| n].
  - simpl. unfold Rdiv. rewrite Rinv_0. lra.
  - apply Rmult_le_pos; [exact Hnn |]. left. apply Rinv_0_lt_compat.
    apply lt_0_INR. lia.
Qed.

Lemma combine_app_same {A B : Type} (a c : list A) (b d : list B) :
  length a = length b ->
  combine (a ++ c) (b ++ d) = combine a b ++ combine c d.
Proof.
  revert b. induction a as [| x a IH]; intros b Hl.
  - destruct b; [reflexivity | discriminate].
  - destruct b as [| y b]; [discriminate |]. simpl. rewrite IH; [reflexivity |].
    simpl in Hl. lia.
Qed.

Lemma sq_dist_app (a b c d : list R) :
  length a = length b ->
  sq_dist (a ++ c) (b ++ d) = (sq_dist a b + sq_dist c d)%R.
Proof.
  intros Hl. unfold sq_dist. rewrite combine_app_same by exact Hl.
  rewrite map_app. apply rsum_app.
Qed.

Lemma sq_dist_concat (r1 r2 : list (list R)) :
  Forall2 (fun a b => length a = length b) r1 r2 ->
  sq_dist (concat r1) (concat r2)
  = rsum (map (fun p : list R * list R => sq_dist (fst p) (snd p))
              (combine r1 r2)).
Proof.
  intros H. induction H as [| a b r1 r2 Hab _ IH]; [reflexivity |].
  cbn [concat combine map fst snd]. rewrite sq_dist_app by exact Hab.
  rewrite IH. reflexivity.
Qed.

Lemma selected_rows (W : list (list R)) (K d : nat) (rows : list (list R))
    (idx : list nat) :
  length W = K -> Forall (fun e => length e = d) W ->
  Forall (fun r => length r = d) rows ->
  Forall2 (fun drow k => argmin drow = Ok k) (map (distances_row W) rows) idx ->
  Forall2 (fun x k =>
             k < K /\
             (forall j, j < K ->
                (sq_dist x (nth k W []) <= sq_dist x (nth j W []))%R) /\
             (forall j, j < k ->
                (sq_dist x (nth k W []) < sq_dist x (nth j W []))%R))
          rows idx.
Proof.
  intros HWlen HW Hrows. revert idx.
  induction Hrows as [| x rows Hx _ IH]; intros idx Hspec.
  - inversion Hspec. constructor.
  - cbn [map] in Hspec. inversion Hspec as [| ? k ? idx' Hk Hrest]; subst.
    constructor; [| apply IH; exact Hrest].
    destruct (argmin_first _ k Hk) as (Hlt & Hmin & Hfirst).
    unfold distances_row in Hlt. rewrite length_map in Hlt.
    split; [exact Hlt |]. split.
    + intros j Hj.
      rewrite <- !(distances_row_nth W x (length x)) by (try assumption; lia).
      apply Hmin. unfold distances_row. rewrite length_map. lia.
    + intros j Hj.
      rewrite <- !(distances_row_nth W x (length x)) by (try assumption; lia).
      apply Hfirst. exact Hj.
Qed.

Lemma combine_map_snd {A B C : Type} (g : B -> C) (l : list A) (l' : list B) :
  combine l (map g l') = map (fun p => (fst p, g (snd p))) (combine l l').
Proof.
  revert l'. induction l as [| x l IH]; intros l'; [reflexivity |].
  destruct l' as [| y l']; [reflexivity |]. simpl. rewrite IH. reflexivity.
Qed.

Lemma rows_same_lengths {A : Type} (d : nat) (r1 r2 : list (list A)) :
  Forall (fun r => length r = d) r1 -> Forall (fun r => length r = d) r2 ->
  length r1 = length r2 ->
  Forall2 (fun a b => length a = length b) r1 r2.
Proof.
  intros H1. revert r2. induction H1 as [| a r1 Ha _ IH]; intros r2 H2 Hl.
  - destruct r2; [constructor | discriminate].
  - destruct r2 as [| b r2]; [discriminate |].
    apply Forall_cons_iff in H2. destruct H2 as [Hb H2].
    constructor; [congruence |]. apply IH; [exact H2 | simpl in Hl; lia].
Qed.

Lemma vq_forward_run (self : VectorQuantizer) (inputs : rtensor) :
  vq_wf self ->
  0 < _embedding_dim self -> 0 < _num_embeddings self ->
  length (rdata inputs) mod _embedding_dim self = 0 ->
  let d := _embedding_dim self in
  let W := _embedding_weight self in
  let rows := chunks d (rdata inputs) in
  exists idx,
    let qrows := map (fun k => nth k W []) idx in
    Forall (fun r => length r = d) rows /\
    concat rows = rdata inputs /\
    length idx = length rows /\
    Forall2 (fun x k =>
               k < _num_embeddings self /\
               (forall j, j < _num_embeddings self ->
                  (sq_dist x (nth k W []) <= sq_dist x (nth j W []))%R) /\
               (forall j, j < k ->
                  (sq_dist x (nth k W []) < sq_dist x (nth j W []))%R))
            rows idx /\
    Forall (fun r => length r = d) qrows /\
    length (concat qrows) = length (rdata inputs) /\
    vq_forward self inputs
    = Ok (RTensor (rshape inputs) (concat qrows),
          (mse_loss (concat qrows) (rdata inputs)
           + _commitment_cost self * mse_loss (concat qrows) (rdata inputs))%R,
          idx).
Proof.
  intros [HWlen HW] Hd HK Hmod d W rows.
  set (K := _num_embeddings self) in *.
  set (n := length (rdata inputs) / d).
  assert (Hlen : length (rdata inputs) = n * d).
  { unfold n. rewrite (Nat.div_mod_eq (length (rdata inputs)) d) at 1.
    fold d in Hmod. rewrite Hmod. lia. }
  destruct (chunks_spec d n (rdata inputs) Hd Hlen) as (Hrows_n & Hrows_d & Hcat).
  fold rows in Hrows_n, Hrows_d, Hcat.
  assert (Hview : view_rows d inputs = Ok rows).
  { unfold view_rows.
    replace (d =? 0) with false by (symmetry; apply Nat.eqb_neq; lia).
    fold d in Hmod. rewrite Hmod. reflexivity. }
  destruct (mapM_exists argmin (fun drow k => argmin drow = Ok k)
              (map (distances_row W) rows)) as (idx & Hidx & Hspec).
  { intros drow Hin. apply in_map_iff in Hin. destruct Hin as (x & <- & _).
    destruct (argmin_spec (distances_row W x)) as (k & Hk & _).
    - unfold distances_row. fold W in HWlen.
      destruct W; [simpl in HWlen; lia | discriminate].
    - exists k. split; assumption. }
  assert (Hidx_len : length idx = length rows).
  { apply mapM_length in Hidx. rewrite Hidx, length_map. reflexivity. }
  assert (Hsel : Forall2 (fun x k =>
               k < K /\
               (forall j, j < K ->
                  (sq_dist x (nth k W []) <= sq_dist x (nth j W []))%R) /\
               (forall j, j < k ->
                  (sq_dist x (nth k W []) < sq_dist x (nth j W []))%R))
            rows idx).
  { apply (selected_rows W K d); assumption. }
  assert (HidxK : Forall (fun k => k < K) idx).
  { clear -Hsel. induction Hsel as [| x k rows idx (Hk & _) _ IH];
      constructor; assumption. }
  set (qrows := map (fun k => nth k W []) idx).
  assert (Hq : map (fun row => row_matmul d row W) (map (one_hot K) idx) = qrows).
  { unfold qrows. rewrite map_map. apply map_ext_in. intros k Hin.
    fold W in HWlen, HW. rewrite <- HWlen. apply one_hot_matmul; [exact HW |].
    rewrite HWlen. rewrite Forall_forall in HidxK. apply HidxK. exact Hin. }
  assert (Hqrows_d : Forall (fun r => length r = d) qrows).
  { unfold qrows. apply Forall_map. eapply Forall_impl; [| exact HidxK].
    intros k Hk. cbn beta.
    rewrite Forall_forall in HW. apply HW. apply nth_In.
    change (k < length (_embedding_weight self)). rewrite HWlen. exact Hk. }
  assert (Hqlen : length (concat qrows) = length (rdata inputs)).
  { rewrite (concat_length_rows d) by exact Hqrows_d.
    unfold qrows. rewrite length_map, Hidx_len, Hrows_n, Hlen. reflexivity. }
  exists idx. cbv zeta. fold qrows.
  split; [exact Hrows_d |]. split; [exact Hcat |]. split; [exact Hidx_len |].
  split; [exact Hsel |]. split; [exact Hqrows_d |]. split; [exact Hqlen |].
  unfold vq_forward. fold d. rewrite Hview. cbn [bind]. fold W. fold K.
  replace (K =? 0) with false by (symmetry; apply Nat.eqb_neq; lia).
  fold rows. rewrite Hidx. cbn [bind]. rewrite Hq.
  rewrite (straight_through _ _ (eq_sym Hqlen)). reflexivity.
Qed.

(** X17 (VectorQuantizer.forward): the returned loss is
    [(1 + commitment_cost)] times the mean squared error between the
    returned quantized tensor and the input, that is, the sum over the
    input vectors of their squared distance to the selected codebook
    entry, divided by the number of elements; it is not negative when
    [commitment_cost >= -1]. *)
Theorem vq_forward_loss (self : VectorQuantizer) (inputs : rtensor) :
  vq_wf self ->
  0 < _embedding_dim self -> 0 < _num_embeddings self ->
  length (rdata inputs) mod _embedding_dim self = 0 ->
  rdata inputs <> [] ->
  exists quantized loss encoding_indices,
    vq_forward self inputs = Ok (quantized, loss, encoding_indices) /\
    loss = ((1 + _commitment_cost self)
            * mse_loss (rdata quantized) (rdata inputs))%R /\
    mse_loss (rdata quantized) (rdata inputs)
    = (rsum (map (fun p : list R * nat =>
                    sq_dist (fst p) (nth (snd p) (_embedding_weight self) []))
                 (combine (chunks (_embedding_dim self) (rdata inputs))
                          encoding_indices))
       / INR (length (rdata inputs)))%R /\
    ((-1 <= _commitment_cost self)%R -> (0 <= loss)%R).
Proof.
  intros Hwf Hd HK Hmod Hne.
  destruct (vq_forward_run self inputs Hwf Hd HK Hmod)
    as (idx & Hrows_d & Hcat & Hidx_len & Hsel & Hqrows_d & Hqlen & Hrun).
  set (d := _embedding_dim self) in *.
  set (W := _embedding_weight self) in *.
  set (rows := chunks d (rdata inputs)) in *.
  set (qrows := map (fun k => nth k W []) idx) in *.
  do 3 eexists. split; [exact Hrun |]. cbn [rdata].
  split; [ring |]. split.
  - unfold mse_loss. rewrite Hqlen. f_equal.
    change (rsum (map (fun p : R * R => ((fst p - snd p) * (fst p - snd p))%R)
                      (combine (concat qrows) (rdata inputs))))
      with (sq_dist (concat qrows) (rdata inputs)).
    rewrite <- Hcat at 1.
    assert (Hsym : forall a b, sq_dist a b = sq_dist b a).
    { clear. intros a. unfold sq_dist, rsum.
      induction a as [| x a IH]; intros b; destruct b as [| y b]; simpl;
        try reflexivity.
      rewrite IH. ring. }
    rewrite Hsym.
    rewrite sq_dist_concat.
    + unfold qrows. rewrite combine_map_snd, map_map. reflexivity.
    + apply (rows_same_lengths d); try assumption.
      unfold qrows. rewrite length_map. symmetry. exact Hidx_len.
  - intros Hcc.
    pose proof (mse_loss_nonneg (concat qrows) (rdata inputs)) as Hnn.
    nra.
Qed.

Lemma vq_forward_loss_witness :
  exists quantized loss encoding_indices,
    vq_forward small_quantizer small_input
    = Ok (quantized, loss, encoding_indices) /\
    loss = ((1 + _commitment_cost small_quantizer)
            * mse_loss (rdata quantized) (rdata small_input))%R /\
    mse_loss (rdata quantized) (rdata small_input)
    = (rsum (map (fun p : list R * nat =>
                    sq_dist (fst p)
                            (nth (snd p) (_embedding_weight small_quantizer) []))
                 (combine (chunks (_embedding_dim small_quantizer)
                                  (rdata small_input))
                          encoding_indices))
       / INR (length (rdata small_input)))%R /\
    ((-1 <= _commitment_cost small_quantizer)%R -> (0 <= loss)%R).
Proof.
  apply (vq_forward_loss small_quantizer small_input).
  - split; [reflexivity | repeat constructor].
  - simpl. lia.
  - simpl. lia.
  - reflexivity.
  - discriminate.
Defined.







(* ------------------------------------------------------------------ *)
(** ** Pix2seqTransformerDecoder.forward *)

Lemma layers_loop_length (memory : etensor) (mask : list (list bool))
    (pos : etensor) (sam : option etensor)
    (zipped : list (Pix2seqDecoder.layer * etensor)) (output : etensor)
    (cur : list etensor) :
  length (snd (Pix2seqDecoder.layers_loop memory mask pos sam zipped output cur))
  = length cur + length zipped.
Proof.
  revert output cur. induction zipped as [| [l kv] rest IH]; intros output cur.
  - simpl. lia.
  - cbn [Pix2seqDecoder.layers_loop].
    destruct (l output memory mask pos sam kv) as [output' cur_kv].
    rewrite IH, length_app. simpl. lia.
Qed.

Lemma combine_firstn_min {A B : Type} (l : list A) (l' : list B) :
  combine l l'
  = combine (firstn (Nat.min (length l) (length l')) l)
            (firstn (Nat.min (length l) (length l')) l').
Proof.
  revert l'. induction l as [| x l IH]; intros l'; [reflexivity |].
  destruct l' as [| y l']; [reflexivity |].
  cbn [length Nat.min firstn combine]. f_equal. apply IH.
Qed.

Lemma pix2seq_forward_cache_length (self : Pix2seqDecoder.Pix2seqTransformerDecoder)
    (tgt memory : etensor) (mask : list (list bool)) (pos : etensor)
    (pre_kv_list : list etensor) (sam : option etensor) :
  length (snd (Pix2seqDecoder.forward self tgt memory mask pos pre_kv_list sam))
  = Nat.min (length (Pix2seqDecoder.layers self)) (length pre_kv_list).
Proof.
  unfold Pix2seqDecoder.forward.
  pose proof (layers_loop_length memory mask pos sam
                (combine (Pix2seqDecoder.layers self) pre_kv_list) tgt []) as H.
  destruct (Pix2seqDecoder.layers_loop memory mask pos sam
              (combine (Pix2seqDecoder.layers self) pre_kv_list) tgt [])
    as [output cur].
  cbn [snd] in *. rewrite H, length_combine. reflexivity.
Qed.

(** X21 (Pix2seqTransformerDecoder.forward): the layers are zipped with
    the list of caches, so only as many layers run as there are caches:
    the returned cache list has [min(len(layers), len(pre_kv_list))]
    entries and the result is that of the decoder cut down to that many
    layers; the remaining layers are skipped without an error. *)
Theorem pix2seq_decoder_zips_layers
    (self : Pix2seqDecoder.Pix2seqTransformerDecoder)
    (tgt memory : etensor) (mask : list (list bool)) (pos : etensor)
    (pre_kv_list : list etensor) (self_attn_mask : option etensor) :
  let n := Nat.min (length (Pix2seqDecoder.layers self)) (length pre_kv_list) in
  let cut :=
    {| Pix2seqDecoder.layers := firstn n (Pix2seqDecoder.layers self);
       Pix2seqDecoder.post_norm := Pix2seqDecoder.post_norm self |} in
  length (snd (Pix2seqDecoder.forward self tgt memory mask pos pre_kv_list
                                      self_attn_mask)) = n /\
  Pix2seqDecoder.forward self tgt memory mask pos pre_kv_list self_attn_mask
  = Pix2seqDecoder.forward cut tgt memory mask pos (firstn n pre_kv_list)
                           self_attn_mask.
Proof.
  intros n cut. split; [apply pix2seq_forward_cache_length |].
  unfold Pix2seqDecoder.forward. subst cut.
  cbn [Pix2seqDecoder.layers Pix2seqDecoder.post_norm].
  rewrite (combine_firstn_min (Pix2seqDecoder.layers self) pre_kv_list).
  reflexivity.
Qed.

Lemma decode_step_pre_kv (self : Pix2seqTransformer)
    (memory pos_embed : etensor) (mask : list (list bool))
    (vocal_embed : list (list Z) -> result etensor)
    (vocal_classifier : etensor -> sim) (num_vocal : Z) (nucleus_sampling : bool)
    (multinomial : nat -> list ereal -> result nat)
    (seq_i : nat) (st st' : decode_state) (f : flow) :
  decode_step self memory pos_embed mask vocal_embed vocal_classifier num_vocal
              nucleus_sampling multinomial seq_i st = Ok (f, st') ->
  pre_kv st'
  = snd (decoder self (input_embed st) memory pos_embed mask (pre_kv st)).
Proof.
  unfold decode_step.
  destruct (decoder self (input_embed st) memory pos_embed mask (pre_kv st))
    as [out_dec kv].
  destruct (if pred_eos self
            then eos_update num_vocal seq_i (vocal_classifier out_dec)
                            (end_ st) (end_lens st)
            else Ok (false, end_ st, end_lens st))
    as [[[stop end1] end_lens1] | e]; [| discriminate].
  cbn [bind]. destruct stop.
  - intros [= <- <-]. reflexivity.
  - destruct (if nucleus_sampling
              then nucleus_step self multinomial seq_i (vocal_classifier out_dec)
              else greedy_step num_vocal (vocal_classifier out_dec))
      as [[pred_token logits] | e]; [| discriminate].
    cbn [bind]. destruct (vocal_embed pred_token) as [emb | e]; [| discriminate].
    cbn [bind]. intros [= <- <-]. reflexivity.
Qed.

(** X22 (Pix2seqTransformer.forward with Pix2seqTransformerDecoder):
    [pre_kv] starts with one cache per decoder layer and every call of
    the decoder returns as many caches as it was given, so at every
    step of the evaluation loop each layer has its own cache and all
    layers run: when the loop is left, [pre_kv] still has one entry per
    layer. *)
Theorem eval_keeps_one_cache_per_layer
    (dec : Pix2seqDecoder.Pix2seqTransformerDecoder)
    (self : Pix2seqTransformer) (bs : nat)
    (memory pos_embed : etensor) (mask : list (list bool))
    (det_embed_weight : list (list ereal))
    (vocal_embed : list (list Z) -> result etensor)
    (vocal_classifier : etensor -> sim) (num_vocal : Z) (nucleus_sampling : bool)
    (multinomial : nat -> list ereal -> result nat) :
  decoder self = Pix2seqDecoder.as_decoder dec ->
  decoder_num_layers self = length (Pix2seqDecoder.layers dec) ->
  length (pre_kv (initial_state self bs det_embed_weight))
  = length (Pix2seqDecoder.layers dec) /\
  match decode self bs memory pos_embed mask det_embed_weight vocal_embed
               vocal_classifier num_vocal nucleus_sampling multinomial with
  | Ok (_, st) => length (pre_kv st) = length (Pix2seqDecoder.layers dec)
  | Raise _ => True
  end.
Proof.
  intros Hdec Hnum.
  assert (H0 : length (pre_kv (initial_state self bs det_embed_weight))
               = length (Pix2seqDecoder.layers dec)).
  { cbn [initial_state pre_kv]. rewrite repeat_length. exact Hnum. }
  split; [exact H0 |]. unfold decode.
  generalize dependent (initial_state self bs det_embed_weight).
  generalize (seq 0 max_len).
  intros range. induction range as [| i range IH]; intros st Hst.
  - cbn [decode_loop]. exact Hst.
  - cbn [decode_loop].
    destruct (decode_step self memory pos_embed mask vocal_embed vocal_classifier
                num_vocal nucleus_sampling multinomial i st)
      as [[f st'] | e] eqn:Hstep; cbn [bind]; [| exact I].
    assert (Hst' : length (pre_kv st') = length (Pix2seqDecoder.layers dec)).
    { rewrite (decode_step_pre_kv _ _ _ _ _ _ _ _ _ _ _ _ _ Hstep), Hdec.
      unfold Pix2seqDecoder.as_decoder.
      rewrite pix2seq_forward_cache_length, Hst. apply Nat.min_id. }
    destruct f; [apply IH; exact Hst' | exact Hst'].
Qed.

Lemma eval_keeps_one_cache_per_layer_witness :
  let dec :=
    {| Pix2seqDecoder.layers :=
         [fun output memory mask pos attn_masks pre_kv => (output, pre_kv)];
       Pix2seqDecoder.post_norm := None |} in
  let self :=
    {| pred_eos := true;
       decoder := Pix2seqDecoder.as_decoder dec;
       decoder_num_layers := 1;
       top_p := (9 / 10)%R;
       num_bins := 10%Z;
       num_classes := 2%Z |} in
  length (pre_kv (initial_state self 2 [[Fin 0]]))
  = length (Pix2seqDecoder.layers dec) /\
  match decode self 2 empty_tensor empty_tensor [] [[Fin 0]] zero_embed
               (eos_classifier 2) 4 false first_draw with
  | Ok (_, st) => length (pre_kv st) = length (Pix2seqDecoder.layers dec)
  | Raise _ => True
  end.
Proof.
  intros dec self.
  apply (eval_keeps_one_cache_per_layer dec self 2 empty_tensor empty_tensor []
           [[Fin 0]] zero_embed (eos_classifier 2) 4 false first_draw);
    reflexivity.
Defined.

(* ------------------------------------------------------------------ *)
(** ** inverse_sigmoid: further properties *)

Lemma inverse_sigmoid_operands (x eps : R) :
  (0 < eps)%R ->
  (0 < inverse_sigmoid_x1 x eps)%R /\ (0 < inverse_sigmoid_x2 x eps)%R /\
  inverse_sigmoid_x1 (1 - x) eps = inverse_sigmoid_x2 x eps /\
  inverse_sigmoid_x2 (1 - x) eps = inverse_sigmoid_x1 x eps /\
  ((eps <= 1)%R ->
   (eps <= inverse_sigmoid_x1 x eps <= 1)%R /\
   (eps <= inverse_sigmoid_x2 x eps <= 1)%R /\
   ((x <= 0)%R -> inverse_sigmoid_x1 x eps = eps /\
                  inverse_sigmoid_x2 x eps = 1%R) /\
   ((1 <= x)%R -> inverse_sigmoid_x1 x eps = 1%R /\
                  inverse_sigmoid_x2 x eps = eps)) /\
  ((eps <= x <= 1 - eps)%R ->
   inverse_sigmoid_x1 x eps = x /\ inverse_sigmoid_x2 x eps = (1 - x)%R).
Proof.
  intros Heps. unfold inverse_sigmoid_x1, inverse_sigmoid_x2. cbv zeta.
  rmaxmin; repeat split; intros; try lra.
Qed.

Lemma sigmoid_ln (r : R) : (0 < r)%R -> sigmoid (ln r) = (r / (r + 1))%R.
Proof.
  intros Hr. unfold sigmoid. rewrite exp_Ropp, exp_ln by exact Hr.
  field. split; lra.
Qed.

(** X23 (inverse_sigmoid): the sigmoid of [inverse_sigmoid(x, eps)] is
    [x1 / (x1 + x2)] for the two clamped operands; for [x] in
    [[eps, 1 - eps]] it is [x] itself, so that a zero offset in the
    refinement [sigmoid(offset + inverse_sigmoid(reference))] leaves
    such a reference coordinate where it is. *)
Theorem sigmoid_inverse_sigmoid (x eps : R) :
  (0 < eps)%R ->
  sigmoid (inverse_sigmoid x eps)
  = (inverse_sigmoid_x1 x eps
     / (inverse_sigmoid_x1 x eps + inverse_sigmoid_x2 x eps))%R /\
  ((eps <= x <= 1 - eps)%R ->
   sigmoid (inverse_sigmoid x eps) = x /\
   sigmoid (0 + inverse_sigmoid x eps) = x).
Proof.
  intros Heps.
  destruct (inverse_sigmoid_operands x eps Heps) as (H1 & H2 & _ & _ & _ & Hmid).
  assert (Hs : sigmoid (inverse_sigmoid x eps)
               = (inverse_sigmoid_x1 x eps
                  / (inverse_sigmoid_x1 x eps + inverse_sigmoid_x2 x eps))%R).
  { unfold inverse_sigmoid. cbv zeta.
    rewrite sigmoid_ln by (apply Rdiv_lt_0_compat; assumption).
    field. split; lra. }
  split; [exact Hs |]. intros Hx. destruct (Hmid Hx) as [E1 E2].
  rewrite Rplus_0_l, Hs, E1, E2. split; field; lra.
Qed.

Lemma sigmoid_inverse_sigmoid_witness :
  sigmoid (inverse_sigmoid (1 / 2) default_eps)
  = (inverse_sigmoid_x1 (1 / 2) default_eps
     / (inverse_sigmoid_x1 (1 / 2) default_eps
        + inverse_sigmoid_x2 (1 / 2) default_eps))%R /\
  ((default_eps <= 1 / 2 <= 1 - default_eps)%R ->
   sigmoid (inverse_sigmoid (1 / 2) default_eps) = (1 / 2)%R /\
   sigmoid (0 + inverse_sigmoid (1 / 2) default_eps) = (1 / 2)%R).
Proof.
  apply (sigmoid_inverse_sigmoid (1 / 2) default_eps).
  unfold default_eps. lra.
Defined.

Lemma ln_quot (a b : R) :
  (0 < a)%R -> (0 < b)%R -> ln (a / b) = (ln a - ln b)%R.
Proof.
  intros Ha Hb. unfold Rdiv.
  rewrite ln_mult by (try apply Rinv_0_lt_compat; assumption).
  rewrite ln_Rinv by exact Hb. ring.
Qed.

(** X24 (inverse_sigmoid): for [0 < eps <= 1] the result is bounded by
    [ln(1 / eps)] in absolute value, whatever the input is; it is
    [ln(eps)] for every [x <= 0] and [-ln(eps)] for every [x >= 1]; and
    reflecting the input about 1/2 negates the result. *)
Theorem inverse_sigmoid_bounded (x eps : R) :
  (0 < eps <= 1)%R ->
  (ln eps <= inverse_sigmoid x eps <= - ln eps)%R /\
  ((x <= 0)%R -> inverse_sigmoid x eps = ln eps) /\
  ((1 <= x)%R -> inverse_sigmoid x eps = (- ln eps)%R) /\
  inverse_sigmoid (1 - x) eps = (- inverse_sigmoid x eps)%R.
Proof.
  intros [Heps Hle].
  destruct (inverse_sigmoid_operands x eps Heps)
    as (H1 & H2 & Hr1 & Hr2 & Hb & _).
  destruct (Hb Hle) as (B1 & B2 & Hlow & Hhigh).
  assert (Hdiv : inverse_sigmoid x eps
                 = (ln (inverse_sigmoid_x1 x eps)
                    - ln (inverse_sigmoid_x2 x eps))%R).
  { unfold inverse_sigmoid. cbv zeta. apply ln_quot; assumption. }
  assert (Hln1 : (ln eps <= ln (inverse_sigmoid_x1 x eps) <= 0)%R).
  { split.
    - destruct (proj1 B1) as [Hlt | <-]; [left; apply ln_increasing; lra | lra].
    - rewrite <- ln_1. destruct (proj2 B1) as [Hlt | ->];
        [left; apply ln_increasing; lra | lra]. }
  assert (Hln2 : (ln eps <= ln (inverse_sigmoid_x2 x eps) <= 0)%R).
  { split.
    - destruct (proj1 B2) as [Hlt | <-]; [left; apply ln_increasing; lra | lra].
    - rewrite <- ln_1. destruct (proj2 B2) as [Hlt | ->];
        [left; apply ln_increasing; lra | lra]. }
  split; [rewrite Hdiv; lra |]. split; [| split].
  - intros Hx. destruct (Hlow Hx) as [E1 E2]. rewrite Hdiv, E1, E2, ln_1. lra.
  - intros Hx. destruct (Hhigh Hx) as [E1 E2]. rewrite Hdiv, E1, E2, ln_1. lra.
  - rewrite Hdiv. unfold inverse_sigmoid. cbv zeta. rewrite Hr1, Hr2.
    rewrite ln_quot by assumption. lra.
Qed.

Lemma inverse_sigmoid_bounded_witness :
  (ln default_eps <= inverse_sigmoid 2 default_eps <= - ln default_eps)%R /\
  ((2 <= 0)%R -> inverse_sigmoid 2 default_eps = ln default_eps) /\
  ((1 <= 2)%R -> inverse_sigmoid 2 default_eps = (- ln default_eps)%R) /\
  inverse_sigmoid (1 - 2) default_eps = (- inverse_sigmoid 2 default_eps)%R.
Proof.
  apply (inverse_sigmoid_bounded 2 default_eps).
  unfold default_eps. lra.
Defined.

(* ------------------------------------------------------------------ *)
(** ** gen_encoder_output_proposals: levels without pixels *)

Lemma proposals_loop_empty_level (mask : list (list bool))
    (pre rest : list (nat * nat)) (H W cur lvl : nat) :
  Forall (fun hw => 0 < fst hw /\ 0 < snd hw) pre ->
  Forall (fun row => cur + total_keys pre <= length row) mask ->
  H = 0 \/ W = 0 ->
  proposals_loop mask cur lvl (pre ++ (H, W) :: rest) = Raise IndexError.
Proof.
  intros Hpre. revert cur lvl.
  induction Hpre as [| [H0 W0] pre [HH HW] _ IH]; intros cur lvl Hmask Hzero.
  - cbn [app proposals_loop]. unfold level_proposals.
    assert (Hz : (H =? 0) || (W =? 0) = true).
    { destruct Hzero as [-> | ->]; [reflexivity | apply orb_true_r]. }
    rewrite Hz. reflexivity.
  - cbn [fst snd] in HH, HW. cbn [app proposals_loop].
    simpl total_keys in Hmask.
    rewrite (level_proposals_ok mask cur lvl H0 W0 HH HW)
      by (eapply Forall_impl; [| exact Hmask]; cbn beta; intros; lia).
    cbn [bind]. rewrite IH; [reflexivity | | exact Hzero].
    eapply Forall_impl; [| exact Hmask]. cbn beta. intros. lia.
Qed.

(** X25 (gen_encoder_output_proposals): a level with no row or no
    column makes the function raise an IndexError, at the indexing of
    the first column or first row of that level's mask, when the levels
    before it are not empty and fit into the mask. *)
Theorem gen_encoder_output_proposals_empty_level
    (self : DeformableDetrTransformer) (memory : etensor3)
    (memory_padding_mask : list (list bool))
    (pre rest : list (nat * nat)) (H W : nat) :
  length memory_padding_mask = length memory ->
  Forall (fun hw => 0 < fst hw /\ 0 < snd hw) pre ->
  Forall (fun row => total_keys pre <= length row) memory_padding_mask ->
  H = 0 \/ W = 0 ->
  gen_encoder_output_proposals self memory memory_padding_mask
    (pre ++ (H, W) :: rest)
  = Raise IndexError.
Proof.
  intros Hlen Hpre Hmask Hzero. unfold gen_encoder_output_proposals.
  rewrite Hlen, Nat.eqb_refl. unfold raw_proposals.
  rewrite (proposals_loop_empty_level memory_padding_mask pre rest H W 0 0)
    by assumption.
  destruct (pre ++ (H, W) :: rest) eqn:E; [| reflexivity].
  destruct pre; discriminate E.
Qed.

Lemma gen_encoder_output_proposals_empty_level_witness :
  gen_encoder_output_proposals
    {| enc_output := fun t => t; enc_output_norm := fun t => t |}
    [[[Fin 0]]] [[false]] ([(1, 1)] ++ (0, 3) :: [])
  = Raise IndexError.
Proof.
  apply (gen_encoder_output_proposals_empty_level
           {| enc_output := fun t => t; enc_output_norm := fun t => t |}
           [[[Fin 0]]] [[false]] [(1, 1)] [] 0 3).
  - reflexivity.
  - repeat constructor.
  - repeat constructor.
  - left. reflexivity.
Defined.

(* ------------------------------------------------------------------ *)
(** ** Pix2seqTransformer.forward: the nucleus-sampling step *)

Lemma slice_repeat_rows {A : Type} (row : list A) (m k : nat) :
  k < m ->
  firstn (length row) (skipn (k * length row) (concat (repeat row m))) = row.
Proof.
  revert k. induction m as [| m IH]; intros k Hk; [lia |].
  cbn [repeat concat]. destruct k as [| k].
  - cbn [Nat.mul skipn]. apply firstn_app_exact. reflexivity.
  - replace (S k * length row) with (k * length row + length row) by lia.
    rewrite <- skipn_skipn.
    rewrite (skipn_app_exact (length row) row) by reflexivity.
    apply IH. lia.
Qed.

Lemma one_hot_row_length (V idx : nat) : length (one_hot_row V idx) = V.
Proof. unfold one_hot_row. rewrite length_map, length_seq. reflexivity. Qed.

Lemma py_index_spec (n : nat) (i : Z) (k : nat) :
  py_index n i = Ok k ->
  (- Z.of_nat n <= i < Z.of_nat n)%Z /\ k = Z.to_nat (i mod Z.of_nat n).
Proof.
  unfold py_index.
  destruct ((0 <=? i)%Z && (i <? Z.of_nat n)%Z) eqn:H1.
  - apply andb_true_iff in H1. destruct H1 as [Ha Hb].
    apply Z.leb_le in Ha. apply Z.ltb_lt in Hb. intros [= <-].
    split; [lia |]. rewrite Z.mod_small by lia. reflexivity.
  - destruct ((i <? 0)%Z && (- Z.of_nat n <=? i)%Z) eqn:H2; [| discriminate].
    apply andb_true_iff in H2. destruct H2 as [Ha Hb].
    apply Z.ltb_lt in Ha. apply Z.leb_le in Hb. intros [= <-].
    split; [lia |]. f_equal.
    apply (Z.mod_unique i (Z.of_nat n) (-1)); lia.
Qed.

(** X26 (Pix2seqTransformer.forward, nucleus sampling): the token fed
    back is the sampled index clamped to [num_bins + num_classes]; it
    indexes the vocabulary, counting from the end when the clamp makes
    it negative; and the logits kept for the step are not the
    classifier output but a tensor of the same shape that is one-hot at
    that index in every row. *)
Theorem nucleus_step_one_hot (self : Pix2seqTransformer)
    (multinomial : nat -> list ereal -> result nat)
    (seq_i : nat) (similarity : sim)
    (pred_token : list (list Z)) (pred_similarity : sim) :
  nucleus_step self multinomial seq_i similarity
  = Ok (pred_token, pred_similarity) ->
  exists t,
    pred_token = [[t]] /\
    (t <= num_bins self + num_classes self)%Z /\
    (- Z.of_nat (sim_V similarity) <= t < Z.of_nat (sim_V similarity))%Z /\
    sim_N pred_similarity = sim_N similarity /\
    sim_B pred_similarity = sim_B similarity /\
    sim_V pred_similarity = sim_V similarity /\
    forall n b, n < sim_N similarity -> b < sim_B similarity ->
      sim_row pred_similarity n b
      = one_hot_row (sim_V similarity)
                    (Z.to_nat (t mod Z.of_nat (sim_V similarity))).
Proof.
  unfold nucleus_step.
  destruct (top_k_top_p_filtering (squeeze (sim_tensor similarity)) default_top_k
              (top_p self) default_filter_value) as [filtered | e];
    [| discriminate].
  cbn [bind].
  destruct (multinomial seq_i (softmax (data filtered))) as [tok | e];
    [| discriminate].
  cbn [bind].
  set (t := Z.min (Z.of_nat tok) (num_bins self + num_classes self)).
  destruct (py_index (sim_V similarity) t) as [idx | e] eqn:Hidx;
    [| discriminate].
  cbn [bind]. intros [= <- <-].
  destruct (py_index_spec _ _ _ Hidx) as [Hrange ->].
  exists t. split; [reflexivity |]. split; [unfold t; lia |].
  split; [exact Hrange |]. cbn [sim_N sim_B sim_V].
  do 3 (split; [reflexivity |]).
  intros n b Hn Hb. unfold sim_row. cbn [sim_N sim_B sim_V sim_data].
  set (row := one_hot_row (sim_V similarity)
                          (Z.to_nat (t mod Z.of_nat (sim_V similarity)))).
  assert (Hrow : length row = sim_V similarity) by apply one_hot_row_length.
  rewrite <- Hrow at 1 2. apply slice_repeat_rows. nia.
Qed.

Lemma nucleus_step_one_hot_witness :
  let self :=
    {| pred_eos := true;
       decoder := echo_decoder;
       decoder_num_layers := 1;
       top_p := 0%R;
       num_bins := 10%Z;
       num_classes := 2%Z |} in
  let similarity := Sim 1 1 4 [Fin 0; NInf; NInf; NInf] in
  exists t,
    [[0%Z]] = [[t]] /\
    (t <= num_bins self + num_classes self)%Z /\
    (- Z.of_nat (sim_V similarity) <= t < Z.of_nat (sim_V similarity))%Z /\
    sim_N (Sim 1 1 4 (concat (repeat (one_hot_row 4 0) 1))) = sim_N similarity /\
    sim_B (Sim 1 1 4 (concat (repeat (one_hot_row 4 0) 1))) = sim_B similarity /\
    sim_V (Sim 1 1 4 (concat (repeat (one_hot_row 4 0) 1))) = sim_V similarity /\
    forall n b, n < sim_N similarity -> b < sim_B similarity ->
      sim_row (Sim 1 1 4 (concat (repeat (one_hot_row 4 0) 1))) n b
      = one_hot_row (sim_V similarity)
                    (Z.to_nat (t mod Z.of_nat (sim_V similarity))).
Proof.
  intros self similarity.
  apply (nucleus_step_one_hot self first_draw 0 similarity).
  unfold nucleus_step, top_k_top_p_filtering. simpl.
  rewrite Rltb_irrefl. reflexivity.
Defined.

(* ------------------------------------------------------------------ *)
(** ** get_proposal_pos_embed *)

Lemma nth_flat_map_rows {A B : Type} (f : A -> list B) (W : nat) (l : list A)
    (i j : nat) (d : B) (dx : A) :
  (forall x, length (f x) = W) -> i < length l -> j < W ->
  nth (i * W + j) (flat_map f l) d = nth j (f (nth i l dx)) d.
Proof.
  intros Hf. revert i. induction l as [| x l IH]; intros i Hi Hj;
    [simpl in Hi; lia |].
  cbn [flat_map]. destruct i as [| i].
  - cbn [Nat.mul Nat.add nth]. rewrite app_nth1 by (rewrite Hf; exact Hj).
    reflexivity.
  - rewrite app_nth2 by (rewrite Hf; simpl; lia). rewrite Hf.
    replace (S i * W + j - W) with (i * W + j) by (simpl; lia).
    cbn [nth]. apply IH; [simpl in Hi; lia | exact Hj].
Qed.

Lemma coord_embed_length (num_pos_feats : nat) (temperature : R) (p : ereal) :
  length (coord_embed num_pos_feats temperature p) = 2 * (num_pos_feats / 2).
Proof.
  unfold coord_embed.
  rewrite (flat_map_constant_length (c := 2)) by (intros; reflexivity).
  rewrite length_seq. lia.
Qed.

Lemma esigmoid_fin (p : ereal) :
  p <> NaN -> exists s, esigmoid p = Fin s /\ (0 <= s <= 1)%R.
Proof.
  intros Hp. destruct p as [r | | |]; simpl.
  - exists (sigmoid r). split; [reflexivity | apply sigmoid_unit].
  - exists 1%R. split; [reflexivity | lra].
  - exists 0%R. split; [reflexivity | lra].
  - congruence.
Qed.

(** X27 (DeformableDetrTransformer.get_proposal_pos_embed): an odd
    [num_pos_feats] makes [torch.stack] fail; for an even one every
    coordinate gets [num_pos_feats] entries, made of pairs
    [(sin a, cos a)] of one and the same angle
    [a = sigmoid(p) * 2 * pi / temperature ** (2 * j / num_pos_feats)],
    the sigmoid lying in [0, 1] also for infinite [p]. *)
Theorem proposal_pos_embed_pairs (proposals : etensor3)
    (num_pos_feats : nat) (temperature : R) (n l c j : nat) :
  (0 < temperature)%R ->
  let box := nth l (nth n proposals []) [] in
  let p := nth c box NaN in
  n < length proposals -> l < length (nth n proposals []) ->
  c < length box -> p <> NaN -> j < num_pos_feats / 2 ->
  match get_proposal_pos_embed proposals num_pos_feats temperature with
  | Raise e => Nat.even num_pos_feats = false /\ e = RuntimeError
  | Ok out =>
      let row := nth l (nth n out []) [] in
      Nat.even num_pos_feats = true /\
      length row = length box * num_pos_feats /\
      exists s,
        esigmoid p = Fin s /\ (0 <= s <= 1)%R /\
        let a := (s * (2 * PI)
                  / Rpower temperature (2 * INR j / INR num_pos_feats))%R in
        nth (c * num_pos_feats + 2 * j) row NaN = Fin (sin a) /\
        nth (c * num_pos_feats + 2 * j + 1) row NaN = Fin (cos a)
  end.
Proof.
  intros HT box p Hn Hl Hc Hp Hj. unfold get_proposal_pos_embed.
  destruct (Nat.even num_pos_feats) eqn:Heven; [| split; reflexivity].
  assert (Hnpf : num_pos_feats = 2 * (num_pos_feats / 2)).
  { apply Nat.even_spec in Heven. destruct Heven as [m Hm].
    rewrite Hm. rewrite (Nat.mul_comm 2 m), Nat.div_mul by lia. lia. }
  cbv zeta.
  rewrite (nth_map_in _ _ _ _ []) by exact Hn.
  rewrite (nth_map_in _ _ _ _ []) by exact Hl.
  fold box.
  assert (Hlen : forall x, length (coord_embed num_pos_feats temperature x)
                           = num_pos_feats).
  { intros x. rewrite coord_embed_length. symmetry. exact Hnpf. }
  split; [reflexivity |]. split.
  - rewrite (flat_map_constant_length (c := num_pos_feats)) by (intros; apply Hlen).
    reflexivity.
  - destruct (esigmoid_fin p Hp) as (s & Hs & Hrange).
    exists s. split; [exact Hs |]. split; [exact Hrange |].
    assert (Hpow : forall i, i / 2 = j ->
              pos_entry num_pos_feats temperature p i
              = Fin (s * (2 * PI)
                     / Rpower temperature (2 * INR j / INR num_pos_feats))).
    { intros i Hi. unfold pos_entry, dim_t. cbv zeta. rewrite Hs, Hi.
      cbn [emul]. apply ediv_fin.
      unfold Rpower. pose proof (exp_pos (2 * INR j / INR num_pos_feats * ln temperature)).
      lra. }
    assert (Hd0 : (2 * j) / 2 = j) by (rewrite Nat.mul_comm; apply Nat.div_mul; lia).
    assert (Hd1 : (2 * j + 1) / 2 = j).
    { symmetry. apply (Nat.div_unique (2 * j + 1) 2 j 1); lia. }
    assert (Hpair : forall b, b < 2 ->
              nth (c * num_pos_feats + (j * 2 + b))
                  (flat_map (coord_embed num_pos_feats temperature) box) NaN
              = nth b [ esin (pos_entry num_pos_feats temperature p (2 * j));
                        ecos (pos_entry num_pos_feats temperature p (2 * j + 1)) ]
                    NaN).
    { intros b Hb.
      rewrite (nth_flat_map_rows _ num_pos_feats box c _ NaN NaN Hlen Hc)
        by lia.
      fold p. unfold coord_embed.
      rewrite (nth_flat_map_rows _ 2 (seq 0 (num_pos_feats / 2)) j b NaN 0)
        by (try (intros; reflexivity); try (rewrite length_seq); lia).
      rewrite seq_nth by exact Hj. reflexivity. }
    cbv zeta. split.
    + replace (c * num_pos_feats + 2 * j)
        with (c * num_pos_feats + (j * 2 + 0)) by lia.
      rewrite Hpair by lia. cbn [nth]. rewrite (Hpow _ Hd0). reflexivity.
    + replace (c * num_pos_feats + 2 * j + 1)
        with (c * num_pos_feats + (j * 2 + 1)) by lia.
      rewrite Hpair by lia. cbn [nth]. rewrite (Hpow _ Hd1). reflexivity.
Qed.

Lemma proposal_pos_embed_pairs_witness :
  let proposals := [[[PInf; NInf]]] in
  match get_proposal_pos_embed proposals 2 10000 with
  | Raise e => Nat.even 2 = false /\ e = RuntimeError
  | Ok out =>
      let row := nth 0 (nth 0 out []) [] in
      Nat.even 2 = true /\
      length row = length (nth 0 (nth 0 proposals []) []) * 2 /\
      exists s,
        esigmoid (nth 1 (nth 0 (nth 0 proposals []) []) NaN) = Fin s /\
        (0 <= s <= 1)%R /\
        let a := (s * (2 * PI) / Rpower 10000 (2 * INR 0 / INR 2))%R in
        nth (1 * 2 + 2 * 0) row NaN = Fin (sin a) /\
        nth (1 * 2 + 2 * 0 + 1) row NaN = Fin (cos a)
  end.
Proof.
  intros proposals.
  apply (proposal_pos_embed_pairs proposals 2 10000 0 0 1 0).
  - lra.
  - simpl. lia.
  - simpl. lia.
  - simpl. lia.
  - simpl. discriminate.
  - simpl. lia.
Defined.
